(** * PyALE: one-dimensional accumulated local effects

    A shallow embedding of [src/ALE_1D.py] (functions
    [aleplot_1D_continuous] and [aleplot_1D_discrete]) and the properties
    of its result tables.

    Modelling conventions.
    - Line 30 of the source (the quantile probabilities) is computed in
      IEEE binary64, exactly as numpy does, with the Standard Library's
      [SpecFloat] operations; the probabilities are then handed on as the
      exact rationals they denote.
    - All other arithmetic is exact over [Q]; a [cell] that holds [None]
      stands for a value that is not a finite number (NaN produced by
      [0/0] or by pandas index alignment on a missing label).
    - A pandas [DataFrame] that is passed to the model is a finite map from
      column names to typed columns; data frames live in a heap of objects
      addressed by references, so that [X.copy()] and in-place column
      assignment are visible as such.
    - A column carries its dtype, integers or floats. The discrete
      estimator indexes the array of levels with the values of the column:
      numpy takes integers, and of an index of floats only the empty one.
      The table it returns for a column of floats has no label but the
      anchor, and its index is kept as integers like that of any other
      table of this estimator.
    - The row index of the input table never influences a value that the
      source computes (all row-wise operations are positional), so it is
      left out.
    - [model.predict], [quantile_ied] and [CI_estimate] are the external
      collaborators of the source; they are parameters of the development.
    - [pd.cut] is embedded as pandas computes it on increasing edges; on a
      single edge its outcome depends on the pandas release, and both
      outcomes are covered (flag [legacy_cut]).
    - The two plot functions are embedded by what they put on the axes,
      call by call; the numbers that [random.random()] returns after
      [random.seed(123)] are a parameter. *)

From Stdlib Require Import ZArith QArith Qround SpecFloat Lia Lqa Sorted.
From stdpp Require Import base tactics option list strings gmap pretty.

Local Open Scope Z_scope.

(** ** Binary64 arithmetic (lines 30 and 62-63) *)

Module F64.
Definition prec : Z := 53.
Definition emax : Z := 1024.

(** Conversion of an integer; exact up to [2^53]. *)
Definition of_Z (z : Z) : spec_float := binary_normalize prec emax z 0 false.
Definition add : spec_float → spec_float → spec_float := SFadd prec emax.
Definition sub : spec_float → spec_float → spec_float := SFsub prec emax.
Definition mul : spec_float → spec_float → spec_float := SFmul prec emax.
Definition div : spec_float → spec_float → spec_float := SFdiv prec emax.

Definition is_zero (f : spec_float) : bool :=
  match f with S754_zero _ => true | _ => false end.

(** The rational denoted by a finite float (0 for the others). *)
Definition to_Q (f : spec_float) : Q :=
  match f with
  | S754_finite s m e =>
      let z := if s then Zneg m else Zpos m in
      if 0 <=? e then inject_Z (z * 2 ^ e)
      else Qmake z (2 ^ Z.to_pos (- e))
  | _ => 0%Q
  end.

(** [ceil] of a finite float, as numpy's [_arange_safe_ceil_to_intp]. *)
Definition ceil (f : spec_float) : option Z :=
  match f with
  | S754_zero _ => Some 0
  | S754_finite _ _ _ => Some (Qceiling (to_Q f))
  | _ => None
  end.
End F64.

(** ** Python exceptions and the cells of a table *)

(** An exception is identified by the name of its class. *)
Definition exn : Type := string.

(** A numeric cell; [None] is a value that is not a finite number. *)
Definition cell : Type := option Q.

Definition cell_sub (a b : cell) : cell :=
  match a, b with Some x, Some y => Some (x - y)%Q | _, _ => None end.
Definition cell_add (a b : cell) : cell :=
  match a, b with Some x, Some y => Some (x + y)%Q | _, _ => None end.

(** Float division where the divisor may vanish: the source only divides
    by a sum of sizes, and a zero sum of sizes comes with a zero
    numerator, so the quotient is NaN. *)
Definition nan_div (a b : Q) : cell :=
  if Qeq_bool b 0 then None else Some (a / b)%Q.

Definition Qsum (l : list Q) : Q := foldr Qplus 0%Q l.

(** Python's builtin [sum] over the values of a Series that may hold NaN. *)
Definition py_sum (l : list cell) : cell := foldl cell_add (Some 0%Q) l.

Definition Qmean (l : list Q) : Q := (Qsum l / inject_Z (Z.of_nat (length l)))%Q.

(** [Series.cumsum]. *)
Fixpoint cumsum_from (acc : Q) (l : list Q) : list Q :=
  match l with
  | [] => []
  | x :: t => (acc + x)%Q :: cumsum_from (acc + x)%Q t
  end.
Definition cumsum (l : list Q) : list Q :=
  match l with
  | [] => []
  | x :: t => x :: cumsum_from x t
  end.

(** [Series.shift(1, fill_value=fill)]. *)
Definition shift1 (fill : Q) (l : list Q) : list Q := take (length l) (fill :: l).

(** [int(q)]: truncation towards zero. *)
Definition py_int (q : Q) : Z := Z.quot (Qnum q) (Zpos (Qden q)).

(** ** Index labels: a total order given by a comparison *)

Class Key (K : Type) := {
  kcmp : K → K → comparison;
  kcmp_refl : ∀ x, kcmp x x = Eq;
  kcmp_antisym : ∀ x y, kcmp y x = CompOpp (kcmp x y);
  kcmp_lt_trans : ∀ x y z, kcmp x y = Lt → kcmp y z = Lt → kcmp x z = Lt;
  kcmp_eq_l : ∀ x y z, kcmp x y = Eq → kcmp x z = kcmp y z
}.

Definition keq `{Key K} (x y : K) : Prop := kcmp x y = Eq.
Definition klt `{Key K} (x y : K) : Prop := kcmp x y = Lt.
Definition keqb `{Key K} (x y : K) : bool :=
  match kcmp x y with Eq => true | _ => false end.
Definition kltb `{Key K} (x y : K) : bool :=
  match kcmp x y with Lt => true | _ => false end.

#[global, refine] Instance Key_Z : Key Z := {| kcmp := Z.compare |}.
Proof.
  - apply Z.compare_refl.
  - intros x y. apply Z.compare_antisym.
  - intros x y z. rewrite !Z.compare_lt_iff. lia.
  - intros x y z Hxy. apply Z.compare_eq in Hxy. by subst.
Defined.

#[global, refine] Instance Key_Q : Key Q := {| kcmp := Qcompare |}.
Proof.
  - intros x. by apply Qeq_alt.
  - intros x y. symmetry. apply Qcompare_antisym.
  - intros x y z. rewrite <- !Qlt_alt. apply Qlt_trans.
  - intros x y z Hxy. apply Qeq_alt in Hxy. by rewrite Hxy.
Defined.

Section Keys.
Context `{Key K}.

(** [np.unique] and the sorted distinct keys of a [groupby]: the values
    in increasing order, one representative for equal ones. *)
Fixpoint uinsert (x : K) (l : list K) : list K :=
  match l with
  | [] => [x]
  | y :: t =>
      match kcmp x y with
      | Lt => x :: y :: t
      | Eq => y :: t
      | Gt => y :: uinsert x t
      end
  end.
Definition np_unique (l : list K) : list K := foldr uinsert [] l.

(** The smallest value: [Series.min()] and Python's [min]. *)
Definition kmin (l : list K) : option K :=
  match l with
  | [] => None
  | x :: t => Some (foldl (λ m y, if kltb y m then y else m) x t)
  end.
End Keys.

(** ** Aggregated rows, [groupby], [.loc] and [sort_index] *)

(** A row of the intermediate [res_df]: its index label, the aggregate
    column of the estimator ([size] in the continuous one, [Delta] in the
    discrete one) and the accumulated effect [eff]. *)
Record row (K : Type) := Row { label : K; aux : Q; eff : Q }.
Arguments Row {K} _ _ _.
Arguments label {K} _.
Arguments aux {K} _.
Arguments eff {K} _.

(** A result table: the index and the named columns, in column order. *)
Record frame (K : Type) := Frame {
  index : list K;
  columns : list (string * list cell)
}.
Arguments Frame {K} _ _.
Arguments index {K} _.
Arguments columns {K} _.

Fixpoint get_column (name : string) (cols : list (string * list cell))
  : option (list cell) :=
  match cols with
  | [] => None
  | (n, v) :: t => if String.eqb n name then Some v else get_column name t
  end.

(** [df[name] = v]: replace the column of that name, or append it. *)
Fixpoint set_column (name : string) (v : list cell)
  (cols : list (string * list cell)) : list (string * list cell) :=
  match cols with
  | [] => [(name, v)]
  | (n, w) :: t =>
      if String.eqb n name then (n, v) :: t else (n, w) :: set_column name v t
  end.

Section Rows.
Context `{Key K}.

(** The [Delta] values of the rows of one group, in row order. *)
Definition group (k : K) (d : list (K * Q)) : list Q :=
  List.map snd (List.filter (λ r, keqb k (fst r)) d).

(** The keys of [d.groupby(key)]: sorted, without duplicates. *)
Definition group_keys (d : list (K * Q)) : list K := np_unique (List.map fst d).

(** Label lookup in a Series, as index alignment does it. *)
Fixpoint lookup_label {V : Type} (k : K) (s : list (K * V)) : option V :=
  match s with
  | [] => None
  | (k', v) :: t => if keqb k k' then Some v else lookup_label k t
  end.

Definition has_label (k : K) (l : list (row K)) : bool :=
  existsb (λ r, keqb k (label r)) l.

(** [res_df.loc[k, :] = 0]: overwrite the row labelled [k], or append a
    new row at the end (setting with enlargement). *)
Definition loc_zero (k : K) (l : list (row K)) : list (row K) :=
  if has_label k l
  then List.map (λ r, if keqb k (label r) then Row (label r) 0 0 else r) l
  else l ++ [Row k 0 0].

(** [sort_index]: a stable sort of the rows by label. *)
Fixpoint insert_row (r : row K) (l : list (row K)) : list (row K) :=
  match l with
  | [] => [r]
  | y :: t =>
      match kcmp (label r) (label y) with
      | Gt => y :: insert_row r t
      | _ => r :: y :: t
      end
  end.
Definition sort_index (l : list (row K)) : list (row K) := foldr insert_row [] l.

(** Replace the [eff] column, positionally. *)
Definition with_eff (l : list (row K)) (e : list Q) : list (row K) :=
  zip_with (λ r x, Row (label r) (aux r) x) l e.

(** [a * b] on two Series: the labels are aligned, a label missing on one
    side gives NaN; the result is listed over the union of the labels. *)
Definition align_mul (a b : list (K * Q)) : list cell :=
  List.map
    (λ k, match lookup_label k a, lookup_label k b with
          | Some x, Some y => Some (x * y)%Q
          | _, _ => None
          end)
    (np_unique (List.map fst a ++ List.map fst b)).
End Rows.

(** ** Data frames, the object heap and the effects of the estimators *)

(** A column of a data frame with its dtype. *)
Inductive column := IntCol (xs : list Z) | FloatCol (xs : list Q).

Abbreviation DataFrame := (gmap string column).

Definition float_values (c : column) : list Q :=
  match c with IntCol xs => List.map inject_Z xs | FloatCol xs => xs end.

Definition col_length (c : column) : nat :=
  match c with IntCol xs => length xs | FloatCol xs => length xs end.

(** Boolean-mask selection [a[mask]]. *)
Fixpoint mask_select {A : Type} (mask : list bool) (l : list A) : list A :=
  match mask, l with
  | b :: m, x :: t => if b then x :: mask_select m t else mask_select m t
  | _, _ => []
  end.

(** Boolean-mask assignment [a[mask] = vals]. *)
Fixpoint mask_assign {A : Type} (mask : list bool) (vals old : list A) : list A :=
  match mask, old with
  | true :: m, x :: t =>
      match vals with
      | v :: vs => v :: mask_assign m vs t
      | [] => x :: t
      end
  | false :: m, x :: t => x :: mask_assign m vals t
  | _, _ => old
  end.

Definition select_col (mask : list bool) (c : column) : column :=
  match c with
  | IntCol xs => IntCol (mask_select mask xs)
  | FloatCol xs => FloatCol (mask_select mask xs)
  end.

(** [df[mask]]: a new frame with the selected rows of every column. *)
Definition select_rows (mask : list bool) (df : DataFrame) : DataFrame :=
  select_col mask <$> df.

(** The state threaded through a run: the heap of data-frame objects
    (a reference is a position in it) and the tables on which
    [model.predict] has been called so far, oldest first. *)
Record state := State { heap : list DataFrame; calls : list DataFrame }.

(** A computation either raises a Python exception or returns a value;
    both leave a state behind. *)
Definition M (A : Type) : Type := state → (exn + A) * state.

#[global] Instance M_ret : MRet M := λ A a s, (inr a, s).
#[global] Instance M_bind : MBind M := λ A B k m s,
  match m s with
  | (inl e, s') => (inl e, s')
  | (inr a, s') => k a s'
  end.

Definition raise {A : Type} (e : exn) : M A := λ s, (inl e, s).

Definition lift {A : Type} (r : exn + A) : M A := λ s, (r, s).

(** Dereferencing a variable. Every variable of the source is bound to an
    object, so the error case does not arise from a state that holds the
    caller's table. *)
Definition load (r : nat) : M DataFrame := λ s,
  match heap s !! r with
  | Some df => (inr df, s)
  | None => (inl "ReferenceError", s)
  end.

(** Allocation of a new object, and the update of an existing one. *)
Definition alloc (df : DataFrame) : M nat := λ s,
  (inr (length (heap s)), State (heap s ++ [df]) (calls s)).
Definition store (r : nat) (df : DataFrame) : M unit := λ s,
  (inr tt, State (<[r := df]> (heap s)) (calls s)).

(** [X.copy()]: a fresh object with the same content. *)
Definition df_copy (r : nat) : M nat := df ← load r; alloc df.

(** [df[feature]]. *)
Definition getcol (df : DataFrame) (feature : string) : M column :=
  match df !! feature with
  | Some c => mret c
  | None => raise "KeyError"
  end.

(** [df[feature] = c], in place on the object behind [r]. *)
Definition setcol (r : nat) (feature : string) (c : column) : M unit :=
  df ← load r; store r (<[feature := c]> df).

(** Indexing a numpy array with one integer: negative indices count from
    the end, anything outside raises. *)
Definition np_getitem {A : Type} (a : list A) (i : Z) : M A :=
  let n := Z.of_nat (length a) in
  if (i <? - n) || (n <=? i) then raise "IndexError"
  else match a !! Z.to_nat (if i <? 0 then i + n else i) with
       | Some v => mret v
       | None => raise "IndexError"
       end.

(** Indexing a numpy array with an integer array. *)
Definition np_take {A : Type} (a : list A) (idx : list Z) : M (list A) :=
  mapM (np_getitem a) idx.

(** [a - b] on two arrays of predictions. Arrays of different lengths
    raise (numpy's broadcasting of a one-element array is not followed). *)
Definition np_sub (a b : list Q) : M (list Q) :=
  if Nat.eqb (length a) (length b)
  then mret (zip_with Qminus a b)
  else raise "ValueError".

(** [a[mask]] on an array of predictions: the mask must have its length. *)
Definition np_mask (a : list Q) (mask : list bool) : M (list Q) :=
  if Nat.eqb (length a) (length mask)
  then mret (mask_select mask a)
  else raise "IndexError".

(** [pd.DataFrame({key: keys, "Delta": delta})]: columns of one length. *)
Definition delta_frame {K : Type} (keys : list K) (delta : list Q) : M (list (K * Q)) :=
  if Nat.eqb (length keys) (length delta)
  then mret (zip keys delta)
  else raise "ValueError".

(** ** The quantile probabilities (line 30) *)

(** [a / b] on two Python integers (a float). *)
Definition py_truediv (a b : Z) : exn + spec_float :=
  if b =? 0 then inl "ZeroDivisionError"
  else inr (F64.div (F64.of_Z a) (F64.of_Z b)).

(** [np.arange(start, stop, step)] on floats: the length is
    [ceil((stop - start) / step)], the first two entries are [start] and
    [start + step], entry [i] is [start + i * delta] with
    [delta = (start + step) - start]; all in binary64. *)
Definition np_arange (start stop step : spec_float) : exn + list spec_float :=
  if F64.is_zero step then inl "ZeroDivisionError"
  else
    match F64.div (F64.sub stop start) step with
    | S754_nan => inl "ValueError"
    | S754_infinity _ => inl "OverflowError"
    | q =>
        let len := default 0 (F64.ceil q) in
        if 2 ^ 63 <=? len then inl "OverflowError"
        else
          let next := F64.add start step in
          let delta := F64.sub next start in
          inr (List.map
                 (λ i, match i with
                       | O => start
                       | S O => next
                       | _ => F64.add start (F64.mul (F64.of_Z (Z.of_nat i)) delta)
                       end)
                 (seq 0 (Z.to_nat len)))
    end.

(** [np.append(0, np.arange(1 / grid_size, 1 + 1 / grid_size, 1 / grid_size))],
    each probability given as the rational it denotes. *)
Definition quantile_grid (grid_size : Z) : exn + list Q :=
  match py_truediv 1 grid_size with
  | inl e => inl e
  | inr s =>
      match np_arange s (F64.add (F64.of_Z 1) s) s with
      | inl e => inl e
      | inr a => inr (List.map F64.to_Q (F64.of_Z 0 :: a))
      end
  end.

(** ** [pd.cut(x, bins, include_lowest=True).cat.codes] (lines 35-37) *)

(** [bins.searchsorted(x, side="left")] on increasing [bins]: the number
    of edges below [x]. *)
Definition searchsorted_left (bins : list Q) (x : Q) : Z :=
  Z.of_nat (length (List.filter (λ b, kltb b x) bins)).

(** The code of the interval [(bins[i], bins[i+1]]] that holds [x], the
    first interval closed on the left; [-1] when [x] is in none. *)
Definition cut_code (bins : list Q) (x : Q) : Z :=
  let ids :=
    match bins with
    | b0 :: _ => if keqb x b0 then 1 else searchsorted_left bins x
    | [] => searchsorted_left bins x
    end in
  if (ids =? Z.of_nat (length bins)) || (ids =? 0) then -1 else ids - 1.

Definition cut_codes (bins : list Q) (xs : list Q) : list Z :=
  List.map (cut_code bins) xs.

(** ** The continuous estimator *)

(** [groupby([feature]).Delta.agg(["size", ("eff", "mean")])] (line 48). *)
Definition agg_size_mean (delta_df : list (Q * Q)) : list (row Q) :=
  List.map
    (λ k, let g := group k delta_df in
          Row k (inject_Z (Z.of_nat (length g))) (Qmean g))
    (group_keys delta_df).

(** Line 49: [eff] becomes its running sum over the sorted keys. *)
Definition accumulate (delta_df : list (Q * Q)) : list (row Q) :=
  let res0 := agg_size_mean delta_df in
  with_eff res0 (cumsum (List.map eff res0)).

(** The centering constant (lines 52-54), over the rows in their
    positional order. *)
Definition mean_mv_avg (res_df : list (row Q)) : cell :=
  let e := List.map eff res_df in
  let sz := List.map aux res_df in
  nan_div
    (Qsum (zip_with Qmult (zip_with (λ a b, ((a + b) / 2)%Q) e (shift1 0 e)) sz))
    (Qsum sz).

(** [int(f)] on a float. *)
Definition int_of_float (f : spec_float) : exn + Z :=
  match f with
  | S754_nan => inl "ValueError"
  | S754_infinity _ => inl "OverflowError"
  | _ => inr (py_int (F64.to_Q f))
  end.

(** [int(C * 100)] (lines 62-63); the product is a binary64 product. *)
Definition pct_of (C : spec_float) : exn + Z :=
  int_of_float (F64.mul C (F64.of_Z 100)).

Definition lowerCI_name (pct : Z) : string := "lowerCI_" +:+ pretty pct +:+ "%".
Definition upperCI_name (pct : Z) : string := "upperCI_" +:+ pretty pct +:+ "%".

Section Estimators.
Variable predict : DataFrame → list Q.
Variable quantile_ied : list Q → list Q → list Q.
Variable CI_estimate : list Q → spec_float → cell.
(** [pd.cut] on a single edge depends on the pandas release: up to 1.0 it
    fails while it formats the interval labels ([labels[0]] of an empty
    index, an [IndexError]); later releases put every row outside all
    intervals. The flag selects the former. *)
Variable legacy_cut : bool.

(** [model.predict(df)]: the call is recorded. *)
Definition call_predict (df : DataFrame) : M (list Q) := λ s,
  (inr (predict df), State (heap s) (calls s ++ [df])).
Definition py_predict (r : nat) : M (list Q) := df ← load r; call_predict df.

(** Lines 30-34: the bin edges. An empty column has no minimum (pandas
    gives NaN); a NaN edge is outside this embedding, which stops there. *)
Definition bin_edges (xs quantiles : list Q) : M (list Q) :=
  match kmin xs with
  | None => raise "NaN"
  | Some mn => mret (np_unique (mn :: quantile_ied xs quantiles))
  end.

(** Lines 35-37: the bin code of every row. *)
Definition pd_cut_codes (bins xs : list Q) : M (list Z) :=
  if legacy_cut && (length bins <? 2)%nat then raise "IndexError"
  else mret (cut_codes bins xs).

(** Lines 57-61: the half-width of each group of deltas. *)
Definition ci_est (delta_df : list (Q * Q)) (C : spec_float) : list (Q * cell) :=
  List.map (λ k, (k, CI_estimate (group k delta_df) C)) (group_keys delta_df).

(** Lines 48-68, which are free of effects. [b0] is [min(bins)].
    The Series assigned on line 55 and the ones subtracted and added on
    lines 64-67 are aligned with [res_df] on its (duplicate-free) index:
    each sorted row receives the value computed for its own label, and a
    label without a half-width receives NaN. [ci_est] is sorted as it
    comes out of [groupby], so line 61 changes nothing. *)
Definition continuous_table (delta_df : list (Q * Q)) (b0 : Q)
  (include_CI : bool) (C : spec_float) : exn + frame Q :=
  let res2 := loc_zero b0 (accumulate delta_df) in
  let m := mean_mv_avg res2 in
  let res3 := sort_index res2 in
  let eff_c := List.map (λ r, cell_sub (Some (eff r)) m) res3 in
  let cols := [("size", List.map (λ r, Some (aux r)) res3); ("eff", eff_c)] in
  if include_CI then
    let ci := ci_est delta_df C in
    let hw := List.map (λ r, mjoin (lookup_label (label r) ci)) res3 in
    match pct_of C with
    | inl e => inl e
    | inr pct =>
        let cols := set_column (lowerCI_name pct) (zip_with cell_sub eff_c hw) cols in
        let cols := set_column (upperCI_name pct) (zip_with cell_add eff_c hw) cols in
        inr (Frame (List.map label res3) cols)
    end
  else inr (Frame (List.map label res3) cols).

Definition aleplot_1D_continuous (X : nat) (feature : string)
  (grid_size : Z) (include_CI : bool) (C : spec_float) : M (frame Q) :=
  quantiles ← lift (quantile_grid grid_size);
  dfX ← load X;
  col ← getcol dfX feature;
  let xs := float_values col in
  bins ← bin_edges xs quantiles;
  bin_codes ← pd_cut_codes bins xs;
  X1 ← df_copy X;
  X2 ← df_copy X;
  lo ← np_take bins bin_codes;
  _ ← setcol X1 feature (FloatCol lo);
  hi ← np_take bins (List.map (λ i, i + 1) bin_codes);
  _ ← setcol X2 feature (FloatCol hi);
  y_1 ← py_predict X1;
  y_2 ← py_predict X2;
  keys ← np_take bins (List.map (λ i, i + 1) bin_codes);
  Delta ← np_sub y_2 y_1;
  delta_df ← delta_frame keys Delta;
  b0 ← (match kmin bins with Some b => mret b | None => raise "ValueError" end);
  lift (continuous_table delta_df b0 include_CI C).

(** ** The discrete estimator *)

(** [X.groupby(feature).size()] divided by its total (lines 91-92). *)
Definition groups_props (xs : list Z) : list (Z * Q) :=
  let groups_counts :=
    List.map (λ k, (k, Z.of_nat (length (List.filter (Z.eqb k) xs)))) (np_unique xs) in
  let total := foldr Z.add 0 (List.map snd groups_counts) in
  List.map (λ kc, (fst kc, (inject_Z (snd kc) / inject_Z total)%Q)) groups_counts.

(** The same on a column of floats. *)
Definition float_props (ys : list Q) : list (Q * Q) :=
  let groups_counts :=
    List.map (λ k, (k, Z.of_nat (length (List.filter (keqb k) ys)))) (np_unique ys) in
  let total := foldr Z.add 0 (List.map snd groups_counts) in
  List.map (λ kc, (fst kc, (inject_Z (snd kc) / inject_Z total)%Q)) groups_counts.

(** [groups[idx]] where [idx] is a pandas Series of float dtype (lines 104
    and 106 on a float column). numpy converts an index that is not an
    array of its own; an empty one is cast to integers whatever its dtype,
    and the result is an empty array. Any other index of float dtype is
    refused. *)
Definition np_take_float {A : Type} (a : list A) (idx : list Q) : M (list A) :=
  match idx with
  | [] => mret []
  | _ :: _ => raise "IndexError"
  end.

(** [df.loc[mask, feature] = vals], in place on the object behind [r];
    integers written to a column of floats become floats. *)
Definition loc_assign (r : nat) (mask : list bool) (feature : string)
  (vals : list Z) : M unit :=
  df ← load r;
  col ← getcol df feature;
  store r (<[feature := match col with
                        | IntCol xs => IntCol (mask_assign mask vals xs)
                        | FloatCol ys =>
                            FloatCol (mask_assign mask (List.map inject_Z vals) ys)
                        end]> df).

(** The same with an array of floats on the right-hand side. *)
Definition loc_assign_float (r : nat) (mask : list bool) (feature : string)
  (vals : list Q) : M unit :=
  df ← load r;
  col ← getcol df feature;
  store r (<[feature := FloatCol (mask_assign mask vals (float_values col))]> df).

(** Lines 122-123: the mean delta of every key and its running sum. *)
Definition level_rows (res_df : list (Z * Q)) : list (row Z) :=
  let keys := group_keys res_df in
  let means := List.map (λ k, Qmean (group k res_df)) keys in
  zip_with (λ k me, Row k (fst me) (snd me)) keys (zip means (cumsum means)).

(** Lines 122-127, which are free of effects. *)
Definition discrete_table (res_df : list (Z * Q)) (props : list (Z * Q)) : frame Z :=
  let res2 := sort_index (loc_zero 0 (level_rows res_df)) in
  let c := py_sum (align_mul (List.map (λ r, (label r, eff r)) res2) props) in
  Frame (List.map label res2)
        [("Delta", List.map (λ r, Some (aux r)) res2);
         ("eff", List.map (λ r, cell_sub (Some (eff r)) c) res2)].

(** Lines 122-127 on float keys, as a column of float dtype gives them. *)
Definition float_level_rows (res_df : list (Q * Q)) : list (row Q) :=
  let keys := group_keys res_df in
  let means := List.map (λ k, Qmean (group k res_df)) keys in
  zip_with (λ k me, Row k (fst me) (snd me)) keys (zip means (cumsum means)).

Definition float_table (res_df : list (Q * Q)) (props : list (Q * Q)) : frame Q :=
  let res2 := sort_index (loc_zero 0%Q (float_level_rows res_df)) in
  let c := py_sum (align_mul (List.map (λ r, (label r, eff r)) res2) props) in
  Frame (List.map label res2)
        [("Delta", List.map (λ r, Some (aux r)) res2);
         ("eff", List.map (λ r, cell_sub (Some (eff r)) c) res2)].

(** The table of a column of float dtype with its labels as integers.
    Such a column gets past lines 104 and 106 with empty selections only,
    so its table has no label but the anchor [0.0]. *)
Definition int_labels (f : frame Q) : frame Z :=
  Frame (List.map Qfloor (index f)) (columns f).

(** The source indexes [groups] with the feature values themselves
    (lines 104 and 106). On a column of integer dtype this is numpy's
    indexing with an integer array. On a column of float dtype the index
    is accepted only when no row is selected, that is when the column has
    a single distinct value; the run then goes on as on an integer column
    with a single level. *)
Definition aleplot_1D_discrete (X : nat) (feature : string) : M (frame Z) :=
  dfX ← load X;
  col ← getcol dfX feature;
  X_plus ← df_copy X;
  X_neg ← df_copy X;
  match col with
  | IntCol xs =>
      let groups := np_unique xs in
      let props := groups_props xs in
      let K := Z.of_nat (length groups) in
      gmax ← np_getitem groups (K - 1);
      let ind_plus := List.map (λ x, x <? gmax) xs in
      gmin ← np_getitem groups 0;
      let ind_neg := List.map (λ x, gmin <? x) xs in
      up ← np_take groups (List.map (λ x, x + 1) (mask_select ind_plus xs));
      _ ← loc_assign X_plus ind_plus feature up;
      down ← np_take groups (List.map (λ x, x - 1) (mask_select ind_neg xs));
      _ ← loc_assign X_neg ind_neg feature down;
      y_hat ← py_predict X;
      df_plus ← load X_plus;
      y_hat_plus ← call_predict (select_rows ind_plus df_plus);
      df_neg ← load X_neg;
      y_hat_neg ← call_predict (select_rows ind_neg df_neg);
      y_p ← np_mask y_hat ind_plus;
      Delta_plus ← np_sub y_hat_plus y_p;
      y_n ← np_mask y_hat ind_neg;
      Delta_neg ← np_sub y_n y_hat_neg;
      fwd ← delta_frame (List.map (λ x, x + 1) (mask_select ind_plus xs)) Delta_plus;
      bwd ← delta_frame (mask_select ind_neg xs) Delta_neg;
      mret (discrete_table (fwd ++ bwd) props)
  | FloatCol ys =>
      let groups := np_unique ys in
      let props := float_props ys in
      let K := Z.of_nat (length groups) in
      gmax ← np_getitem groups (K - 1);
      let ind_plus := List.map (λ y, kltb y gmax) ys in
      gmin ← np_getitem groups 0;
      let ind_neg := List.map (λ y, kltb gmin y) ys in
      up ← np_take_float groups (List.map (λ y, (y + 1)%Q) (mask_select ind_plus ys));
      _ ← loc_assign_float X_plus ind_plus feature up;
      down ← np_take_float groups (List.map (λ y, (y - 1)%Q) (mask_select ind_neg ys));
      _ ← loc_assign_float X_neg ind_neg feature down;
      y_hat ← py_predict X;
      df_plus ← load X_plus;
      y_hat_plus ← call_predict (select_rows ind_plus df_plus);
      df_neg ← load X_neg;
      y_hat_neg ← call_predict (select_rows ind_neg df_neg);
      y_p ← np_mask y_hat ind_plus;
      Delta_plus ← np_sub y_hat_plus y_p;
      y_n ← np_mask y_hat ind_neg;
      Delta_neg ← np_sub y_n y_hat_neg;
      fwd ← delta_frame (List.map (λ y, (y + 1)%Q) (mask_select ind_plus ys)) Delta_plus;
      bwd ← delta_frame (mask_select ind_neg ys) Delta_neg;
      mret (int_labels (float_table (fwd ++ bwd) props))
  end.
End Estimators.

(** ** Collaborators used to run the estimators on concrete tables *)

Module Demo.
(** A quantile provider: the inverse of the empirical distribution
    function (R's type 1), the order statistic of rank [ceil(n * p)]. *)
Definition sort_values (xs : list Q) : list Q :=
  List.map label (sort_index (List.map (λ x, Row x 0 0) xs)).
Definition inv_ecdf (xs probs : list Q) : list Q :=
  let sorted := sort_values xs in
  let n := Z.of_nat (length xs) in
  List.map
    (λ p, let j := Z.min (n - 1) (Z.max 0 (Qceiling (inject_Z n * p) - 1)) in
          nth (Z.to_nat j) sorted 0%Q)
    probs.

(** A provider of half-widths: half the range of the sample, undefined
    below two observations. *)
Definition half_range (xs : list Q) (C : spec_float) : cell :=
  match xs with
  | x :: _ :: _ =>
      let lo := foldl (λ m y, if kltb y m then y else m) x xs in
      let hi := foldl (λ m y, if kltb m y then y else m) x xs in
      Some ((hi - lo) / 2)%Q
  | _ => None
  end.

(** A model that reads columns ["x"] and ["z"]: [x * x + z] on every row
    (a missing [z] counts as 0). *)
Definition square_model (df : DataFrame) : list Q :=
  match df !! "x" with
  | Some c =>
      let zs := from_option float_values [] (df !! "z") in
      imap (λ i x, (x * x + nth i zs 0)%Q) (float_values c)
  | None => []
  end.

(** A model whose prediction is the same on every row of every table. *)
Definition constant_model (df : DataFrame) : list Q :=
  match df !! "x" with
  | Some c => List.map (λ _, (7 # 2)%Q) (float_values c)
  | None => []
  end.

Definition C95 : spec_float := F64.div (F64.of_Z 95) (F64.of_Z 100).

Definition table_cont : DataFrame :=
  {[ "x" := FloatCol [1; 3; 2; 5; 4; 2]%Q; "z" := IntCol [0; 1; 0; 1; 0; 1] ]}.
Definition table_const : DataFrame :=
  {[ "x" := FloatCol [5; 5; 5]%Q; "z" := IntCol [0; 1; 0] ]}.
Definition table_disc : DataFrame :=
  {[ "x" := IntCol [0; 2; 1; 1; 2; 0; 1]; "z" := IntCol [4; 5; 6; 7; 8; 9; 1] ]}.
Definition table_gap : DataFrame :=
  {[ "x" := IntCol [0; 2]; "z" := IntCol [4; 5] ]}.
Definition table_single : DataFrame :=
  {[ "x" := IntCol [3; 3]; "z" := IntCol [4; 5] ]}.

Definition init (df : DataFrame) : state := State [df] [].

(** The probabilities of a grid of 4 and the edges they give on the
    first table. *)
Definition grid4 : list Q :=
  Eval vm_compute in match quantile_grid 4 with inr q => q | inl _ => [] end.
Definition xs_cont : list Q := [1; 3; 2; 5; 4; 2]%Q.
Definition bins_cont : list Q :=
  Eval vm_compute in np_unique (1%Q :: inv_ecdf xs_cont grid4).
Definition xs_const : list Q := [5; 5; 5]%Q.
Definition bins_const : list Q :=
  Eval vm_compute in np_unique (5%Q :: inv_ecdf xs_const grid4).
Definition xs_disc : list Z := [0; 2; 1; 1; 2; 0; 1].

(** A delta table with keys above the anchor label 1. *)
Definition deltas : list (Q * Q) := [(2, 1 # 2); (4, 3); (2, 1); (5, 2)]%Q.
End Demo.


(** ** The plots (lines 130-205) *)

(** What a plot function puts on the axes, in the order of its calls:
    [ax.plot] of a column against the index, [ax.plot] of marks,
    [ax.fill_between], [ax.bar], [ax.legend] and the three captions. *)
Inductive artist : Type :=
  | Line (x : list Q) (y : list cell)
  | Marks (x y : list cell)
  | Band (x : list Q) (lower upper : list cell) (text : string)
  | Bars (x : list Z) (height : list cell)
  | Legend
  | XLabel (text : string)
  | YLabel (text : string)
  | Title (text : string).

(** [pat in s] for a pattern without regular-expression characters, as
    [str.contains] finds it. *)
Fixpoint str_prefix (pat s : string) : bool :=
  match pat with
  | EmptyString => true
  | String a p =>
      match s with
      | EmptyString => false
      | String b t => Ascii.eqb a b && str_prefix p t
      end
  end.
Fixpoint str_contains (pat s : string) : bool :=
  str_prefix pat s ||
  match s with
  | EmptyString => false
  | String _ t => str_contains pat t
  end.

(** The character ["_"]. *)
Definition underscore : Ascii.ascii := Eval vm_compute in Ascii.ascii_of_nat 95.

(** [s.split(sep)] for a separator of one character. *)
Fixpoint str_split (sep : Ascii.ascii) (s : string) : list string :=
  match s with
  | EmptyString => [EmptyString]
  | String c t =>
      if Ascii.eqb c sep then EmptyString :: str_split sep t
      else match str_split sep t with
           | h :: r => String c h :: r
           | [] => [String c EmptyString]
           end
  end.

(** The float [0.3] of line 143, as the rational it denotes. *)
Definition jitter_factor : Q :=
  Eval vm_compute in F64.to_Q (F64.div (F64.of_Z 3) (F64.of_Z 10)).

(** Line 143: the distance of every index label to the one before it,
    times [0.3]; the first entry is NaN. *)
Definition jitter_max_step_per_bin (idx : list Q) : list cell :=
  zip_with (λ b prev, (λ a, (b - a) * jitter_factor)%Q <$> prev) idx (None :: List.map Some idx).

(** A list of edges increases strictly; it never decreases. *)
Fixpoint increasing (l : list Q) : bool :=
  match l with
  | x :: ((y :: _) as t) => kltb x y && increasing t
  | _ => true
  end.

Fixpoint nondecreasing (l : list Q) : bool :=
  match l with
  | x :: ((y :: _) as t) => negb (kltb y x) && nondecreasing t
  | _ => true
  end.

(** [pd.cut(x, bins, include_lowest=True).cat.codes] on a list of edges
    that need not come from [np.unique]: decreasing edges are refused, and
    so are repeated ones unless there are exactly two edges; no edge at
    all fails when the first one is read. A single edge is treated as the
    release of pandas has it (see [pd_cut_codes]). *)
Definition pd_cut (legacy_cut : bool) (bins xs : list Q) : M (list Z) :=
  if negb (nondecreasing bins) then raise "ValueError"
  else if negb (increasing bins) && negb (length bins =? 2)%nat then raise "ValueError"
  else if (length bins =? 0)%nat then raise "IndexError"
  else if legacy_cut && (length bins <? 2)%nat then raise "IndexError"
  else mret (cut_codes bins xs).

(** [min()] of a column and of a table, NaN being skipped. *)
Definition nanmin (l : list cell) : cell :=
  foldl (λ m c, match m, c with
                | Some a, Some b => Some (if kltb b a then b else a)
                | None, _ => c
                | _, None => m
                end) None l.

Definition has_column (name : string) (cols : list (string * list cell)) : bool :=
  existsb (λ c, String.eqb (fst c) name) cols.

(** [df.drop(name, axis=1)]. *)
Definition drop_column (name : string) (cols : list (string * list cell))
  : list (string * list cell) :=
  List.filter (λ c, negb (String.eqb (fst c) name)) cols.

(** [res_df[name]]. *)
Definition frame_column (name : string) (cols : list (string * list cell))
  : M (list cell) :=
  match get_column name cols with
  | Some v => mret v
  | None => raise "KeyError"
  end.

(** Lines 168-180: with exactly one column whose name contains
    ["lowerCI"] and exactly one whose name contains ["upperCI"], the band
    between them is filled and a legend is shown; its text is the part of
    the first name that follows the first ["_"]. *)
Definition confidence_band (res_df : frame Q) : exn + list artist :=
  let lowerCI_name :=
    List.filter (str_contains "lowerCI") (List.map fst (columns res_df)) in
  let upperCI_name :=
    List.filter (str_contains "upperCI") (List.map fst (columns res_df)) in
  match lowerCI_name, upperCI_name with
  | [lo], [up] =>
      match str_split underscore lo with
      | _ :: level :: _ =>
          match get_column lo (columns res_df), get_column up (columns res_df) with
          | Some y1, Some y2 =>
              inr [Band (index res_df) y1 y2 (level +:+ " confidence interval"); Legend]
          | _, _ => inl "KeyError"
          end
      | _ => inl "IndexError"
      end
  | _, _ => inr []
  end.

Section Plots.
(** [random i] is the [i]-th number that [random.random()] returns after
    [random.seed(123)]. *)
Variable random : nat → Q.
Variable legacy_cut : bool.

(** [random.uniform(a, b)], which is [a + (b - a) * random()]. *)
Definition uniform (i : nat) (a b : cell) : cell :=
  match a, b with
  | Some a, Some b => Some (a + (b - a) * random i)%Q
  | _, _ => None
  end.

(** Lines 153-154: every value of the feature moved by a random amount
    within its jitter step. *)
Definition jitter (rug : list Q) (jitter_max_step : list cell) : list cell :=
  imap (λ i xy, cell_add (Some (fst xy))
                  (uniform i (cell_sub (Some 0%Q) (snd xy)) (snd xy)))
       (zip rug jitter_max_step).

(** Lines 156-157: without a figure and without axes, new ones are made. *)
Definition subplots (fig : bool) (ax : option (list artist))
  : bool * option (list artist) :=
  match fig, ax with
  | false, None => (true, Some [])
  | _, _ => (fig, ax)
  end.

(** Lines 130-184. [feature_name] is [res_df.index.name]; [fig] tells
    whether a figure is passed, [ax] holds what is on the axes passed;
    the result is what is on the axes returned. The marks are drawn with
    an offset in points, for which matplotlib demands a figure. *)
Definition plot_1D_continuous_eff (feature_name : string) (res_df : frame Q)
  (X : nat) (fig : bool) (ax : option (list artist)) : M (list artist) :=
  dfX ← load X;
  col ← getcol dfX feature_name;
  let rug := float_values col in
  codes ← pd_cut legacy_cut (index res_df) rug;
  jitter_max_step ← np_take (jitter_max_step_per_bin (index res_df))
                       (List.map (λ i, i + 1) codes);
  let rug := jitter rug jitter_max_step in
  let '(fig, ax) := subplots fig ax in
  ax ← (match ax with Some a => mret a | None => raise "AttributeError" end);
  eff ← frame_column "eff" (columns res_df);
  let ax := ax ++ [Line (index res_df) eff] in
  _ ← (if fig then mret tt else raise "ValueError");
  _ ← (if has_column "size" (columns res_df) then mret tt else raise "KeyError");
  let lowest :=
    nanmin (List.map (λ c, nanmin (snd c)) (drop_column "size" (columns res_df))) in
  let ax := ax ++ [Marks rug (replicate (length rug) lowest)] in
  band ← lift (confidence_band res_df);
  mret (ax ++ band ++
        [XLabel feature_name;
         YLabel "Effect on prediction (centered)";
         Title "1D ALE Plot - Continuous"]).

(** Lines 187-205. *)
Definition plot_1D_discrete_eff (feature_name : string) (res_df : frame Z)
  (X : nat) (fig : bool) (ax : option (list artist)) : M (list artist) :=
  let '(fig, ax) := subplots fig ax in
  ax ← (match ax with Some a => mret a | None => raise "AttributeError" end);
  eff ← frame_column "eff" (columns res_df);
  mret (ax ++ [Bars (index res_df) eff;
               XLabel feature_name;
               YLabel "Effect on prediction (centered)";
               Title "1D ALE Plot - Discrete/Categorical"]).
End Plots.

(** Every character of a string satisfies a test; a character occurs in
    a string. *)
Fixpoint str_all (P : Ascii.ascii → bool) (s : string) : bool :=
  match s with
  | EmptyString => true
  | String c t => P c && str_all P t
  end.
Fixpoint str_mem (c : Ascii.ascii) (s : string) : bool :=
  match s with
  | EmptyString => false
  | String a t => Ascii.eqb c a || str_mem c t
  end.

(** A table and random numbers to run the plots on. *)
Module DemoPlot.
Definition res_df : frame Q :=
  Frame [1; 2; 4]%Q
        [("size", [Some 0; Some 3; Some 2]%Q); ("eff", [Some (-1); Some 0; Some 1]%Q)].
Definition half (i : nat) : Q := 1 # 2.
End DemoPlot.


(** ** Definitions used to state the properties *)

(** Equality of cells: both undefined, or equal rationals. *)
Definition cell_eq (a b : cell) : Prop :=
  match a, b with
  | Some x, Some y => (x == y)%Q
  | None, None => True
  | _, _ => False
  end.

(** The array entry at [i], for [i] within bounds (cf. [np_getitem]). *)
Definition np_at (a : list Q) (i : Z) : Q :=
  nth (Z.to_nat (if i <? 0 then i + Z.of_nat (length a) else i)) a 0%Q.

(** The centering constant as the specification words it: over the rows
    in ascending key order, every adjacent pair of rows contributes the
    mean of its two [eff] values, weighted by the [size] of the later row;
    the constant is the weighted mean of these values. *)
Fixpoint mv_pairs (sizes effs : list Q) : list (Q * Q) :=
  match sizes, effs with
  | _ :: ((w :: _) as st), a :: ((b :: _) as et) =>
      (w, ((a + b) / 2)%Q) :: mv_pairs st et
  | _, _ => []
  end.
Definition mv_weighted_mean (sizes effs : list Q) : cell :=
  let p := mv_pairs sizes effs in
  nan_div (Qsum (List.map (λ wv, (fst wv * snd wv)%Q) p)) (Qsum (List.map fst p)).

(** The mean of [v] weighted by proportions [w]. *)
Definition weighted_sum (w v : list Q) : Q := Qsum (zip_with Qmult w v).

(** The next-higher and the next-lower level of [x] among sorted levels. *)
Definition next_level (groups : list Z) (x : Z) : option Z :=
  head (List.filter (λ g, x <? g) groups).
Definition prev_level (groups : list Z) (x : Z) : option Z :=
  last (List.filter (λ g, g <? x) groups).

(** A run that fails with exception [e] before any call of the model. *)
Definition fails_before_predict {A : Type} (e : exn) (m : M A) (s : state) : Prop :=
  fst (m s) = inl e ∧ calls (snd (m s)) = calls s.

(** The two perturbed tables of the continuous estimator and its delta
    table (lines 42-47), as functions of the bin edges. *)
Definition upper_keys (bins xs : list Q) : list Q :=
  List.map (np_at bins) (List.map (λ i, i + 1) (cut_codes bins xs)).
Definition lower_table (dfX : DataFrame) (feature : string) (bins xs : list Q)
  : DataFrame :=
  <[feature := FloatCol (List.map (np_at bins) (cut_codes bins xs))]> dfX.
Definition upper_table (dfX : DataFrame) (feature : string) (bins xs : list Q)
  : DataFrame :=
  <[feature := FloatCol (upper_keys bins xs)]> dfX.
Definition delta_table (predict : DataFrame → list Q) (dfX : DataFrame)
  (feature : string) (bins xs : list Q) : list (Q * Q) :=
  zip (upper_keys bins xs)
      (zip_with Qminus (predict (upper_table dfX feature bins xs))
                       (predict (lower_table dfX feature bins xs))).

(** The model returns one prediction per row of the table it is given. *)
Definition model_contract (predict : DataFrame → list Q) (feature : string) : Prop :=
  ∀ df c, df !! feature = Some c → length (predict df) = col_length c.

(** An input of the continuous estimator: the caller's table [dfX] behind
    the reference [X] has a non-empty column [feature] with values [xs],
    and line 30 to 34 produce the edges [bins]. *)
Definition continuous_input (quantile_ied : list Q → list Q → list Q)
  (s : state) (X : nat) (feature : string) (grid_size : Z)
  (dfX : DataFrame) (xs bins : list Q) : Prop :=
  ∃ col qs mn,
    heap s !! X = Some dfX ∧ dfX !! feature = Some col ∧
    xs = float_values col ∧ quantile_grid grid_size = inr qs ∧
    kmin xs = Some mn ∧ bins = np_unique (mn :: quantile_ied xs qs).

(** An input of the discrete estimator: the column [feature] of the
    caller's table is of integer dtype with values [xs]. *)
Definition discrete_input (s : state) (X : nat) (feature : string)
  (dfX : DataFrame) (xs : list Z) : Prop :=
  heap s !! X = Some dfX ∧ dfX !! feature = Some (IntCol xs).

(** The levels of the feature are the integer codes [0, ..., K-1]. *)
Definition coded_levels (xs : list Z) (K : nat) : Prop :=
  np_unique xs = List.map Z.of_nat (seq 0 K).

(** The model predicts one and the same value on every row of every table. *)
Definition constant_model (predict : DataFrame → list Q) : Prop :=
  ∃ c : Q, ∀ df y, In y (predict df) → y = c.

(** The provider of half-widths returns a non-negative number on every
    sample of at least two observations. *)
Definition ci_contract (CI_estimate : list Q → spec_float → cell) (C : spec_float)
  : Prop :=
  ∀ l, (2 ≤ length l)%nat → ∃ hw, CI_estimate l C = Some hw ∧ (0 <= hw)%Q.

(** The [eff] column of a table of the continuous estimator has
    size-weighted mean zero, in the moving-average weighting. *)
Definition zero_mean_continuous (f : frame Q) : Prop :=
  ∃ sizes effs mu,
    get_column "size" (columns f) = Some (List.map Some sizes) ∧
    get_column "eff" (columns f) = Some (List.map Some effs) ∧
    mv_weighted_mean sizes effs = Some mu ∧ (mu == 0)%Q.

(** The [eff] column of a table of the discrete estimator has mean zero
    under the level proportions [props] (one per index label). *)
Definition zero_mean_discrete (props : list (Z * Q)) (f : frame Z) : Prop :=
  ∃ effs,
    index f = List.map fst props ∧
    get_column "eff" (columns f) = Some (List.map Some effs) ∧
    (weighted_sum (List.map snd props) effs == 0)%Q.

(** Every [eff] of a table is zero. *)
Definition all_eff_zero {K : Type} (f : frame K) : Prop :=
  ∃ effs,
    get_column "eff" (columns f) = Some (List.map Some effs) ∧
    Forall (λ e, (e == 0)%Q) effs.

(** The confidence columns of a table: for every row of size at least 2,
    with [hw] the half-width of the deltas of its bin, the lower and the
    upper bound are [eff - hw] and [eff + hw] and enclose [eff]; the
    columns are named after the integer percentage [pct]. *)
Definition ci_ordered (CI_estimate : list Q → spec_float → cell)
  (delta_df : list (Q * Q)) (C : spec_float) (pct : Z) (f : frame Q) : Prop :=
  ∃ sizes effs lows ups,
    get_column "size" (columns f) = Some sizes ∧
    get_column "eff" (columns f) = Some effs ∧
    get_column ("lowerCI_" +:+ pretty pct +:+ "%") (columns f) = Some lows ∧
    get_column ("upperCI_" +:+ pretty pct +:+ "%") (columns f) = Some ups ∧
    ∀ i n, sizes !! i = Some (Some n) → (2 <= n)%Q →
      ∃ k e hw,
        index f !! i = Some k ∧ effs !! i = Some (Some e) ∧
        CI_estimate (group k delta_df) C = Some hw ∧
        lows !! i = Some (Some (e - hw)%Q) ∧
        ups !! i = Some (Some (e + hw)%Q) ∧
        (e - hw <= e)%Q ∧ (e <= e + hw)%Q.

(** The confidence columns cover every bin. The four columns have one
    cell per index label, and every key [k] of the delta table with at
    least two deltas has a row in the table: its label is [k], its [eff]
    is a number [e], the provider gives a half-width [hw] for the deltas
    of [k], and the row holds [e - hw] and [e + hw] as its bounds, which
    enclose [e]. A key above the anchor label [b0] is the upper edge of a
    bin, and the [size] of its row is the number of its deltas. *)
Definition ci_rows (CI_estimate : list Q → spec_float → cell)
  (delta_df : list (Q * Q)) (b0 : Q) (C : spec_float) (pct : Z) (f : frame Q) : Prop :=
  ∃ sizes effs lows ups,
    get_column "size" (columns f) = Some sizes ∧
    get_column "eff" (columns f) = Some effs ∧
    get_column ("lowerCI_" +:+ pretty pct +:+ "%") (columns f) = Some lows ∧
    get_column ("upperCI_" +:+ pretty pct +:+ "%") (columns f) = Some ups ∧
    length sizes = length (index f) ∧ length effs = length (index f) ∧
    length lows = length (index f) ∧ length ups = length (index f) ∧
    ∀ k, In k (group_keys delta_df) → (2 ≤ length (group k delta_df))%nat →
      ∃ i e hw,
        index f !! i = Some k ∧
        ((b0 < k)%Q →
         sizes !! i = Some (Some (inject_Z (Z.of_nat (length (group k delta_df)))))) ∧
        effs !! i = Some (Some e) ∧
        CI_estimate (group k delta_df) C = Some hw ∧
        lows !! i = Some (Some (e - hw)%Q) ∧
        ups !! i = Some (Some (e + hw)%Q) ∧
        (e - hw <= e)%Q ∧ (e <= e + hw)%Q.

(** The confidence level of [k] percent as Python reads the literal
    [k/100]: the binary64 number nearest to it. *)
Definition whole_percent (k : Z) : spec_float := F64.div (F64.of_Z k) (F64.of_Z 100).

(** The whole percentages whose product with 100 falls below the integer
    in binary64, so that [int] gives one less. *)
Definition truncated_levels : list Z := [29; 57; 58].

(** The perturbed tables and the delta table of the discrete estimator
    as the specification describes them: the rows whose value is not the
    maximum (minimum) level, with the feature replaced by the next-higher
    (next-lower) level; forward deltas keyed by the value plus one,
    backward deltas keyed by the value itself. *)
Definition max_level (xs : list Z) : Z := default 0 (last (np_unique xs)).
Definition min_level (xs : list Z) : Z := default 0 (head (np_unique xs)).
Definition not_max (xs : list Z) : list bool :=
  List.map (λ x, negb (x =? max_level xs)) xs.
Definition not_min (xs : list Z) : list bool :=
  List.map (λ x, negb (x =? min_level xs)) xs.
Definition stated_plus (dfX : DataFrame) (feature : string) (xs : list Z) : DataFrame :=
  <[feature := IntCol (List.map (λ x, default x (next_level (np_unique xs) x))
                         (mask_select (not_max xs) xs))]>
    (select_rows (not_max xs) dfX).
Definition stated_neg (dfX : DataFrame) (feature : string) (xs : list Z) : DataFrame :=
  <[feature := IntCol (List.map (λ x, default x (prev_level (np_unique xs) x))
                         (mask_select (not_min xs) xs))]>
    (select_rows (not_min xs) dfX).
Definition stated_deltas (predict : DataFrame → list Q) (dfX : DataFrame)
  (feature : string) (xs : list Z) : list (Z * Q) :=
  let y_hat := predict dfX in
  zip (List.map (λ x, x + 1) (mask_select (not_max xs) xs))
      (zip_with Qminus (predict (stated_plus dfX feature xs))
                       (mask_select (not_max xs) y_hat)) ++
  zip (mask_select (not_min xs) xs)
      (zip_with Qminus (mask_select (not_min xs) y_hat)
                       (predict (stated_neg dfX feature xs))).

(** The run of the discrete estimator perturbs, predicts and keys the
    deltas as the specification describes. *)
Definition perturbation_claim (predict : DataFrame → list Q) (s : state)
  (X : nat) (feature : string) (dfX : DataFrame) (xs : list Z) : Prop :=
  ∃ f s',
    aleplot_1D_discrete predict X feature s = (inr f, s') ∧
    calls s' = calls s ++ [dfX; stated_plus dfX feature xs; stated_neg dfX feature xs] ∧
    f = discrete_table (stated_deltas predict dfX feature xs) (groups_props xs).

(** The objects that existed in state [s0] are unchanged in state [s]. *)
Definition heap_extends (s0 s : state) : Prop :=
  ∃ fresh, heap s = heap s0 ++ fresh.

(** A computation that keeps the objects of [s0] unchanged and whose
    result, when it returns one, satisfies [Q]. *)
Definition keeps {A : Type} (s0 : state) (m : M A) (Q : A → Prop) : Prop :=
  ∀ s r s', heap_extends s0 s → m s = (r, s') →
    heap_extends s0 s' ∧ ∀ a, r = inr a → Q a.

(** A reference to an object allocated after [s0]. *)
Definition fresh_ref (s0 : state) (r : nat) : Prop := (length (heap s0) ≤ r)%nat.

(** The summands of the centering constant of the source, row by row:
    [prev] is the [eff] of the row before (the fill value for the first). *)
Fixpoint mv_terms (prev : Q) (l : list (row Q)) : list Q :=
  match l with
  | [] => []
  | r :: t => ((eff r + prev) / 2 * aux r)%Q :: mv_terms (eff r) t
  end.

(** ** Definitions used to state further properties *)

(** The grid sizes up to 300 for which line 30 yields one probability
    more than [grid_size + 1]. *)
Definition overshooting : list Z := [49; 103; 196; 206; 214; 237; 239; 249; 253].

(** The shape of the probabilities of a grid, as a decidable check: they
    start at 0, increase strictly, number [g + 1] (one more for the sizes
    listed above), and the entry at position [g] is within [2^-52] of 1. *)
Definition grid_shape (g : Z) (qs : list Q) : bool :=
  match qs with
  | q0 :: _ => Qeq_bool q0 0
  | [] => false
  end
  && increasing qs
  && (Z.of_nat (length qs) =? (if existsb (Z.eqb g) overshooting then g + 2 else g + 1))
  && Qle_bool (1 - (1 # 4503599627370496)) (nth (Z.to_nat g) qs 0%Q)
  && Qle_bool (nth (Z.to_nat g) qs 0%Q) (1 + (1 # 4503599627370496)).

Definition grid_check (g : Z) : bool :=
  match quantile_grid g with
  | inr qs => grid_shape g qs
  | inl _ => false
  end.

(** The positions that numpy accepts for an array: negative ones count
    from the end. *)
Definition in_bounds {A : Type} (a : list A) (i : Z) : Prop :=
  - Z.of_nat (length a) ≤ i < Z.of_nat (length a).

(** The positions that lines 104 and 106 read are positions of [groups]:
    [value + 1] for every value below the largest level, [value - 1] for
    every value above the smallest one. *)
Definition levels_in_bounds (xs : list Z) : Prop :=
  ∀ x, In x xs →
    (x < max_level xs → in_bounds (np_unique xs) (x + 1)) ∧
    (min_level xs < x → in_bounds (np_unique xs) (x - 1)).

(** No value of the column exceeds the last edge. *)
Definition within_grid (bins xs : list Q) : Prop :=
  ∃ bl, last bins = Some bl ∧ Forall (λ x, (x <= bl)%Q) xs.

(** The upper edge of the bin of [x], the key of its delta (line 47), and
    the number of values of a column whose bin has the upper edge [k]. *)
Definition upper_edge (bins : list Q) (x : Q) : Q := np_at bins (cut_code bins x + 1).
Definition rows_in_bin (bins xs : list Q) (k : Q) : nat :=
  length (List.filter (λ x, keqb k (upper_edge bins x)) xs).

(** The mean delta of every key of a delta table. *)
Definition mean_deltas `{Key K} (d : list (K * Q)) (keys : list K) : list Q :=
  List.map (λ k, Qmean (group k d)) keys.

(** A column of effects: the running sums of [means] behind a leading 0,
    all shifted by the constant [c]. *)
Definition accumulated (c : Q) (means : list Q) : list cell :=
  List.map (λ e, Some (e - c)%Q) (0%Q :: cumsum means).

(** A computation that calls the model at most [n] times, however it ends. *)
Definition calls_at_most {A : Type} (n : nat) (m : M A) : Prop :=
  ∀ s, ∃ l, calls (snd (m s)) = calls s ++ l ∧ (length l ≤ n)%nat.

(** The model with a constant added to each of its predictions. *)
Definition shifted (c : Q) (predict : DataFrame → list Q) : DataFrame → list Q :=
  λ df, List.map (λ y, (y + c)%Q) (predict df).

(** Two delta tables with the same keys and, row by row, equal deltas. *)
Definition same_deltas {K : Type} (d d' : list (K * Q)) : Prop :=
  Forall2 (λ a b, fst a = fst b ∧ (snd a == snd b)%Q) d d'.

(** Two rows with the same label and equal values. *)
Definition row_eq {K : Type} (r r' : row K) : Prop :=
  label r = label r' ∧ (aux r == aux r')%Q ∧ (eff r == eff r')%Q.

(** Two result tables with the same index and the same column names,
    whose cells are equal one by one. *)
Definition same_table {K : Type} (f f' : frame K) : Prop :=
  index f = index f' ∧
  Forall2 (λ c c', fst c = fst c' ∧ Forall2 cell_eq (snd c) (snd c'))
    (columns f) (columns f').

(** A provider of half-widths that gives equal results on equal samples. *)
Definition ci_respects (CI_estimate : list Q → spec_float → cell) (C : spec_float)
  : Prop :=
  ∀ l l', Forall2 Qeq l l' → cell_eq (CI_estimate l C) (CI_estimate l' C).

(** * Properties *)

(** ** Facts about keys, [np.unique] and [sort_index] *)

Section KeyFacts.
Context `{Key K}.
Implicit Types (x y z : K) (l : list K).

Lemma keqb_true x y : keqb x y = true ↔ keq x y.
Proof. unfold keqb, keq. destruct (kcmp x y); split; congruence. Qed.

Lemma keqb_false x y : keqb x y = false ↔ ¬ keq x y.
Proof. unfold keqb, keq. destruct (kcmp x y); split; congruence. Qed.

Lemma kltb_true x y : kltb x y = true ↔ klt x y.
Proof. unfold kltb, klt. destruct (kcmp x y); split; congruence. Qed.

Lemma keq_refl x : keq x x.
Proof. apply kcmp_refl. Qed.

Lemma keq_sym x y : keq x y → keq y x.
Proof. unfold keq. intros E. by rewrite kcmp_antisym, E. Qed.

Lemma keq_trans x y z : keq x y → keq y z → keq x z.
Proof. unfold keq. intros E1 E2. by rewrite (kcmp_eq_l _ _ _ E1). Qed.

Lemma kcmp_Gt x y : kcmp x y = Gt ↔ klt y x.
Proof.
  unfold klt. rewrite (kcmp_antisym x y).
  destruct (kcmp x y); simpl; split; congruence.
Qed.

Lemma klt_irrefl x : ¬ klt x x.
Proof. unfold klt. by rewrite kcmp_refl. Qed.

Lemma klt_not_keq x y : klt x y → ¬ keq x y.
Proof. unfold klt, keq. congruence. Qed.

Lemma klt_asym x y : klt x y → ¬ klt y x.
Proof. intros L1 L2. apply (klt_irrefl x). eapply kcmp_lt_trans; eauto. Qed.

Lemma klt_keq_l x y z : keq x y → klt x z → klt y z.
Proof. unfold keq, klt. intros E. by rewrite (kcmp_eq_l _ _ _ E). Qed.

Lemma klt_keq_r x y z : keq y z → klt x y → klt x z.
Proof.
  intros E L. apply kcmp_Gt. apply kcmp_Gt in L. unfold keq in E.
  by rewrite <- (kcmp_eq_l _ _ _ E).
Qed.

Lemma uinsert_In x y l : In y (uinsert x l) → y = x ∨ In y l.
Proof.
  induction l as [|a l IH]; simpl.
  - intros [->|[]]. by left.
  - destruct (kcmp x a); simpl; intros Hin.
    + by right.
    + destruct Hin as [->|Hin]; [by left | by right].
    + destruct Hin as [->|Hin]; [right; by left|].
      destruct (IH Hin) as [->|?]; [by left | right; by right].
Qed.

Lemma uinsert_Forall (P : K → Prop) x l :
  P x → Forall P l → Forall P (uinsert x l).
Proof.
  intros Hx Hl. apply Forall_forall. intros y Hy%list_elem_of_In.
  destruct (uinsert_In _ _ _ Hy) as [->|Hin]; [done|].
  rewrite Forall_forall in Hl. by apply Hl, list_elem_of_In.
Qed.

Lemma uinsert_sorted x l :
  StronglySorted klt l → StronglySorted klt (uinsert x l).
Proof.
  induction 1 as [|a l Hs IH Ha]; simpl.
  - repeat constructor.
  - destruct (kcmp x a) eqn:E.
    + by constructor.
    + constructor; [by constructor|].
      constructor; [done|].
      eapply Forall_impl; [exact Ha|]. intros b Hb; simpl in *.
      eapply kcmp_lt_trans; eauto.
    + constructor; [done|].
      apply uinsert_Forall; [by apply kcmp_Gt | done].
Qed.

Lemma uinsert_Exists x z l :
  Exists (keq z) (uinsert x l) ↔ keq z x ∨ Exists (keq z) l.
Proof.
  induction l as [|a l IH]; simpl.
  - rewrite Exists_cons, !Exists_nil. tauto.
  - destruct (kcmp x a) eqn:E.
    + rewrite Exists_cons. split; [tauto|].
      intros [Hz|Hz]; [|done]. left. eapply keq_trans; eauto.
    + rewrite Exists_cons. tauto.
    + rewrite !Exists_cons, IH. tauto.
Qed.

Lemma np_unique_sorted l : StronglySorted klt (np_unique l).
Proof.
  induction l; simpl; [constructor | by apply uinsert_sorted].
Qed.

Lemma np_unique_Exists z l : Exists (keq z) (np_unique l) ↔ Exists (keq z) l.
Proof.
  induction l as [|a l IH]; simpl; [done|].
  by rewrite uinsert_Exists, Exists_cons, IH.
Qed.

Lemma np_unique_In y l : In y (np_unique l) → In y l.
Proof.
  induction l as [|a l IH]; simpl; [done|].
  intros Hin. destruct (uinsert_In _ _ _ Hin) as [->|?]; auto.
Qed.

Lemma np_unique_nonempty x l : np_unique (x :: l) ≠ [].
Proof.
  simpl. generalize (np_unique l). intros [|a t]; simpl; [done|].
  by destruct (kcmp x a).
Qed.

Lemma np_unique_of_sorted l : StronglySorted klt l → np_unique l = l.
Proof.
  induction 1 as [|a l Hs IH Ha]; simpl; [done|].
  rewrite IH. destruct l as [|b t]; simpl; [done|].
  apply Forall_cons in Ha as [Hab _]. by rewrite Hab.
Qed.

(** Two strictly increasing lists with the same members agree. *)
Lemma sorted_members_eq l1 l2 :
  StronglySorted klt l1 → StronglySorted klt l2 →
  (∀ z, Exists (keq z) l1 ↔ Exists (keq z) l2) →
  Forall2 keq l1 l2.
Proof.
  intros Hs1. revert l2.
  induction Hs1 as [|a l1 Hs1 IH Ha]; intros l2 Hs2 Hm.
  - destruct l2 as [|b l2]; [constructor|].
    exfalso. apply (Exists_nil (keq b)). apply Hm. left. apply keq_refl.
  - destruct Hs2 as [|b l2 Hs2 Hb].
    + exfalso. apply (Exists_nil (keq a)). apply Hm. left. apply keq_refl.
    + assert (Hab : keq a b).
      { assert (H1 : Exists (keq a) (b :: l2)) by (apply Hm; left; apply keq_refl).
        assert (H2 : Exists (keq b) (a :: l1)) by (apply Hm; left; apply keq_refl).
        apply Exists_cons in H1 as [?|H1]; [done|].
        apply Exists_cons in H2 as [?|H2]; [by apply keq_sym|].
        exfalso. apply Exists_exists in H1 as (b' & Hb' & Eb').
        apply Exists_exists in H2 as (a' & Ha' & Ea').
        rewrite Forall_forall in Ha, Hb.
        assert (L1 : klt b a).
        { eapply klt_keq_r; [apply keq_sym, Eb'|]. by apply Hb. }
        assert (L2 : klt a b).
        { eapply klt_keq_r; [apply keq_sym, Ea'|]. by apply Ha. }
        exact (klt_asym _ _ L1 L2). }
      constructor; [done|]. apply IH; [done|].
      intros z. split; intros Hz.
      * assert (H1 : Exists (keq z) (b :: l2)) by (apply Hm; by right).
        apply Exists_cons in H1 as [Hzb|?]; [|done]. exfalso.
        apply Exists_exists in Hz as (a' & Ha' & Ea').
        rewrite Forall_forall in Ha. specialize (Ha _ Ha').
        apply (klt_not_keq _ _ Ha).
        eapply keq_trans; [exact Hab|].
        eapply keq_trans; [apply keq_sym; exact Hzb|done].
      * assert (H1 : Exists (keq z) (a :: l1)) by (apply Hm; by right).
        apply Exists_cons in H1 as [Hza|?]; [|done]. exfalso.
        apply Exists_exists in Hz as (b' & Hb' & Eb').
        rewrite Forall_forall in Hb. specialize (Hb _ Hb').
        apply (klt_not_keq _ _ Hb).
        eapply keq_trans; [apply keq_sym; exact Hab|].
        eapply keq_trans; [apply keq_sym; exact Hza|done].
Qed.
End KeyFacts.

Section RowFacts.
Context `{Key K}.
Implicit Types (r a : row K) (l t : list (row K)).

Lemma has_label_true k l :
  has_label k l = true ↔ Exists (λ r, keq k (label r)) l.
Proof.
  unfold has_label. rewrite existsb_exists, Exists_exists.
  split; intros (r & Hin & Hr); exists r.
  - split; [by apply list_elem_of_In | by apply keqb_true].
  - split; [by apply list_elem_of_In | by apply keqb_true].
Qed.

Lemma insert_row_head r l :
  Forall (λ y, klt (label r) (label y)) l → insert_row r l = r :: l.
Proof.
  destruct l as [|y t]; simpl; [done|].
  intros [Hy _]%Forall_cons. unfold klt in Hy. by rewrite Hy.
Qed.

Lemma sorted_labels_cons r l :
  StronglySorted klt (List.map label (r :: l)) →
  StronglySorted klt (List.map label l) ∧ Forall (λ y, klt (label r) (label y)) l.
Proof.
  simpl. intros Hs. apply StronglySorted_inv in Hs as [Hs Hr].
  split; [done|]. by rewrite Forall_map in Hr.
Qed.

Lemma sort_index_sorted_id l :
  StronglySorted klt (List.map label l) → sort_index l = l.
Proof.
  induction l as [|r l IH]; [done|].
  intros [Hs Hr]%sorted_labels_cons. simpl.
  rewrite (IH Hs). by apply insert_row_head.
Qed.

Lemma sort_index_snoc a l :
  StronglySorted klt (List.map label l) →
  Forall (λ y, klt (label a) (label y)) l →
  sort_index (l ++ [a]) = a :: l.
Proof.
  induction l as [|r l IH]; [done|].
  intros [Hs Hr]%sorted_labels_cons [Har Hal]%Forall_cons. simpl.
  fold (sort_index (l ++ [a])). rewrite (IH Hs Hal). simpl.
  apply kcmp_Gt in Har. rewrite Har. by rewrite insert_row_head.
Qed.

(** After the anchor row has been set at a label [b0] that no key
    precedes, sorting puts the anchor first; the table was either already
    in that order (the label existed) or had the anchor appended last. *)
Lemma loc_zero_shape b0 l :
  StronglySorted klt (List.map label l) →
  Forall (λ r, kcmp b0 (label r) ≠ Gt) l →
  ∃ a t,
    sort_index (loc_zero b0 l) = a :: t ∧
    aux a = 0%Q ∧ eff a = 0%Q ∧ keq b0 (label a) ∧
    Forall (λ r, klt b0 (label r)) t ∧
    Forall (λ r, In r l) t ∧
    Forall (λ r, keq b0 (label r) ∨ In r t) l ∧
    StronglySorted klt (List.map label (a :: t)) ∧
    ((loc_zero b0 l = a :: t ∧ ∃ r, l = r :: t) ∨
     (loc_zero b0 l = t ++ [a] ∧ l = t)).
Proof.
  intros Hs Hge. unfold loc_zero.
  destruct (has_label b0 l) eqn:Hhas.
  - apply has_label_true in Hhas.
    destruct l as [|r t]; [by apply Exists_nil in Hhas|].
    apply sorted_labels_cons in Hs as [Hs Hr].
    apply Forall_cons in Hge as [Hger Hget].
    assert (Hb0 : keq b0 (label r)).
    { apply Exists_cons in Hhas as [?|Hex]; [done|]. exfalso.
      apply Exists_exists in Hex as (y & Hy & Ey).
      rewrite Forall_forall in Hr. specialize (Hr _ Hy).
      apply Hger. apply kcmp_Gt.
      eapply klt_keq_r; [apply keq_sym; exact Ey | exact Hr]. }
    assert (Hlt : Forall (λ y, klt b0 (label y)) t).
    { eapply Forall_impl; [exact Hr|]. intros y Hy; simpl in *.
      eapply klt_keq_l; [apply keq_sym; exact Hb0 | exact Hy]. }
    assert (Hmap : List.map (λ r0, if keqb b0 (label r0) then Row (label r0) 0 0 else r0) t = t).
    { clear -Hlt. induction t as [|y t IH]; [done|].
      apply Forall_cons in Hlt as [Hy Ht]. simpl. rewrite (IH Ht).
      apply klt_not_keq, keqb_false in Hy. by rewrite Hy. }
    cbn [List.map]. apply keqb_true in Hb0 as Hb0'. rewrite Hb0', Hmap.
    assert (Hs' : StronglySorted klt (List.map label (Row (label r) 0 0 :: t))).
    { simpl. constructor; [done|]. by rewrite Forall_map. }
    exists (Row (label r) 0 0), t.
    split; [by apply sort_index_sorted_id|].
    repeat split; try done.
    + apply Forall_forall. intros y Hy. right. by apply list_elem_of_In.
    + constructor; [by left|].
      apply Forall_forall. intros y Hy. right. by apply list_elem_of_In.
    + left. split; [done|]. by exists r.
  - assert (Hno : ¬ Exists (λ r, keq b0 (label r)) l).
    { rewrite <- has_label_true. by rewrite Hhas. }
    assert (Hlt : Forall (λ y, klt b0 (label y)) l).
    { apply Forall_forall. intros y Hy.
      rewrite Forall_forall in Hge. specialize (Hge _ Hy).
      unfold klt. destruct (kcmp b0 (label y)) eqn:E; try done.
      exfalso. apply Hno. apply Exists_exists. by exists y. }
    exists (Row b0 0 0), l.
    split; [by apply sort_index_snoc|].
    repeat split; try done.
    + apply keq_refl.
    + apply Forall_forall. intros y Hy. by apply list_elem_of_In.
    + apply Forall_forall. intros y Hy. right. by apply list_elem_of_In.
    + simpl. constructor; [done|]. by rewrite Forall_map.
    + by right.
Qed.
Lemma insert_row_In r y l : In y (insert_row r l) ↔ y = r ∨ In y l.
Proof.
  induction l as [|z t IH]; simpl.
  - split; [intros [<-|[]]; by left | intros [->|[]]; by left].
  - destruct (kcmp (label r) (label z)); simpl; rewrite ?IH; intuition congruence.
Qed.

Lemma insert_row_sorted r l :
  StronglySorted klt (List.map label l) →
  Forall (λ y, ¬ keq (label r) (label y)) l →
  StronglySorted klt (List.map label (insert_row r l)).
Proof.
  induction l as [|z t IH]; [intros; simpl; repeat constructor|].
  intros [Hs Hz]%sorted_labels_cons [Hrz Hrt]%Forall_cons. simpl.
  destruct (kcmp (label r) (label z)) eqn:E.
  - by destruct Hrz.
  - simpl. constructor.
    + simpl. constructor; [done|]. by rewrite Forall_map.
    + constructor; [done|]. rewrite Forall_map.
      eapply Forall_impl; [exact Hz|]. intros y Hy. simpl in *.
      eapply kcmp_lt_trans; eauto.
  - simpl. constructor; [by apply IH|].
    rewrite Forall_map. apply Forall_forall. intros y Hy%list_elem_of_In.
    apply insert_row_In in Hy as [->|Hy]; [by apply kcmp_Gt|].
    rewrite Forall_forall in Hz. by apply Hz, list_elem_of_In.
Qed.

Lemma sort_index_anchor_last a l :
  StronglySorted klt (List.map label l) →
  Forall (λ y, ¬ keq (label a) (label y)) l →
  StronglySorted klt (List.map label (sort_index (l ++ [a]))) ∧
  ∀ y, In y (sort_index (l ++ [a])) ↔ y = a ∨ In y l.
Proof.
  unfold sort_index. rewrite foldr_app. simpl.
  induction l as [|r l IH].
  - intros _ _. simpl. split; [repeat constructor|].
    intros y. split; [intros [<-|[]]; by left | intros [->|[]]; by left].
  - intros [Hs Hr]%sorted_labels_cons [Har Hal]%Forall_cons. simpl.
    destruct (IH Hs Hal) as [IHs IHin]. split.
    + apply insert_row_sorted; [done|].
      apply Forall_forall. intros y Hy%list_elem_of_In%IHin.
      destruct Hy as [->|Hy].
      * intros E. by apply Har, keq_sym.
      * rewrite Forall_forall in Hr. by apply klt_not_keq, Hr, list_elem_of_In.
    + intros y. rewrite insert_row_In, IHin. simpl. intuition congruence.
Qed.

(** Whatever the keys are, the table is in strictly increasing order of
    its labels after the anchor row has been set and the rows have been
    sorted. *)
Lemma loc_zero_sorted k l :
  StronglySorted klt (List.map label l) →
  StronglySorted klt (List.map label (sort_index (loc_zero k l))).
Proof.
  intros Hs. unfold loc_zero. destruct (has_label k l) eqn:Hhas.
  - assert (Hl : List.map label
                   (List.map (λ r, if keqb k (label r) then Row (label r) 0 0 else r) l)
                 = List.map label l).
    { rewrite List.map_map. apply List.map_ext. intros r. by destruct (keqb k (label r)). }
    rewrite sort_index_sorted_id; by rewrite Hl.
  - apply sort_index_anchor_last; [done|].
    apply Forall_forall. intros y Hy E. simpl in E.
    assert (has_label k l = true); [|congruence].
    apply has_label_true, Exists_exists. by exists y.
Qed.
End RowFacts.

(** ** Arithmetic of the centering constant *)

Ltac qring := first [ring | field].

Lemma klt_Q (x y : Q) : klt x y ↔ (x < y)%Q.
Proof. unfold klt; simpl. symmetry. apply Qlt_alt. Qed.

Lemma keq_Q (x y : Q) : keq x y ↔ (x == y)%Q.
Proof. unfold keq; simpl. symmetry. apply Qeq_alt. Qed.

Lemma kcmp_Q_le (x y : Q) : kcmp x y ≠ Gt ↔ (x <= y)%Q.
Proof. simpl. unfold Qle, Qcompare, Z.le. tauto. Qed.

Lemma klt_Z (x y : Z) : klt x y ↔ x < y.
Proof. unfold klt; simpl. apply Z.compare_lt_iff. Qed.

Lemma keq_Z (x y : Z) : keq x y ↔ x = y.
Proof. unfold keq; simpl. apply Z.compare_eq_iff. Qed.

Lemma Qsum_nil : Qsum [] = 0%Q.
Proof. reflexivity. Qed.

Lemma Qsum_cons (x : Q) (l : list Q) : Qsum (x :: l) = (x + Qsum l)%Q.
Proof. reflexivity. Qed.

Lemma Qsum_app (l1 l2 : list Q) : (Qsum (l1 ++ l2) == Qsum l1 + Qsum l2)%Q.
Proof.
  induction l1 as [|x l1 IH]; cbn [app].
  - rewrite Qsum_nil. ring.
  - rewrite !Qsum_cons, IH. ring.
Qed.

Lemma Qsum_nonneg (l : list Q) : Forall (λ x, (0 <= x)%Q) l → (0 <= Qsum l)%Q.
Proof.
  induction 1 as [|x l Hx Hl IH]; [apply Qle_refl|].
  cbv beta in Hx. rewrite Qsum_cons. lra.
Qed.

Lemma Qsum_ge_member (l : list Q) (x : Q) :
  Forall (λ y, (0 <= y)%Q) l → In x l → (x <= Qsum l)%Q.
Proof.
  induction 1 as [|y l Hy Hl IH]; [done|].
  cbv beta in Hy. rewrite Qsum_cons. intros [->|Hin].
  - pose proof (Qsum_nonneg l Hl). lra.
  - specialize (IH Hin). lra.
Qed.

Lemma Qsum_zero (l : list Q) : Forall (λ x, (x == 0)%Q) l → (Qsum l == 0)%Q.
Proof.
  induction 1 as [|x l Hx Hl IH]; [reflexivity|].
  cbv beta in Hx. rewrite Qsum_cons, Hx, IH. ring.
Qed.

Lemma nan_div_proper (a a' b b' : Q) :
  (a == a')%Q → (b == b')%Q → cell_eq (nan_div a b) (nan_div a' b').
Proof.
  intros Ha Hb. unfold nan_div.
  destruct (Qeq_bool b 0) eqn:E1, (Qeq_bool b' 0) eqn:E2; simpl; try done.
  - apply Qeq_bool_iff in E1. apply Qeq_bool_neq in E2. apply E2. by rewrite <- Hb.
  - apply Qeq_bool_iff in E2. apply Qeq_bool_neq in E1. apply E1. by rewrite Hb.
  - by rewrite Ha, Hb.
Qed.

Lemma nan_div_Some (a b : Q) : ¬ (b == 0)%Q → nan_div a b = Some (a / b)%Q.
Proof.
  intros Hb. unfold nan_div. destruct (Qeq_bool b 0) eqn:E; [|done].
  by apply Qeq_bool_iff in E.
Qed.

Lemma cumsum_from_length (acc : Q) (l : list Q) : length (cumsum_from acc l) = length l.
Proof. revert acc. induction l; intros; simpl; [done | by rewrite IHl]. Qed.

Lemma cumsum_length (l : list Q) : length (cumsum l) = length l.
Proof. destruct l; simpl; [done | by rewrite cumsum_from_length]. Qed.

Lemma cumsum_from_zero (acc : Q) (l : list Q) :
  (acc == 0)%Q → Forall (λ x, (x == 0)%Q) l → Forall (λ x, (x == 0)%Q) (cumsum_from acc l).
Proof.
  intros Hacc Hl. revert acc Hacc.
  induction Hl as [|x l Hx Hl IH]; intros acc Hacc; simpl; [constructor|].
  assert (acc + x == 0)%Q by (rewrite Hacc, Hx; ring).
  constructor; [done | by apply IH].
Qed.

Lemma cumsum_zero (l : list Q) :
  Forall (λ x, (x == 0)%Q) l → Forall (λ x, (x == 0)%Q) (cumsum l).
Proof.
  destruct 1 as [|x l Hx Hl]; simpl; [constructor|].
  constructor; [done | by apply cumsum_from_zero].
Qed.

Section RowLists.
Context {K : Type}.
Implicit Types (l : list (row K)) (e : list Q).

Lemma with_eff_length l e : length e = length l → length (with_eff l e) = length l.
Proof. intros He. unfold with_eff. rewrite length_zip_with. lia. Qed.

Lemma with_eff_label l e :
  length e = length l → List.map label (with_eff l e) = List.map label l.
Proof.
  revert e. induction l as [|r l IH]; intros [|x e] He; simpl in *; try done.
  f_equal. apply IH. lia.
Qed.

Lemma with_eff_aux l e :
  length e = length l → List.map aux (with_eff l e) = List.map aux l.
Proof.
  revert e. induction l as [|r l IH]; intros [|x e] He; simpl in *; try done.
  f_equal. apply IH. lia.
Qed.

Lemma with_eff_eff l e : length e = length l → List.map eff (with_eff l e) = e.
Proof.
  revert e. induction l as [|r l IH]; intros [|x e] He; simpl in *; try done.
  f_equal. apply IH. lia.
Qed.
End RowLists.

Lemma shift1_cons (p x : Q) (t : list Q) : shift1 p (x :: t) = p :: shift1 x t.
Proof. reflexivity. Qed.

Lemma mv_terms_zip (p : Q) (l : list (row Q)) :
  zip_with Qmult
    (zip_with (λ a b, ((a + b) / 2)%Q) (List.map eff l) (shift1 p (List.map eff l)))
    (List.map aux l) = mv_terms p l.
Proof.
  revert p. induction l as [|r l IH]; intros p; [done|].
  cbn [List.map mv_terms]. rewrite shift1_cons.
  cbn [zip_with]. f_equal. apply IH.
Qed.

Lemma mean_mv_avg_terms (l : list (row Q)) :
  mean_mv_avg l = nan_div (Qsum (mv_terms 0 l)) (Qsum (List.map aux l)).
Proof. unfold mean_mv_avg. cbv zeta. by rewrite mv_terms_zip. Qed.

Lemma mv_terms_snoc (p : Q) (t : list (row Q)) (a : row Q) :
  aux a = 0%Q → (Qsum (mv_terms p (t ++ [a])) == Qsum (mv_terms p t))%Q.
Proof.
  intros Ha. revert p. induction t as [|r t IH]; intros p; cbn [app mv_terms].
  - rewrite Qsum_cons, Qsum_nil, Ha. qring.
  - rewrite !Qsum_cons, IH. reflexivity.
Qed.

Lemma mv_terms_anchor (a : row Q) (t : list (row Q)) :
  aux a = 0%Q → (Qsum (mv_terms 0 (a :: t)) == Qsum (mv_terms (eff a) t))%Q.
Proof. intros Ha. cbn [mv_terms]. rewrite Qsum_cons, Ha. qring. Qed.

Lemma mv_pairs_cons (s0 w a b : Q) (st et : list Q) :
  mv_pairs (s0 :: w :: st) (a :: b :: et) =
  (w, ((a + b) / 2)%Q) :: mv_pairs (w :: st) (b :: et).
Proof. reflexivity. Qed.

Lemma mv_pairs_rows (a : row Q) (t : list (row Q)) :
  let p := mv_pairs (List.map aux (a :: t)) (List.map eff (a :: t)) in
  (Qsum (List.map (λ wv, fst wv * snd wv) p) == Qsum (mv_terms (eff a) t))%Q ∧
  Qsum (List.map fst p) = Qsum (List.map aux t).
Proof.
  revert a. induction t as [|b t IH]; intros a; [done|].
  cbn [List.map]. rewrite mv_pairs_cons.
  destruct (IH b) as [IH1 IH2]. cbn [List.map] in IH1, IH2.
  cbn [List.map mv_terms fst snd]. rewrite !Qsum_cons. split.
  - rewrite IH1. qring.
  - by rewrite IH2.
Qed.

Lemma mv_pairs_shift (c : Q) (sz ef : list Q) :
  let p := mv_pairs sz ef in
  let p' := mv_pairs sz (List.map (λ e, (e - c)%Q) ef) in
  (Qsum (List.map (λ wv, fst wv * snd wv) p') ==
   Qsum (List.map (λ wv, fst wv * snd wv) p) - c * Qsum (List.map fst p))%Q ∧
  List.map fst p' = List.map fst p.
Proof.
  revert ef. induction sz as [|s0 sz IH]; intros ef.
  - cbn. split; [qring | done].
  - destruct sz as [|w st].
    { destruct ef; cbn; (split; [qring | done]). }
    destruct ef as [|a [|b et]]; try (cbn; split; [qring | done]).
    destruct (IH (b :: et)) as [IH1 IH2].
    cbn [List.map] in *. rewrite !mv_pairs_cons.
    cbn [List.map fst snd]. rewrite !Qsum_cons. split.
    + rewrite IH1. qring.
    + by rewrite IH2.
Qed.

(** ** The aggregated table of the continuous estimator *)

Lemma lookup_map {A B : Type} (f : A → B) (l : list A) (i : nat) :
  List.map f l !! i = f <$> (l !! i).
Proof.
  revert i. induction l as [|x l IH]; intros [|i]; simpl; auto.
Qed.

Lemma zip_with_map {A B C D : Type} (h : B → C → D) (f : A → B) (g : A → C)
  (l : list A) :
  zip_with h (List.map f l) (List.map g l) = List.map (λ x, h (f x) (g x)) l.
Proof. induction l as [|x l IH]; simpl; [done | by rewrite IH]. Qed.

Lemma group_length_nonneg (k : Q) (d : list (Q * Q)) :
  (0 <= inject_Z (Z.of_nat (length (group k d))))%Q.
Proof. change 0%Q with (inject_Z 0). rewrite <- Zle_Qle. lia. Qed.

Lemma agg_labels (d : list (Q * Q)) :
  List.map label (agg_size_mean d) = group_keys d.
Proof. unfold agg_size_mean. rewrite List.map_map. simpl. apply List.map_id. Qed.

Lemma agg_length (d : list (Q * Q)) :
  length (cumsum (List.map eff (agg_size_mean d))) = length (agg_size_mean d).
Proof. by rewrite cumsum_length, List.length_map. Qed.

Lemma accumulate_labels (d : list (Q * Q)) :
  List.map label (accumulate d) = group_keys d.
Proof.
  unfold accumulate. cbv zeta. rewrite with_eff_label by apply agg_length.
  apply agg_labels.
Qed.

Lemma accumulate_sorted (d : list (Q * Q)) :
  StronglySorted klt (List.map label (accumulate d)).
Proof. rewrite accumulate_labels. apply np_unique_sorted. Qed.

(** A row of the accumulated table carries a key of the delta table and
    the number of delta rows of that key. *)
Lemma accumulate_row (d : list (Q * Q)) (r : row Q) :
  In r (accumulate d) →
  In (label r) (group_keys d) ∧
  aux r = inject_Z (Z.of_nat (length (group (label r) d))).
Proof.
  unfold accumulate. cbv zeta.
  generalize (cumsum (List.map eff (agg_size_mean d))). intros e Hin.
  assert (Hr : ∃ r0, In r0 (agg_size_mean d) ∧ label r = label r0 ∧ aux r = aux r0).
  { revert e Hin. generalize (agg_size_mean d).
    induction l as [|r0 l IH]; intros [|x e]; simpl; try done.
    intros [<-|Hin].
    - exists r0. auto.
    - destruct (IH _ Hin) as (r1 & ? & ? & ?). exists r1. auto. }
  destruct Hr as (r0 & Hin0 & -> & ->).
  unfold agg_size_mean in Hin0. apply in_map_iff in Hin0 as (k & <- & Hk).
  simpl. auto.
Qed.

Lemma group_keys_In (d : list (Q * Q)) (k : Q) :
  In k (group_keys d) → ∃ kv, In kv d ∧ k = fst kv.
Proof.
  intros Hin. apply np_unique_In in Hin.
  apply in_map_iff in Hin as (kv & <- & Hkv). by exists kv.
Qed.

Lemma group_keys_complete (d : list (Q * Q)) (kv : Q * Q) :
  In kv d → ∃ k, In k (group_keys d) ∧ keq k (fst kv).
Proof.
  intros Hin.
  assert (Hex : Exists (keq (fst kv)) (group_keys d)).
  { apply np_unique_Exists. apply Exists_exists. exists (fst kv).
    split; [|apply keq_refl]. apply list_elem_of_In, in_map_iff. by exists kv. }
  apply Exists_exists in Hex as (k & Hk & Ek).
  exists k. split; [by apply list_elem_of_In | by apply keq_sym].
Qed.

Lemma group_member (d : list (Q * Q)) (k : Q) (kv : Q * Q) :
  In kv d → keq k (fst kv) → In (snd kv) (group k d).
Proof.
  intros Hin Hk. unfold group. apply in_map_iff. exists kv. split; [done|].
  apply filter_In. split; [done | by apply keqb_true].
Qed.

Lemma accumulate_has_row (d : list (Q * Q)) (k : Q) :
  In k (group_keys d) → ∃ r, In r (accumulate d) ∧ label r = k.
Proof.
  rewrite <- accumulate_labels. intros Hin.
  apply in_map_iff in Hin as (r & <- & Hr). by exists r.
Qed.

Lemma accumulate_ge (d : list (Q * Q)) (b0 : Q) :
  Forall (λ kv, (b0 <= fst kv)%Q) d →
  Forall (λ r, kcmp b0 (label r) ≠ Gt) (accumulate d).
Proof.
  intros Hd. apply Forall_forall. intros r Hr%list_elem_of_In.
  apply accumulate_row in Hr as [Hk _].
  apply group_keys_In in Hk as (kv & Hkv & ->).
  rewrite Forall_forall in Hd. apply kcmp_Q_le, Hd. by apply list_elem_of_In.
Qed.

Lemma accumulate_aux_nonneg (d : list (Q * Q)) (t : list (row Q)) :
  Forall (λ r, In r (accumulate d)) t →
  Forall (λ x, (0 <= x)%Q) (List.map aux t).
Proof.
  intros Ht. apply Forall_map. eapply Forall_impl; [exact Ht|].
  intros r Hr; simpl in *. apply accumulate_row in Hr as [_ ->].
  apply group_length_nonneg.
Qed.

(** The sorted table starts with the anchor; the sums of the source's
    centering constant can be read off either order. *)
Lemma centering_core (d : list (Q * Q)) (b0 : Q) :
  Forall (λ kv, (b0 <= fst kv)%Q) d →
  ∃ a t,
    sort_index (loc_zero b0 (accumulate d)) = a :: t ∧
    aux a = 0%Q ∧ eff a = 0%Q ∧ keq b0 (label a) ∧
    Forall (λ r, In r (accumulate d)) t ∧
    Forall (λ r, keq b0 (label r) ∨ In r t) (accumulate d) ∧
    StronglySorted klt (List.map label (a :: t)) ∧
    (Qsum (mv_terms 0 (loc_zero b0 (accumulate d))) == Qsum (mv_terms 0 t))%Q ∧
    (Qsum (List.map aux (loc_zero b0 (accumulate d))) == Qsum (List.map aux t))%Q.
Proof.
  intros Hd.
  destruct (loc_zero_shape b0 (accumulate d) (accumulate_sorted d) (accumulate_ge d b0 Hd))
    as (a & t & HS & Ha & He & Hb0 & _ & Hin & Hcov & Hsort & Hshape).
  exists a, t. repeat split; try done.
  - destruct Hshape as [[-> _]|[-> _]].
    + rewrite mv_terms_anchor by done. by rewrite He.
    + by apply mv_terms_snoc.
  - destruct Hshape as [[-> _]|[-> _]].
    + cbn [List.map]. rewrite Qsum_cons, Ha. ring.
    + rewrite List.map_app, Qsum_app. cbn [List.map].
      rewrite Qsum_cons, Qsum_nil, Ha. ring.
Qed.

Lemma get_set_column_eq (name : string) (v : list cell) cols :
  get_column name (set_column name v cols) = Some v.
Proof.
  induction cols as [|[n w] cols IH]; simpl.
  - by rewrite String.eqb_refl.
  - destruct (String.eqb n name) eqn:E; simpl; by rewrite E.
Qed.

Lemma get_set_column_ne (n m : string) (v : list cell) cols :
  n ≠ m → get_column n (set_column m v cols) = get_column n cols.
Proof.
  intros Hne. induction cols as [|[k w] cols IH]; simpl.
  - apply String.eqb_neq in Hne. rewrite String.eqb_sym. by rewrite Hne.
  - destruct (String.eqb k m) eqn:E; simpl.
    + apply String.eqb_eq in E as ->.
      assert (String.eqb m n = false) as -> by (apply String.eqb_neq; congruence).
      done.
    + by rewrite IH.
Qed.

(** Two column names that differ in their first character. *)
Ltac first_char_differs :=
  let E := fresh "E" in
  intros E; apply (f_equal (String.get 0)) in E;
  unfold lowerCI_name, upperCI_name in E; vm_compute in E; discriminate E.

Lemma StronglySorted_weaken {A : Type} (R R' : A → A → Prop) (l : list A) :
  (∀ x y, R x y → R' x y) → StronglySorted R l → StronglySorted R' l.
Proof.
  intros HR. induction 1 as [|x l Hs IH Hx]; constructor; [done|].
  eapply Forall_impl; [exact Hx | auto].
Qed.

Lemma Qmean_zero (l : list Q) : Forall (λ x, (x == 0)%Q) l → (Qmean l == 0)%Q.
Proof.
  intros Hl. unfold Qmean, Qdiv. rewrite (Qsum_zero l Hl). ring.
Qed.

Lemma mv_terms_zero (p : Q) (t : list (row Q)) :
  (p == 0)%Q → Forall (λ r, (eff r == 0)%Q) t →
  Forall (λ x, (x == 0)%Q) (mv_terms p t).
Proof.
  intros Hp Ht. revert p Hp.
  induction Ht as [|r t Hr Ht IH]; intros p Hp; cbn [mv_terms]; constructor.
  - cbv beta in Hr. rewrite Hr, Hp. qring.
  - by apply IH.
Qed.

Lemma inject_nat_pos (n : nat) : (0 < n)%nat → (1 <= inject_Z (Z.of_nat n))%Q.
Proof. intros Hn. change 1%Q with (inject_Z 1). rewrite <- Zle_Qle. lia. Qed.

Section ContinuousTable.
Variable CI_estimate : list Q → spec_float → cell.
Variables (d : list (Q * Q)) (b0 : Q).
Hypothesis keys_ge : Forall (λ kv, (b0 <= fst kv)%Q) d.

Let res2 := loc_zero b0 (accumulate d).
Let sorted := sort_index res2.

(** The columns of the returned table. *)
Lemma continuous_table_columns (include_CI : bool) (C : spec_float) (pct : Z) :
  pct_of C = inr pct →
  ∃ f, continuous_table CI_estimate d b0 include_CI C = inr f ∧
    index f = List.map label sorted ∧
    get_column "size" (columns f) = Some (List.map (λ r, Some (aux r)) sorted) ∧
    get_column "eff" (columns f) =
      Some (List.map (λ r, cell_sub (Some (eff r)) (mean_mv_avg res2)) sorted) ∧
    (include_CI = true →
     get_column (lowerCI_name pct) (columns f) =
       Some (List.map
               (λ r, cell_sub (cell_sub (Some (eff r)) (mean_mv_avg res2))
                       (mjoin (lookup_label (label r) (ci_est CI_estimate d C))))
               sorted) ∧
     get_column (upperCI_name pct) (columns f) =
       Some (List.map
               (λ r, cell_add (cell_sub (Some (eff r)) (mean_mv_avg res2))
                       (mjoin (lookup_label (label r) (ci_est CI_estimate d C))))
               sorted)).
Proof.
  intros Hpct. unfold continuous_table. cbv zeta. fold res2. fold sorted.
  rewrite Hpct. destruct include_CI.
  - eexists. split; [reflexivity|]. cbn [index columns].
    assert (Hlu : lowerCI_name pct ≠ upperCI_name pct) by first_char_differs.
    assert (Hsl : "size" ≠ lowerCI_name pct) by first_char_differs.
    assert (Hsu : "size" ≠ upperCI_name pct) by first_char_differs.
    assert (Hel : "eff" ≠ lowerCI_name pct) by first_char_differs.
    assert (Heu : "eff" ≠ upperCI_name pct) by first_char_differs.
    rewrite !zip_with_map.
    split; [done|]. split; [by rewrite !get_set_column_ne|].
    split; [by rewrite !get_set_column_ne|]. intros _. split.
    + rewrite get_set_column_ne by done. by rewrite get_set_column_eq.
    + by rewrite get_set_column_eq.
  - eexists. split; [reflexivity|]. by cbn.
Qed.

(** With a key above the anchor the total size is positive and the
    centering constant is defined. *)
Lemma total_size_pos :
  (∃ r, In r (accumulate d) ∧ ¬ keq b0 (label r) ∧ (1 <= aux r)%Q) →
  ∃ c a t,
    mean_mv_avg res2 = Some c ∧ sorted = a :: t ∧
    aux a = 0%Q ∧ eff a = 0%Q ∧
    Forall (λ r, In r (accumulate d)) t ∧
    StronglySorted klt (List.map label (a :: t)) ∧
    (0 < Qsum (List.map aux t))%Q ∧
    (c * Qsum (List.map aux t) == Qsum (mv_terms 0 t))%Q.
Proof.
  intros (r & Hr & Hne & Hr1).
  destruct (centering_core d b0 keys_ge)
    as (a & t & HS & Ha & He & Hb0 & Hin & Hcov & Hsort & HN & HD).
  fold res2 in HS, HN, HD. fold sorted in HS.
  assert (Hpos : (0 < Qsum (List.map aux t))%Q).
  { rewrite Forall_forall in Hcov.
    destruct (Hcov r) as [?|Hrt]; [by apply list_elem_of_In | done |].
    pose proof (Qsum_ge_member (List.map aux t) (aux r)
                  (accumulate_aux_nonneg d t Hin) (in_map aux _ _ Hrt)).
    lra. }
  assert (HD0 : ¬ (Qsum (List.map aux res2) == 0)%Q) by (rewrite HD; lra).
  exists (Qsum (mv_terms 0 res2) / Qsum (List.map aux res2))%Q, a, t.
  split; [rewrite mean_mv_avg_terms; by apply nan_div_Some|].
  repeat split; try done.
  rewrite <- HN, <- HD. by field.
Qed.

(** The moving-average weighted mean of the centered effects is zero. *)
Lemma centered_mean_zero (c : Q) (a : row Q) (t : list (row Q)) :
  aux a = 0%Q → eff a = 0%Q →
  (0 < Qsum (List.map aux t))%Q →
  (c * Qsum (List.map aux t) == Qsum (mv_terms 0 t))%Q →
  ∃ mu,
    mv_weighted_mean (List.map aux (a :: t))
      (List.map (λ r, (eff r - c)%Q) (a :: t)) = Some mu ∧ (mu == 0)%Q.
Proof.
  intros Ha He Hpos Hc.
  replace (List.map (λ r, (eff r - c)%Q) (a :: t))
    with (List.map (λ e, (e - c)%Q) (List.map eff (a :: t)))
    by (by rewrite List.map_map).
  unfold mv_weighted_mean. cbv zeta.
  destruct (mv_pairs_shift c (List.map aux (a :: t)) (List.map eff (a :: t)))
    as [Hnum Hden].
  destruct (mv_pairs_rows a t) as [Hn0 Hd0]. cbv zeta in Hnum, Hden, Hn0, Hd0.
  rewrite Hden, Hd0. rewrite He in Hn0.
  eexists. split; [apply nan_div_Some; lra|].
  rewrite Hnum, Hn0, Hd0, <- Hc. field. lra.
Qed.
End ContinuousTable.

(** ** Running the effects *)

Lemma bind_ok {A B : Type} (m : M A) (k : A → M B) (s s' : state) (a : A) :
  m s = (inr a, s') → (m ≫= k) s = k a s'.
Proof. unfold mbind, M_bind. by intros ->. Qed.

Lemma bind_err {A B : Type} (m : M A) (k : A → M B) (s s' : state) (e : exn) :
  m s = (inl e, s') → (m ≫= k) s = (inl e, s').
Proof. unfold mbind, M_bind. by intros ->. Qed.

Lemma np_getitem_ok (a : list Q) (i : Z) (s : state) :
  - Z.of_nat (length a) ≤ i < Z.of_nat (length a) →
  np_getitem a i s = (inr (np_at a i), s).
Proof.
  intros Hi. unfold np_getitem, np_at. cbv zeta.
  destruct (i <? - Z.of_nat (length a)) eqn:E1; [lia|].
  destruct (Z.of_nat (length a) <=? i) eqn:E2; [lia|]. cbn [orb].
  set (j := Z.to_nat (if i <? 0 then i + Z.of_nat (length a) else i)).
  assert (Hj : (j < length a)%nat) by (subst j; destruct (i <? 0) eqn:E; lia).
  destruct (a !! j) as [v|] eqn:Ev.
  - by rewrite (nth_lookup_Some _ _ 0%Q _ Ev).
  - apply lookup_ge_None in Ev. lia.
Qed.

Lemma np_take_ok (a : list Q) (idx : list Z) (s : state) :
  Forall (λ i, - Z.of_nat (length a) ≤ i < Z.of_nat (length a)) idx →
  np_take a idx s = (inr (List.map (np_at a) idx), s).
Proof.
  unfold np_take. induction 1 as [|i idx Hi Hidx IH]; [done|].
  cbn [mapM List.map].
  erewrite bind_ok by (by apply np_getitem_ok).
  erewrite bind_ok by exact IH. done.
Qed.

Lemma searchsorted_left_range (bins : list Q) (x : Q) :
  0 ≤ searchsorted_left bins x ≤ Z.of_nat (length bins).
Proof.
  unfold searchsorted_left.
  pose proof (List.filter_length_le (λ b, kltb b x) bins). lia.
Qed.

Lemma cut_code_range (bins : list Q) (x : Q) :
  bins ≠ [] → -1 ≤ cut_code bins x ≤ Z.of_nat (length bins) - 2.
Proof.
  intros Hne. unfold cut_code.
  pose proof (searchsorted_left_range bins x) as Hss.
  destruct bins as [|b0 t]; [done|].
  set (ids := if keqb x b0 then 1 else searchsorted_left (b0 :: t) x).
  assert (Hids : 0 ≤ ids ≤ Z.of_nat (length (b0 :: t))).
  { subst ids. destruct (keqb x b0); [simpl; lia | done]. }
  cbv zeta.
  destruct (ids =? Z.of_nat (length (b0 :: t))) eqn:E1; cbn [orb]; [simpl length; lia|].
  destruct (ids =? 0) eqn:E2; [simpl length; lia|]. lia.
Qed.

Lemma cut_codes_lo (bins xs : list Q) :
  bins ≠ [] →
  Forall (λ i, - Z.of_nat (length bins) ≤ i < Z.of_nat (length bins)) (cut_codes bins xs).
Proof.
  intros Hne. unfold cut_codes. apply Forall_map, Forall_forall. intros x _.
  pose proof (cut_code_range bins x Hne).
  assert (0 < Z.of_nat (length bins)) by (destruct bins; [done | simpl; lia]). lia.
Qed.

Lemma cut_codes_hi (bins xs : list Q) :
  bins ≠ [] →
  Forall (λ i, - Z.of_nat (length bins) ≤ i < Z.of_nat (length bins))
    (List.map (λ i, i + 1) (cut_codes bins xs)).
Proof.
  intros Hne. unfold cut_codes. rewrite List.map_map.
  apply Forall_map, Forall_forall. intros x _.
  pose proof (cut_code_range bins x Hne). lia.
Qed.

Lemma heap_lookup_fst (h : list DataFrame) (a b : DataFrame) :
  (h ++ [a; b]) !! length h = Some a.
Proof. by rewrite list_lookup_middle. Qed.

Lemma heap_lookup_snd (h : list DataFrame) (a b : DataFrame) :
  (h ++ [a; b]) !! S (length h) = Some b.
Proof.
  replace (h ++ [a; b]) with ((h ++ [a]) ++ [b]) by (by rewrite <- app_assoc).
  rewrite list_lookup_middle; [done|]. rewrite length_app. simpl. lia.
Qed.

Lemma heap_insert_fst (h : list DataFrame) (a b a' : DataFrame) :
  <[length h := a']> (h ++ [a; b]) = h ++ [a'; b].
Proof.
  replace (length h) with (length h + 0)%nat by lia. by rewrite insert_app_r.
Qed.

Lemma heap_insert_snd (h : list DataFrame) (a b b' : DataFrame) :
  <[S (length h) := b']> (h ++ [a; b]) = h ++ [a; b'].
Proof.
  replace (S (length h)) with (length h + 1)%nat by lia. by rewrite insert_app_r.
Qed.

Lemma kmin_In (l : list Q) (m : Q) : kmin l = Some m → In m l.
Proof.
  destruct l as [|x t]; [done|]. simpl. intros [= <-].
  assert (G : ∀ t a, foldl (λ m y : Q, if kltb y m then y else m) a t = a ∨
                     In (foldl (λ m y : Q, if kltb y m then y else m) a t) t).
  { clear. induction t as [|y t IH]; intros a; simpl; [by left|].
    destruct (kltb y a).
    - destruct (IH y) as [E|Hin]; [rewrite E; right; by left | right; by right].
    - destruct (IH a) as [E|Hin]; [by left | right; by right]. }
  destruct (G t x) as [->|?]; [by left | by right].
Qed.

Lemma kmin_le (l : list Q) (m : Q) :
  kmin l = Some m → Forall (λ x, (m <= x)%Q) l.
Proof.
  destruct l as [|x t]; [done|]. simpl. intros [= <-].
  assert (G : ∀ t a,
             (foldl (λ m y : Q, if kltb y m then y else m) a t <= a)%Q ∧
             Forall (λ z, (foldl (λ m y : Q, if kltb y m then y else m) a t <= z)%Q) t).
  { clear. induction t as [|y t IH]; intros a; simpl.
    - split; [apply Qle_refl | constructor].
    - destruct (kltb y a) eqn:E.
      + destruct (IH y) as [Hle Hall].
        apply kltb_true in E. apply klt_Q in E.
        split; [eapply Qle_trans; [exact Hle | by apply Qlt_le_weak]|].
        by constructor.
      + destruct (IH a) as [Hle Hall].
        assert (a <= y)%Q.
        { apply Qnot_lt_le. intros Hlt. apply klt_Q in Hlt. apply kltb_true in Hlt.
          congruence. }
        split; [done|]. constructor; [eapply Qle_trans; eauto | done]. }
  destruct (G t x) as [Hle Hall]. by constructor.
Qed.

Lemma np_at_In (a : list Q) (i : Z) :
  - Z.of_nat (length a) ≤ i < Z.of_nat (length a) → In (np_at a i) a.
Proof.
  intros Hi. unfold np_at. apply nth_In. destruct (i <? 0) eqn:E; lia.
Qed.

Lemma upper_keys_length (bins xs : list Q) : length (upper_keys bins xs) = length xs.
Proof. unfold upper_keys, cut_codes. by rewrite !List.length_map. Qed.

Lemma upper_keys_In (bins xs : list Q) (k : Q) :
  bins ≠ [] → In k (upper_keys bins xs) → In k bins.
Proof.
  intros Hne Hin. unfold upper_keys in Hin.
  apply in_map_iff in Hin as (i & <- & Hi).
  apply np_at_In. pose proof (cut_codes_hi bins xs Hne) as Hall.
  rewrite Forall_forall in Hall. by apply Hall, list_elem_of_In.
Qed.

Lemma delta_table_keys_ge predict dfX feature (bins xs : list Q) (b0 : Q) :
  kmin bins = Some b0 →
  Forall (λ kv, (b0 <= fst kv)%Q) (delta_table predict dfX feature bins xs).
Proof.
  intros Hb0. apply Forall_forall. intros [k v] Hkv.
  unfold delta_table in Hkv. apply elem_of_zip_l in Hkv.
  simpl. pose proof (kmin_le _ _ Hb0) as Hall. rewrite Forall_forall in Hall.
  apply Hall, list_elem_of_In. eapply upper_keys_In; [|by apply list_elem_of_In].
  intros ->. done.
Qed.

(** ** The run of the continuous estimator *)

Section ContinuousRun.
Variable predict : DataFrame → list Q.
Variable quantile_ied : list Q → list Q → list Q.
Variable CI_estimate : list Q → spec_float → cell.
Variables (s : state) (X : nat) (feature : string) (grid_size : Z).
Variables (dfX : DataFrame) (xs bins : list Q).
Hypothesis input : continuous_input quantile_ied s X feature grid_size dfX xs bins.
Hypothesis contract : model_contract predict feature.

Lemma bins_nonempty : bins ≠ [].
Proof.
  destruct input as (col & qs & mn & _ & _ & _ & _ & _ & ->).
  apply np_unique_nonempty.
Qed.

Lemma bins_sorted : StronglySorted klt bins.
Proof.
  destruct input as (col & qs & mn & _ & _ & _ & _ & _ & ->).
  apply np_unique_sorted.
Qed.

Lemma bins_min : ∃ b0, kmin bins = Some b0.
Proof.
  pose proof bins_nonempty. destruct bins; [done|]. simpl. eauto.
Qed.

(** [pd.cut] accepts the edges: they are at least two, or the release of
    pandas takes a single one. *)
Variable legacy_cut : bool.
Hypothesis accepted : legacy_cut = false ∨ (2 ≤ length bins)%nat.

(** On such an input the estimator raises nothing before line 48: it
    copies the table twice, overwrites the feature column of the copies
    with the lower and the upper edge of every row's bin, calls the model
    on the two copies in this order and aggregates their differences. *)
Lemma continuous_run (include_CI : bool) (C : spec_float) (b0 : Q) :
  kmin bins = Some b0 →
  aleplot_1D_continuous predict quantile_ied CI_estimate legacy_cut X feature grid_size
    include_CI C s =
  (continuous_table CI_estimate (delta_table predict dfX feature bins xs) b0
     include_CI C,
   State (heap s ++ [lower_table dfX feature bins xs; upper_table dfX feature bins xs])
         (calls s ++ [lower_table dfX feature bins xs; upper_table dfX feature bins xs])).
Proof.
  intros Hb0. pose proof bins_nonempty as Hne.
  destruct input as (col & qs & mn & HX & Hcol & Hxs & Hgrid & Hmin & Hbins).
  unfold aleplot_1D_continuous.
  erewrite bind_ok by (unfold lift; by rewrite Hgrid).
  erewrite bind_ok by (unfold load; by rewrite HX).
  erewrite bind_ok by (unfold getcol; by rewrite Hcol).
  rewrite <- Hxs.
  erewrite bind_ok by (unfold bin_edges; by rewrite Hmin).
  rewrite <- Hbins.
  assert (Hcut : legacy_cut && (length bins <? 2)%nat = false).
  { destruct accepted as [->|Hlen]; [done|].
    apply andb_false_iff. right. apply Nat.ltb_ge. lia. }
  erewrite bind_ok by (unfold pd_cut_codes; rewrite Hcut; reflexivity).
  erewrite bind_ok
    by (unfold df_copy; erewrite bind_ok by (unfold load; by rewrite HX); reflexivity).
  cbn [heap calls].
  erewrite bind_ok
    by (unfold df_copy;
        erewrite bind_ok
          by (unfold load; cbn [heap];
              rewrite lookup_app_l by (by eapply lookup_lt_Some); by rewrite HX);
        reflexivity).
  cbn [heap calls]. rewrite <- app_assoc. cbn [app].
  rewrite length_app. cbn [length]. rewrite Nat.add_1_r.
  erewrite bind_ok by (apply np_take_ok, cut_codes_lo, Hne).
  erewrite bind_ok
    by (unfold setcol;
        erewrite bind_ok by (unfold load; cbn [heap]; by rewrite heap_lookup_fst);
        reflexivity).
  cbn [heap calls]. rewrite heap_insert_fst.
  erewrite bind_ok by (apply np_take_ok, cut_codes_hi, Hne).
  erewrite bind_ok
    by (unfold setcol;
        erewrite bind_ok
          by (unfold load; cbn [heap]; by rewrite heap_lookup_snd);
        unfold store; cbn [heap calls]; rewrite heap_insert_snd; reflexivity).
  fold (lower_table dfX feature bins xs).
  fold (upper_keys bins xs). fold (upper_table dfX feature bins xs).
  erewrite bind_ok
    by (unfold py_predict;
        erewrite bind_ok by (unfold load; cbn [heap]; by rewrite heap_lookup_fst);
        reflexivity).
  cbn [heap calls].
  erewrite bind_ok
    by (unfold py_predict;
        erewrite bind_ok by (unfold load; cbn [heap]; by rewrite heap_lookup_snd);
        reflexivity).
  cbn [heap calls]. rewrite <- app_assoc. cbn [app].
  erewrite bind_ok by (apply np_take_ok, cut_codes_hi, Hne).
  fold (upper_keys bins xs).
  assert (Hl1 : length (predict (lower_table dfX feature bins xs)) = length xs).
  { rewrite (contract _ (FloatCol (List.map (np_at bins) (cut_codes bins xs))))
      by (unfold lower_table; apply lookup_insert_eq).
    unfold cut_codes. simpl. by rewrite !List.length_map. }
  assert (Hl2 : length (predict (upper_table dfX feature bins xs)) = length xs).
  { rewrite (contract _ (FloatCol (upper_keys bins xs)))
      by (unfold upper_table; apply lookup_insert_eq).
    simpl. apply upper_keys_length. }
  erewrite bind_ok
    by (unfold np_sub; rewrite Hl1, Hl2, Nat.eqb_refl; reflexivity).
  erewrite bind_ok
    by (unfold delta_frame;
        rewrite upper_keys_length, length_zip_with, Hl1, Hl2, Nat.min_id, Nat.eqb_refl;
        reflexivity).
  erewrite bind_ok by (rewrite Hb0; reflexivity).
  reflexivity.
Qed.
End ContinuousRun.

(** ** A row of the smallest value falls into a proper bin *)

Lemma filter_length_lt {A : Type} (f : A → bool) (l : list A) (x : A) :
  In x l → f x = false → (length (List.filter f l) < length l)%nat.
Proof.
  induction l as [|y l IH]; [done|]. intros [->|Hin] Hx; simpl.
  - rewrite Hx. pose proof (List.filter_length_le f l). lia.
  - specialize (IH Hin Hx). destruct (f y); simpl; lia.
Qed.

Lemma cut_code_member (bins : list Q) (x : Q) :
  StronglySorted klt bins → (2 ≤ length bins)%nat → Exists (keq x) bins →
  0 ≤ cut_code bins x ≤ Z.of_nat (length bins) - 2.
Proof.
  intros Hs Hlen Hex. destruct bins as [|h tl]; [simpl in Hlen; lia|].
  unfold cut_code. destruct (keqb x h) eqn:Eh.
  - assert (E1 : (1 =? Z.of_nat (length (h :: tl))) = false)
      by (apply Z.eqb_neq; lia).
    rewrite E1. cbn [orb Z.eqb]. lia.
  - apply keqb_false in Eh.
    apply Exists_cons in Hex as [?|Hex]; [done|].
    apply Exists_exists in Hex as (e & He & Exe).
    apply StronglySorted_inv in Hs as [_ Hh]. rewrite Forall_forall in Hh.
    assert (Hhx : kltb h x = true).
    { apply kltb_true. eapply klt_keq_r; [apply keq_sym; exact Exe | by apply Hh]. }
    assert (Hlo : 1 ≤ searchsorted_left (h :: tl) x).
    { unfold searchsorted_left. simpl. rewrite Hhx. simpl. lia. }
    assert (Hhi : searchsorted_left (h :: tl) x < Z.of_nat (length (h :: tl))).
    { unfold searchsorted_left.
      assert (Hf : kltb e x = false).
      { unfold kltb. apply keq_sym in Exe. unfold keq in Exe. by rewrite Exe. }
      pose proof (filter_length_lt (λ b, kltb b x) (h :: tl) e
                    (or_intror (proj1 (list_elem_of_In _ _) He)) Hf). lia. }
    assert (E1 : (searchsorted_left (h :: tl) x =? Z.of_nat (length (h :: tl))) = false)
      by (apply Z.eqb_neq; lia).
    assert (E2 : (searchsorted_left (h :: tl) x =? 0) = false)
      by (apply Z.eqb_neq; lia).
    rewrite E1, E2. cbn [orb]. lia.
Qed.

Lemma np_at_tail_gt (h : Q) (tl : list Q) (j : Z) :
  StronglySorted klt (h :: tl) → 1 ≤ j < Z.of_nat (length (h :: tl)) →
  (h < np_at (h :: tl) j)%Q.
Proof.
  intros Hs Hj. apply StronglySorted_inv in Hs as [_ Hh].
  rewrite Forall_forall in Hh. apply klt_Q, Hh, list_elem_of_In.
  unfold np_at. assert (E : (j <? 0) = false) by (apply Z.ltb_ge; lia).
  rewrite E. destruct (Z.to_nat j) as [|n] eqn:En; [lia|].
  simpl. apply nth_In. simpl in Hj. lia.
Qed.

Lemma zip_member {A B : Type} (ks : list A) (vs : list B) (k : A) :
  length ks = length vs → In k ks → ∃ v, In (k, v) (zip ks vs).
Proof.
  revert vs. induction ks as [|a ks IH]; intros [|v vs] Hlen; simpl in *; try done.
  intros [->|Hin].
  - exists v. by left.
  - destruct (IH vs ltac:(lia) Hin) as (w & Hw). exists w. by right.
Qed.

Section ProperBin.
Variable predict : DataFrame → list Q.
Variable quantile_ied : list Q → list Q → list Q.
Variables (s : state) (X : nat) (feature : string) (grid_size : Z).
Variables (dfX : DataFrame) (xs bins : list Q).
Hypothesis input : continuous_input quantile_ied s X feature grid_size dfX xs bins.
Hypothesis contract : model_contract predict feature.

Lemma delta_values_length :
  length (zip_with Qminus (predict (upper_table dfX feature bins xs))
                          (predict (lower_table dfX feature bins xs))) = length xs.
Proof.
  rewrite length_zip_with.
  rewrite (contract _ (FloatCol (upper_keys bins xs)))
    by (unfold upper_table; apply lookup_insert_eq).
  rewrite (contract _ (FloatCol (List.map (np_at bins) (cut_codes bins xs))))
    by (unfold lower_table; apply lookup_insert_eq).
  unfold cut_codes. simpl. rewrite upper_keys_length, !List.length_map. lia.
Qed.

Lemma delta_table_length :
  length (delta_table predict dfX feature bins xs) = length xs.
Proof.
  unfold delta_table.
  rewrite length_zip, upper_keys_length, delta_values_length. lia.
Qed.

(** With at least two edges, a row that holds the minimum of the column
    gets a key above the first edge. *)
Lemma key_above_anchor (b0 : Q) :
  kmin bins = Some b0 → (2 ≤ length bins)%nat →
  ∃ kv, In kv (delta_table predict dfX feature bins xs) ∧ (b0 < fst kv)%Q.
Proof.
  intros Hb0 Hlen.
  pose proof (bins_sorted quantile_ied s X feature grid_size dfX xs bins input) as Hs.
  destruct input as (col & qs & mn & HX & Hcol & Hxs & Hgrid & Hmin & Hbins).
  assert (Hmn : In mn xs) by (by apply kmin_In).
  assert (Hex : Exists (keq mn) bins).
  { rewrite Hbins. apply np_unique_Exists. left. apply keq_refl. }
  pose proof (cut_code_member bins mn Hs Hlen Hex) as Hc.
  assert (Hk : In (np_at bins (cut_code bins mn + 1)) (upper_keys bins xs)).
  { unfold upper_keys, cut_codes. rewrite !List.map_map.
    apply in_map_iff. by exists mn. }
  assert (Hl : length (upper_keys bins xs) =
               length (zip_with Qminus (predict (upper_table dfX feature bins xs))
                                       (predict (lower_table dfX feature bins xs)))).
  { by rewrite upper_keys_length, delta_values_length. }
  destruct (zip_member _ _ _ Hl Hk) as (v & Hv).
  exists (np_at bins (cut_code bins mn + 1), v). split; [exact Hv|]. simpl.
  destruct bins as [|h tl]; [simpl in Hlen; lia|].
  pose proof (kmin_le _ _ Hb0) as Hall. apply Forall_cons in Hall as [Hh _].
  pose proof (np_at_tail_gt h tl (cut_code (h :: tl) mn + 1) Hs ltac:(lia)). lra.
Qed.
End ProperBin.

(** ** Further facts on the table of the continuous estimator *)

Lemma row_above_anchor (d : list (Q * Q)) (b0 : Q) :
  (∃ kv, In kv d ∧ (b0 < fst kv)%Q) →
  ∃ r, In r (accumulate d) ∧ ¬ keq b0 (label r) ∧ (1 <= aux r)%Q.
Proof.
  intros (kv & Hkv & Hlt).
  destruct (group_keys_complete d kv Hkv) as (k & Hk & Ek).
  destruct (accumulate_has_row d k Hk) as (r & Hr & Hl).
  exists r. split; [done|]. split.
  - rewrite Hl. intros Eb. apply keq_Q in Eb. apply keq_Q in Ek. lra.
  - destruct (accumulate_row d r Hr) as [_ ->]. rewrite Hl.
    apply inject_nat_pos.
    pose proof (group_member d k kv Hkv Ek) as Hin.
    destruct (group k d); [done | simpl; lia].
Qed.

Lemma group_zero `{Key K} (d : list (K * Q)) (k : K) :
  Forall (λ kv, (snd kv == 0)%Q) d → Forall (λ x, (x == 0)%Q) (group k d).
Proof.
  intros Hd. unfold group. apply Forall_map, Forall_forall.
  intros kv Hkv%list_elem_of_In. apply filter_In in Hkv as [Hkv _].
  rewrite Forall_forall in Hd. by apply Hd, list_elem_of_In.
Qed.

Lemma accumulate_eff_zero (d : list (Q * Q)) :
  Forall (λ kv, (snd kv == 0)%Q) d →
  Forall (λ r, (eff r == 0)%Q) (accumulate d).
Proof.
  intros Hd. rewrite <- (Forall_map eff (λ x, (x == 0)%Q)).
  unfold accumulate. cbv zeta. rewrite with_eff_eff by apply agg_length.
  apply cumsum_zero. unfold agg_size_mean. rewrite List.map_map. simpl.
  apply Forall_map, Forall_forall. intros k _. by apply Qmean_zero, group_zero.
Qed.

Lemma lookup_label_map {V : Type} (F : Q → V) (keys : list Q) (k : Q) :
  StronglySorted klt keys → In k keys →
  lookup_label k (List.map (λ k, (k, F k)) keys) = Some (F k).
Proof.
  induction 1 as [|k1 keys Hs IH Hk1]; [done|]. simpl.
  intros [->|Hin].
  - assert (keqb k k = true) as -> by apply keqb_true, keq_refl. done.
  - rewrite Forall_forall in Hk1.
    assert (keqb k k1 = false) as ->.
    { apply keqb_false. intros E. apply keq_sym in E.
      apply (klt_not_keq k1 k); [by apply Hk1, list_elem_of_In | done]. }
    by apply IH.
Qed.

Lemma ci_est_lookup CI_estimate (d : list (Q * Q)) (C : spec_float) (k : Q) :
  In k (group_keys d) →
  lookup_label k (ci_est CI_estimate d C) = Some (CI_estimate (group k d) C).
Proof.
  intros Hk. unfold ci_est.
  by apply (lookup_label_map (λ k, CI_estimate (group k d) C)), Hk;
    apply np_unique_sorted.
Qed.

Lemma np_unique_repeat (b : Q) (l : list Q) :
  l ≠ [] → Forall (λ x, x = b) l → np_unique l = [b].
Proof.
  intros Hne Hl. induction Hl as [|x l -> Hl IH]; [done|]. simpl.
  destruct l as [|y l]; [done|]. rewrite IH by done. simpl.
  assert (E : kcmp b b = Eq) by apply kcmp_refl. simpl in E. by rewrite E.
Qed.

(** A delta table whose keys all are the anchor: the group is overwritten
    by the anchor row, no size is left and the constant is undefined. *)
Lemma single_key_table (d : list (Q * Q)) (b : Q) :
  d ≠ [] → Forall (λ kv, fst kv = b) d →
  sort_index (loc_zero b (accumulate d)) = [Row b 0 0] ∧
  mean_mv_avg (loc_zero b (accumulate d)) = None.
Proof.
  intros Hne Hd.
  assert (Hkeys : group_keys d = [b]).
  { unfold group_keys. apply np_unique_repeat.
    - by destruct d.
    - by apply Forall_map. }
  assert (Hacc : ∃ n m, accumulate d = [Row b n m]).
  { pose proof (accumulate_labels d) as Hl. rewrite Hkeys in Hl.
    destruct (accumulate d) as [|[k n m] [|? ?]]; try done.
    simpl in Hl. injection Hl as ->. eauto. }
  destruct Hacc as (n & m & ->).
  unfold loc_zero, has_label. simpl.
  assert (keqb b b = true) as -> by apply keqb_true, keq_refl. simpl.
  split; [done|]. reflexivity.
Qed.

(** ** Properties of the continuous estimator on its inputs *)

Section ContinuousClaims.
Variable predict : DataFrame → list Q.
Variable quantile_ied : list Q → list Q → list Q.
Variable CI_estimate : list Q → spec_float → cell.
Variable legacy_cut : bool.
Variables (s : state) (X : nat) (feature : string) (grid_size : Z).
Variables (dfX : DataFrame) (xs bins : list Q).
Variables (include_CI : bool) (C : spec_float) (pct : Z).
Hypothesis input : continuous_input quantile_ied s X feature grid_size dfX xs bins.
Hypothesis contract : model_contract predict feature.
Hypothesis level : pct_of C = inr pct.
Hypothesis accepted : legacy_cut = false ∨ (2 ≤ length bins)%nat.

Let d := delta_table predict dfX feature bins xs.
Let run := aleplot_1D_continuous predict quantile_ied CI_estimate legacy_cut X feature
             grid_size include_CI C s.
Let s_end := State (heap s ++ [lower_table dfX feature bins xs; upper_table dfX feature bins xs])
                   (calls s ++ [lower_table dfX feature bins xs; upper_table dfX feature bins xs]).

(** The estimator returns a table; its columns are those of
    [continuous_table]. *)
Lemma continuous_returns :
  ∃ b0 f,
    kmin bins = Some b0 ∧ run = (inr f, s_end) ∧
    continuous_table CI_estimate d b0 include_CI C = inr f ∧
    Forall (λ kv, (b0 <= fst kv)%Q) d.
Proof.
  destruct (bins_min quantile_ied s X feature grid_size dfX xs bins input) as (b0 & Hb0).
  pose proof (delta_table_keys_ge predict dfX feature bins xs b0 Hb0) as Hge.
  destruct (continuous_table_columns CI_estimate d b0 include_CI C pct level)
    as (f & Hf & _).
  exists b0, f. split; [done|]. split; [|done].
  unfold run. rewrite (continuous_run predict quantile_ied CI_estimate
                         s X feature grid_size dfX xs bins input contract
                         legacy_cut accepted include_CI C b0 Hb0).
  fold d. by rewrite Hf.
Qed.

Lemma continuous_index_sorted :
  ∃ f s', run = (inr f, s') ∧ StronglySorted Qlt (index f).
Proof.
  destruct continuous_returns as (b0 & f & Hb0 & Hrun & Hf & Hge).
  exists f, s_end. split; [done|].
  destruct (continuous_table_columns CI_estimate d b0 include_CI C pct level)
    as (f' & Hf' & Hidx & _).
  rewrite Hf in Hf'. injection Hf' as <-. rewrite Hidx.
  destruct (centering_core d b0 Hge) as (a & t & -> & _ & _ & _ & _ & _ & Hs & _).
  eapply StronglySorted_weaken; [|exact Hs]. intros x y. apply klt_Q.
Qed.

Lemma continuous_zero_mean :
  (2 ≤ length bins)%nat →
  ∃ f s', run = (inr f, s') ∧ zero_mean_continuous f.
Proof.
  intros Hlen.
  destruct continuous_returns as (b0 & f & Hb0 & Hrun & Hf & Hge).
  exists f, s_end. split; [done|].
  destruct (continuous_table_columns CI_estimate d b0 include_CI C pct level)
    as (f' & Hf' & _ & Hsize & Heff & _).
  rewrite Hf in Hf'. injection Hf' as <-.
  pose proof (key_above_anchor predict quantile_ied s X feature grid_size dfX xs bins
                input contract b0 Hb0 Hlen) as Hkv.
  destruct (total_size_pos d b0 Hge (row_above_anchor d b0 Hkv))
    as (c & a & t & Hm & HS & Ha & He & Hin & Hs & Hpos & Hc).
  destruct (centered_mean_zero c a t Ha He Hpos Hc) as (mu & Hmu & Hmu0).
  exists (List.map aux (a :: t)), (List.map (λ r, (eff r - c)%Q) (a :: t)), mu.
  rewrite Hsize, Heff, HS, Hm, !List.map_map. done.
Qed.

Lemma continuous_constant_model :
  (2 ≤ length bins)%nat → constant_model predict →
  ∃ f s', run = (inr f, s') ∧ all_eff_zero f.
Proof.
  intros Hlen (v & Hv).
  destruct continuous_returns as (b0 & f & Hb0 & Hrun & Hf & Hge).
  exists f, s_end. split; [done|].
  destruct (continuous_table_columns CI_estimate d b0 include_CI C pct level)
    as (f' & Hf' & _ & _ & Heff & _).
  rewrite Hf in Hf'. injection Hf' as <-.
  pose proof (key_above_anchor predict quantile_ied s X feature grid_size dfX xs bins
                input contract b0 Hb0 Hlen) as Hkv.
  destruct (total_size_pos d b0 Hge (row_above_anchor d b0 Hkv))
    as (c & a & t & Hm & HS & Ha & He & Hin & Hs & Hpos & Hc).
  assert (Hd0 : Forall (λ kv, (snd kv == 0)%Q) d).
  { apply Forall_forall. intros [k y] Hky. apply elem_of_zip_r in Hky.
    apply elem_of_zip_with in Hky as (y2 & y1 & -> & H2 & H1). simpl.
    rewrite (Hv _ _ (proj1 (list_elem_of_In _ _) H2)).
    rewrite (Hv _ _ (proj1 (list_elem_of_In _ _) H1)). ring. }
  assert (Ht0 : Forall (λ r, (eff r == 0)%Q) t).
  { pose proof (accumulate_eff_zero d Hd0) as Hacc.
    rewrite Forall_forall in Hacc, Hin. apply Forall_forall.
    intros r Hr. by apply Hacc, list_elem_of_In, Hin. }
  assert (Hc0 : (c == 0)%Q).
  { pose proof (Qsum_zero _ (mv_terms_zero 0 t (Qeq_refl 0) Ht0)) as HN.
    rewrite HN in Hc. apply Qmult_integral in Hc as [?|HD]; [done|]. lra. }
  exists (List.map (λ r, (eff r - c)%Q) (a :: t)).
  split; [rewrite Heff, HS, Hm, !List.map_map; done|].
  apply Forall_map. constructor.
  - simpl. rewrite He, Hc0. ring.
  - eapply Forall_impl; [exact Ht0|]. intros r Hr; simpl in *.
    rewrite Hr, Hc0. ring.
Qed.
End ContinuousClaims.

Section ContinuousCI.
Variable predict : DataFrame → list Q.
Variable quantile_ied : list Q → list Q → list Q.
Variable CI_estimate : list Q → spec_float → cell.
Variable legacy_cut : bool.
Variables (s : state) (X : nat) (feature : string) (grid_size : Z).
Variables (dfX : DataFrame) (xs bins : list Q).
Variables (C : spec_float) (pct : Z).
Hypothesis input : continuous_input quantile_ied s X feature grid_size dfX xs bins.
Hypothesis contract : model_contract predict feature.
Hypothesis level : pct_of C = inr pct.
Hypothesis accepted : legacy_cut = false ∨ (2 ≤ length bins)%nat.
Hypothesis provider : ci_contract CI_estimate C.

Lemma continuous_ci_ordered :
  ∃ f s',
    aleplot_1D_continuous predict quantile_ied CI_estimate legacy_cut X feature grid_size
      true C s = (inr f, s') ∧
    ci_ordered CI_estimate (delta_table predict dfX feature bins xs) C pct f.
Proof.
  set (d := delta_table predict dfX feature bins xs).
  destruct (continuous_returns predict quantile_ied CI_estimate legacy_cut s X feature
              grid_size dfX xs bins true C pct input contract level accepted)
    as (b0 & f & Hb0 & Hrun & Hf & Hge).
  fold d in Hf, Hge. eexists f, _. split; [exact Hrun|].
  destruct (continuous_table_columns CI_estimate d b0 true C pct level)
    as (f' & Hf' & Hidx & Hsize & Heff & HCI).
  rewrite Hf in Hf'. injection Hf' as <-.
  destruct (HCI eq_refl) as [Hlow Hup]. clear HCI.
  unfold lowerCI_name in Hlow. unfold upperCI_name in Hup.
  eexists _, _, _, _. split; [exact Hsize|]. split; [exact Heff|].
  split; [exact Hlow|]. split; [exact Hup|].
  intros i n Hi Hn. rewrite lookup_map in Hi.
  destruct (sort_index (loc_zero b0 (accumulate d)) !! i) as [r|] eqn:Er;
    [|done]. simpl in Hi. injection Hi as Hi.
  destruct (centering_core d b0 Hge)
    as (a & t & HS & Ha & He & Hb0a & Hin & _ & Hs & _).
  assert (Hrt : In r t).
  { rewrite HS in Er. destruct i as [|j]; simpl in Er.
    - injection Er as <-. rewrite Ha in Hi. subst n. lra.
    - by eapply list_elem_of_In, list_elem_of_lookup_2. }
  rewrite Forall_forall in Hin.
  pose proof (Hin r (proj2 (list_elem_of_In _ _) Hrt)) as Hracc.
  destruct (accumulate_row d r Hracc) as [Hkey Haux].
  assert (Hlt : klt (label a) (label r)).
  { simpl in Hs. apply StronglySorted_inv in Hs as [_ Hall].
    rewrite Forall_forall in Hall. apply Hall, list_elem_of_In, in_map, Hrt. }
  assert (Hne : ¬ keq b0 (label r)).
  { intros E. apply (klt_not_keq _ _ Hlt).
    eapply keq_trans; [apply keq_sym; exact Hb0a | exact E]. }
  assert (H1 : (1 <= aux r)%Q) by (rewrite Hi; lra).
  destruct (total_size_pos d b0 Hge (ex_intro _ r (conj Hracc (conj Hne H1))))
    as (c & a' & t' & Hm & _).
  assert (Hlen : (2 ≤ length (group (label r) d))%nat).
  { rewrite Hi in Haux. rewrite Haux in Hn.
    change 2%Q with (inject_Z 2) in Hn. rewrite <- Zle_Qle in Hn. lia. }
  destruct (provider _ Hlen) as (hw & Hhw & Hpos).
  exists (label r), (eff r - c)%Q, hw.
  rewrite Hidx, !lookup_map, Er. simpl.
  rewrite Hm, (ci_est_lookup CI_estimate d C _ Hkey), Hhw. simpl.
  repeat split; try done; lra.
Qed.
End ContinuousCI.

(** Every key of the delta table has its row in the sorted table. *)
Lemma key_row (d : list (Q * Q)) (b0 k : Q) :
  Forall (λ kv, (b0 <= fst kv)%Q) d → In k (group_keys d) →
  ∃ i r,
    sort_index (loc_zero b0 (accumulate d)) !! i = Some r ∧ label r = k ∧
    ((b0 < k)%Q → aux r = inject_Z (Z.of_nat (length (group k d)))).
Proof.
  intros Hge Hk.
  destruct (accumulate_has_row d k Hk) as (r & Hr & Hl).
  destruct (loc_zero_shape b0 (accumulate d) (accumulate_sorted d) (accumulate_ge d b0 Hge))
    as (a & t & HS & _ & _ & Hb0a & Hlt & _ & Hcov & _ & Hshape).
  rewrite HS. rewrite Forall_forall in Hcov.
  assert (Hint : In r t → ∃ i r', (a :: t) !! i = Some r' ∧ label r' = k ∧
            ((b0 < k)%Q → aux r' = inject_Z (Z.of_nat (length (group k d))))).
  { intros Hrt. apply list_elem_of_In, list_elem_of_lookup_1 in Hrt as (j & Hj).
    exists (S j), r. split; [exact Hj|]. split; [done|]. intros _.
    destruct (accumulate_row d r Hr) as [_ ->]. by rewrite Hl. }
  destruct (Hcov r (proj2 (list_elem_of_In _ _) Hr)) as [Heq|Hrt]; [|by apply Hint].
  destruct Hshape as [[Hz (r0 & Hl0)]|[_ Hl0]].
  - rewrite Hl0 in Hr. destruct Hr as [->|Hrt]; [|by apply Hint].
    exists 0%nat, a. split; [done|]. split.
    + rewrite Hl0 in Hz. unfold loc_zero in Hz.
      destruct (has_label b0 (r :: t)); cbn [List.map app] in Hz;
        injection Hz as <- _; [|done].
      by destruct (keqb b0 (label r)).
    + intros Hlt'. exfalso. rewrite Hl in Heq. apply keq_Q in Heq. lra.
  - rewrite Hl0 in Hr. by apply Hint.
Qed.

Section ContinuousCIRows.
Variable predict : DataFrame → list Q.
Variable quantile_ied : list Q → list Q → list Q.
Variable CI_estimate : list Q → spec_float → cell.
Variable legacy_cut : bool.
Variables (s : state) (X : nat) (feature : string) (grid_size : Z).
Variables (dfX : DataFrame) (xs bins : list Q).
Variables (C : spec_float) (pct : Z).
Hypothesis input : continuous_input quantile_ied s X feature grid_size dfX xs bins.
Hypothesis contract : model_contract predict feature.
Hypothesis level : pct_of C = inr pct.
Hypothesis edges : (2 ≤ length bins)%nat.
Hypothesis provider : ci_contract CI_estimate C.

Lemma continuous_ci_rows :
  ∃ b0 f s',
    kmin bins = Some b0 ∧
    aleplot_1D_continuous predict quantile_ied CI_estimate legacy_cut X feature grid_size
      true C s = (inr f, s') ∧
    ci_rows CI_estimate (delta_table predict dfX feature bins xs) b0 C pct f.
Proof.
  set (d := delta_table predict dfX feature bins xs).
  destruct (continuous_returns predict quantile_ied CI_estimate legacy_cut s X feature
              grid_size dfX xs bins true C pct input contract level (or_intror edges))
    as (b0 & f & Hb0 & Hrun & Hf & Hge).
  fold d in Hf, Hge. eexists b0, f, _. split; [exact Hb0|]. split; [exact Hrun|].
  destruct (continuous_table_columns CI_estimate d b0 true C pct level)
    as (f' & Hf' & Hidx & Hsize & Heff & HCI).
  rewrite Hf in Hf'. injection Hf' as <-.
  destruct (HCI eq_refl) as [Hlow Hup]. clear HCI.
  unfold lowerCI_name in Hlow. unfold upperCI_name in Hup.
  pose proof (key_above_anchor predict quantile_ied s X feature grid_size dfX xs bins
                input contract b0 Hb0 edges) as Hkv.
  destruct (total_size_pos d b0 Hge (row_above_anchor d b0 Hkv)) as (c & _ & _ & Hm & _).
  eexists _, _, _, _. split; [exact Hsize|]. split; [exact Heff|].
  split; [exact Hlow|]. split; [exact Hup|].
  rewrite Hidx, !List.length_map. do 4 (split; [reflexivity|]).
  intros k Hk Hlen.
  destruct (key_row d b0 k Hge Hk) as (i & r & Hi & Hl & Haux).
  destruct (provider _ Hlen) as (hw & Hhw & Hpos).
  exists i, (eff r - c)%Q, hw.
  rewrite !lookup_map, Hi. simpl.
  rewrite Hm, Hl, (ci_est_lookup CI_estimate d C _ Hk), Hhw. simpl.
  split; [done|]. split; [by intros ->%Haux|].
  repeat split; try done; lra.
Qed.
End ContinuousCIRows.

Section SingleEdge.
Variable predict : DataFrame → list Q.
Variable quantile_ied : list Q → list Q → list Q.
Variable CI_estimate : list Q → spec_float → cell.
Variable legacy_cut : bool.
Variables (s : state) (X : nat) (feature : string) (grid_size : Z).
Variables (dfX : DataFrame) (xs bins : list Q).
Variables (include_CI : bool) (C : spec_float) (pct : Z).
Hypothesis input : continuous_input quantile_ied s X feature grid_size dfX xs bins.
Hypothesis contract : model_contract predict feature.
Hypothesis level : pct_of C = inr pct.
Hypothesis degenerate : (length bins < 2)%nat.

Lemma single_edge : ∃ b, bins = [b].
Proof.
  pose proof (bins_nonempty quantile_ied s X feature grid_size dfX xs bins input).
  destruct bins as [|b [|? ?]]; try done; [by exists b | simpl in degenerate; lia].
Qed.

Lemma single_edge_codes (b x : Q) : cut_code [b] x = -1.
Proof.
  unfold cut_code, searchsorted_left. simpl.
  destruct (keqb x b); [done|]. by destruct (kltb b x).
Qed.

Lemma single_edge_tables (b : Q) :
  bins = [b] →
  lower_table dfX feature bins xs = <[feature := FloatCol (List.map (λ _, b) xs)]> dfX ∧
  upper_table dfX feature bins xs = <[feature := FloatCol (List.map (λ _, b) xs)]> dfX.
Proof.
  intros ->. unfold lower_table, upper_table, upper_keys, cut_codes.
  rewrite !List.map_map.
  split; do 2 f_equal; apply List.map_ext; intros x;
    by rewrite single_edge_codes.
Qed.

(** Where [pd.cut] rejects a single edge, its [IndexError] ends the run
    before the model is called. *)
Lemma continuous_single_edge_legacy :
  legacy_cut = true →
  fails_before_predict "IndexError"
    (aleplot_1D_continuous predict quantile_ied CI_estimate legacy_cut X feature
       grid_size include_CI C) s.
Proof.
  intros ->.
  destruct input as (col & qs & mn & HX & Hcol & Hxs & Hgrid & Hmin & Hbins).
  assert (Hrun : aleplot_1D_continuous predict quantile_ied CI_estimate true X feature
                   grid_size include_CI C s = (inl "IndexError", s)).
  { unfold aleplot_1D_continuous.
    erewrite bind_ok by (unfold lift; by rewrite Hgrid).
    erewrite bind_ok by (unfold load; by rewrite HX).
    erewrite bind_ok by (unfold getcol; by rewrite Hcol).
    rewrite <- Hxs.
    erewrite bind_ok by (unfold bin_edges; by rewrite Hmin).
    rewrite <- Hbins.
    erewrite bind_err; [reflexivity|].
    unfold pd_cut_codes.
    assert ((length bins <? 2)%nat = true) as -> by (by apply Nat.ltb_lt).
    reflexivity. }
  unfold fails_before_predict. by rewrite Hrun.
Qed.

(** Where [pd.cut] accepts a single edge nothing is raised: the model is
    called twice, on tables whose feature column holds that edge in every
    row, and the table that is returned has the anchor row only, with
    size 0 and an undefined effect. *)
Lemma continuous_single_edge :
  legacy_cut = false →
  ∃ b f,
    bins = [b] ∧
    aleplot_1D_continuous predict quantile_ied CI_estimate legacy_cut X feature grid_size
      include_CI C s =
    (inr f,
     State (heap s ++ [<[feature := FloatCol (List.map (λ _, b) xs)]> dfX;
                       <[feature := FloatCol (List.map (λ _, b) xs)]> dfX])
           (calls s ++ [<[feature := FloatCol (List.map (λ _, b) xs)]> dfX;
                        <[feature := FloatCol (List.map (λ _, b) xs)]> dfX])) ∧
    index f = [b] ∧
    get_column "size" (columns f) = Some [Some 0%Q] ∧
    get_column "eff" (columns f) = Some [None].
Proof.
  intros Hmodern.
  destruct single_edge as (b & Hb).
  destruct (single_edge_tables b Hb) as [Hlo Hup].
  destruct (continuous_returns predict quantile_ied CI_estimate legacy_cut s X feature
              grid_size dfX xs bins include_CI C pct input contract level
              (or_introl Hmodern))
    as (b0 & f & Hb0 & Hrun & Hf & Hge).
  assert (b0 = b) as -> by (rewrite Hb in Hb0; simpl in Hb0; congruence).
  exists b, f. split; [done|]. rewrite Hrun, Hlo, Hup. split; [done|].
  set (d := delta_table predict dfX feature bins xs) in *.
  destruct (continuous_table_columns CI_estimate d b include_CI C pct level)
    as (f' & Hf' & Hidx & Hsize & Heff & _).
  rewrite Hf in Hf'. injection Hf' as <-.
  assert (Hd : d ≠ [] ∧ Forall (λ kv, fst kv = b) d).
  { split.
    - intros Hnil.
      pose proof (delta_table_length predict feature dfX xs bins contract) as Hl.
      fold d in Hl. rewrite Hnil in Hl.
      destruct input as (col & qs & mn & _ & _ & _ & _ & Hmin & _).
      destruct xs; [done | simpl in Hl; lia].
    - apply Forall_forall. intros [k v] Hkv. apply elem_of_zip_l in Hkv. simpl.
      apply list_elem_of_In in Hkv.
      assert (Hne : bins ≠ []) by (rewrite Hb; done).
      pose proof (upper_keys_In bins xs k Hne Hkv) as Hk.
      rewrite Hb in Hk. by destruct Hk as [->|[]]. }
  destruct Hd as [Hne Hall].
  destruct (single_key_table d b Hne Hall) as [HS Hm].
  by rewrite Hidx, Hsize, Heff, HS, Hm.
Qed.
End SingleEdge.

(** ** Integer-coded levels *)

Lemma np_getitem_coded (K : nat) (i : Z) (s : state) :
  0 ≤ i < Z.of_nat K →
  np_getitem (List.map Z.of_nat (seq 0 K)) i s = (inr i, s).
Proof.
  intros Hi. unfold np_getitem. rewrite List.length_map, length_seq. cbv zeta.
  destruct (i <? - Z.of_nat K) eqn:E1; [lia|].
  destruct (Z.of_nat K <=? i) eqn:E2; [lia|]. cbn [orb].
  destruct (i <? 0) eqn:E3; [lia|].
  rewrite lookup_map, lookup_seq_lt by lia. simpl.
  unfold mret, M_ret. f_equal. f_equal. lia.
Qed.

Lemma np_take_coded (K : nat) (idx : list Z) (s : state) :
  Forall (λ i, 0 ≤ i < Z.of_nat K) idx →
  np_take (List.map Z.of_nat (seq 0 K)) idx s = (inr idx, s).
Proof.
  unfold np_take. induction 1 as [|i idx Hi Hidx IH]; [done|].
  cbn [mapM].
  erewrite bind_ok by (by apply np_getitem_coded).
  erewrite bind_ok by exact IH. done.
Qed.

Lemma coded_bounds (xs : list Z) (K : nat) (x : Z) :
  coded_levels xs K → In x xs → 0 ≤ x < Z.of_nat K.
Proof.
  intros Hc Hx.
  assert (Hex : Exists (keq x) (np_unique xs)).
  { apply np_unique_Exists, Exists_exists. exists x.
    split; [by apply list_elem_of_In | apply keq_refl]. }
  rewrite Hc in Hex. apply Exists_exists in Hex as (y & Hy & Exy).
  apply keq_Z in Exy as <-.
  apply list_elem_of_In, in_map_iff in Hy as (j & <- & Hj).
  apply in_seq in Hj. lia.
Qed.

Lemma coded_member (xs : list Z) (K : nat) (k : Z) :
  coded_levels xs K → 0 ≤ k < Z.of_nat K → In k xs.
Proof.
  intros Hc Hk. apply np_unique_In. rewrite Hc.
  apply in_map_iff. exists (Z.to_nat k). split; [lia|]. apply in_seq. lia.
Qed.

Lemma coded_max (xs : list Z) (K : nat) :
  coded_levels xs K → (1 ≤ K)%nat → max_level xs = Z.of_nat K - 1.
Proof.
  intros Hc HK. unfold max_level. rewrite Hc.
  destruct K as [|K]; [lia|]. rewrite seq_S, List.map_app. simpl.
  rewrite last_snoc. simpl. lia.
Qed.

Lemma coded_min (xs : list Z) (K : nat) :
  coded_levels xs K → (1 ≤ K)%nat → min_level xs = 0.
Proof.
  intros Hc HK. unfold min_level. rewrite Hc. by destruct K as [|K]; [lia|].
Qed.

Lemma filter_all {A : Type} (f : A → bool) (l : list A) :
  Forall (λ x, f x = true) l → List.filter f l = l.
Proof. induction 1 as [|x l Hx Hl IH]; simpl; [done | by rewrite Hx, IH]. Qed.

Lemma filter_none {A : Type} (f : A → bool) (l : list A) :
  Forall (λ x, f x = false) l → List.filter f l = [].
Proof. induction 1 as [|x l Hx Hl IH]; simpl; [done | by rewrite Hx, IH]. Qed.

Lemma coded_split (K : nat) (j : nat) :
  (j ≤ K)%nat →
  List.map Z.of_nat (seq 0 K) =
  List.map Z.of_nat (seq 0 j) ++ List.map Z.of_nat (seq j (K - j)).
Proof.
  intros Hj. replace K with (j + (K - j))%nat at 1 by lia.
  by rewrite seq_app, List.map_app.
Qed.

Lemma coded_next (K : nat) (x : Z) :
  0 ≤ x < Z.of_nat K - 1 →
  next_level (List.map Z.of_nat (seq 0 K)) x = Some (x + 1).
Proof.
  intros Hx. unfold next_level.
  rewrite (coded_split K (S (Z.to_nat x))) by lia.
  rewrite List.filter_app, filter_none.
  - destruct (K - S (Z.to_nat x))%nat as [|m] eqn:Em; [lia|].
    cbn [seq List.map List.filter app].
    assert ((x <? Z.of_nat (S (Z.to_nat x))) = true) as ->
      by (apply Z.ltb_lt; lia).
    cbn [head]. f_equal. lia.
  - apply Forall_map, Forall_forall. intros j Hj%list_elem_of_In%in_seq.
    apply Z.ltb_ge. lia.
Qed.

Lemma coded_prev (K : nat) (x : Z) :
  1 ≤ x < Z.of_nat K →
  prev_level (List.map Z.of_nat (seq 0 K)) x = Some (x - 1).
Proof.
  intros Hx. unfold prev_level.
  rewrite (coded_split K (Z.to_nat x)) by lia.
  rewrite List.filter_app, filter_all, (filter_none _ (List.map _ (seq (Z.to_nat x) _))).
  - rewrite app_nil_r.
    destruct (Z.to_nat x) as [|m] eqn:Em; [lia|].
    rewrite seq_S, List.map_app. cbn [List.map]. rewrite last_snoc. f_equal. lia.
  - apply Forall_map, Forall_forall. intros j Hj%list_elem_of_In%in_seq.
    apply Z.ltb_ge. lia.
  - apply Forall_map, Forall_forall. intros j Hj%list_elem_of_In%in_seq.
    apply Z.ltb_lt. lia.
Qed.

(** ** Boolean masks *)

Lemma mask_select_map {A : Type} (f : A → bool) (l : list A) :
  mask_select (List.map f l) l = List.filter f l.
Proof. induction l as [|x l IH]; simpl; [done|]. by rewrite IH. Qed.

Lemma mask_select_length {A B : Type} (m : list bool) (l : list A) (k : list B) :
  length l = length m → length k = length m →
  length (mask_select m l) = length (mask_select m k).
Proof.
  revert l k. induction m as [|b m IH]; intros [|x l] [|y k]; simpl; try done.
  intros Hl Hk. destruct b; simpl; rewrite (IH l k); auto.
Qed.

Lemma mask_select_assign {A : Type} (m : list bool) (vals old : list A) :
  length old = length m → length vals = length (mask_select m old) →
  mask_select m (mask_assign m vals old) = vals.
Proof.
  revert vals old. induction m as [|b m IH]; intros vals [|x old]; simpl; try done.
  - intros _ Hv. by destruct vals.
  - intros Ho Hv. destruct b.
    + destruct vals as [|v vals]; [done|]. simpl in Hv. f_equal. apply IH; lia.
    + apply IH; [lia | done].
Qed.

Lemma select_rows_insert (m : list bool) (df : DataFrame) (feature : string)
  (c : column) :
  select_rows m (<[feature := c]> df) = <[feature := select_col m c]> (select_rows m df).
Proof. unfold select_rows. apply fmap_insert. Qed.

Lemma map_fst_zip {A B : Type} (ks : list A) (vs : list B) :
  length ks = length vs → List.map fst (zip ks vs) = ks.
Proof.
  revert vs. induction ks as [|k ks IH]; intros [|v vs] Hl; simpl in *; try done.
  f_equal. apply IH. lia.
Qed.

Lemma map_snd_zip {A B : Type} (ks : list A) (vs : list B) :
  length ks = length vs → List.map snd (zip ks vs) = vs.
Proof.
  revert vs. induction ks as [|k ks IH]; intros [|v vs] Hl; simpl in *; try done.
  f_equal. apply IH. lia.
Qed.

(** ** Indexing the levels *)

Lemma copies_made (s : state) (X : nat) (dfX : DataFrame) :
  heap s !! X = Some dfX →
  df_copy X s = (inr (length (heap s)), State (heap s ++ [dfX]) (calls s)) ∧
  df_copy X (State (heap s ++ [dfX]) (calls s)) =
    (inr (S (length (heap s))), State (heap s ++ [dfX; dfX]) (calls s)).
Proof.
  intros HX. unfold df_copy. split.
  - erewrite bind_ok by (unfold load; by rewrite HX). reflexivity.
  - erewrite bind_ok
      by (unfold load; cbn [heap];
          rewrite lookup_app_l by (by eapply lookup_lt_Some); by rewrite HX).
    unfold alloc. cbn [heap calls]. rewrite <- app_assoc. cbn [app].
    rewrite length_app. cbn [length]. by rewrite Nat.add_1_r.
Qed.

Lemma np_getitem_head {A : Type} (l : list A) (v : A) (s : state) :
  head l = Some v → np_getitem l 0 s = (inr v, s).
Proof.
  destruct l as [|x l]; [done|]. intros [= ->]. unfold np_getitem. cbv zeta.
  assert (H1 : 1 ≤ Z.of_nat (length (v :: l))) by (cbn [length]; lia).
  destruct (0 <? - Z.of_nat (length (v :: l))) eqn:E1; [lia|].
  destruct (Z.of_nat (length (v :: l)) <=? 0) eqn:E2; [lia|].
  reflexivity.
Qed.

Lemma np_getitem_end {A : Type} (l : list A) (v : A) (s : state) :
  last l = Some v → np_getitem l (Z.of_nat (length l) - 1) s = (inr v, s).
Proof.
  intros Hlast. unfold np_getitem. cbv zeta.
  assert (Hlen : (0 < length l)%nat) by (destruct l; [done | simpl; lia]).
  destruct (Z.of_nat (length l) - 1 <? - Z.of_nat (length l)) eqn:E1; [lia|].
  destruct (Z.of_nat (length l) <=? Z.of_nat (length l) - 1) eqn:E2; [lia|].
  destruct (Z.of_nat (length l) - 1 <? 0) eqn:E3; [lia|]. cbn [orb].
  replace (Z.to_nat (Z.of_nat (length l) - 1)) with (pred (length l)) by lia.
  rewrite last_lookup in Hlast. by rewrite Hlast.
Qed.

Lemma mask_select_member {A : Type} (f : A → bool) (l : list A) (x : A) :
  In x l → f x = true → In x (mask_select (List.map f l) l).
Proof. intros Hin Hf. rewrite mask_select_map. apply filter_In. by split. Qed.

Lemma np_getitem_cases {A : Type} (a : list A) (i : Z) (s : state) :
  (in_bounds a i ∧ ∃ v, np_getitem a i s = (inr v, s)) ∨
  (¬ in_bounds a i ∧ np_getitem a i s = (inl "IndexError", s)).
Proof.
  unfold np_getitem, in_bounds. cbv zeta.
  destruct (i <? - Z.of_nat (length a)) eqn:E1; [right; split; [lia | done]|].
  destruct (Z.of_nat (length a) <=? i) eqn:E2; [right; split; [lia | done]|].
  cbn [orb]. left. split; [lia|].
  destruct (a !! Z.to_nat (if i <? 0 then i + Z.of_nat (length a) else i)) as [v|] eqn:Ev.
  - by exists v.
  - apply lookup_ge_None in Ev. destruct (i <? 0) eqn:E; lia.
Qed.

Lemma np_take_cases {A : Type} (a : list A) (idx : list Z) (s : state) :
  (Forall (in_bounds a) idx ∧ ∃ l, np_take a idx s = (inr l, s)) ∨
  (Exists (λ i, ¬ in_bounds a i) idx ∧ np_take a idx s = (inl "IndexError", s)).
Proof.
  unfold np_take. induction idx as [|i idx IH]; [left; split; [done | by exists []]|].
  cbn [mapM].
  destruct (np_getitem_cases a i s) as [[Hi (v & Hv)]|[Hi Hv]].
  - erewrite bind_ok by exact Hv.
    destruct IH as [[Hall (l & Hl)]|[Hex Hl]].
    + left. split; [by constructor|]. exists (v :: l).
      erewrite bind_ok by exact Hl. reflexivity.
    + right. split; [by right|]. erewrite bind_err by exact Hl. reflexivity.
  - right. split; [by left|]. erewrite bind_err by exact Hv. reflexivity.
Qed.

Lemma np_getitem_first (x : Z) (l : list Z) (s : state) :
  np_getitem (x :: l) 0 s = (inr x, s).
Proof.
  unfold np_getitem. cbv zeta.
  assert (H1 : 1 ≤ Z.of_nat (length (x :: l))) by (cbn [length]; lia).
  destruct (0 <? - Z.of_nat (length (x :: l))) eqn:E1; [lia|].
  destruct (Z.of_nat (length (x :: l)) <=? 0) eqn:E2; [lia|].
  reflexivity.
Qed.

Lemma np_getitem_last (l : list Z) (s : state) :
  l ≠ [] →
  np_getitem l (Z.of_nat (length l) - 1) s = (inr (default 0 (last l)), s).
Proof.
  intros Hne. unfold np_getitem. cbv zeta.
  assert (Hlen : (0 < length l)%nat) by (destruct l; [done | simpl; lia]).
  destruct (Z.of_nat (length l) - 1 <? - Z.of_nat (length l)) eqn:E1; [lia|].
  destruct (Z.of_nat (length l) <=? Z.of_nat (length l) - 1) eqn:E2; [lia|].
  destruct (Z.of_nat (length l) - 1 <? 0) eqn:E3; [lia|]. cbn [orb].
  replace (Z.to_nat (Z.of_nat (length l) - 1)) with (pred (length l)) by lia.
  rewrite last_lookup.
  destruct (l !! pred (length l)) eqn:E; [done|]. apply lookup_ge_None in E. lia.
Qed.

Lemma mask_select_In {A : Type} (f : A → bool) (l : list A) (x : A) :
  In x l → f x = true → In x (mask_select (List.map f l) l).
Proof. intros Hin Hf. rewrite mask_select_map. apply filter_In. by split. Qed.

(** ** The run of the discrete estimator on integer-coded levels *)

Section DiscreteRun.
Variable predict : DataFrame → list Q.
Variables (s : state) (X : nat) (feature : string).
Variables (dfX : DataFrame) (xs : list Z) (K : nat).
Hypothesis input : discrete_input s X feature dfX xs.
Hypothesis contract : model_contract predict feature.
Hypothesis coded : coded_levels xs K.
Hypothesis levels : (1 ≤ K)%nat.

Lemma up_mask_coded : List.map (λ x, x <? Z.of_nat K - 1) xs = not_max xs.
Proof.
  unfold not_max. rewrite (coded_max xs K coded levels).
  apply List.map_ext_in. intros x Hx.
  pose proof (coded_bounds xs K x coded Hx).
  destruct (x =? Z.of_nat K - 1) eqn:E; simpl.
  - apply Z.eqb_eq in E. apply Z.ltb_ge. lia.
  - apply Z.eqb_neq in E. apply Z.ltb_lt. lia.
Qed.

Lemma down_mask_coded : List.map (λ x, 0 <? x) xs = not_min xs.
Proof.
  unfold not_min. rewrite (coded_min xs K coded levels).
  apply List.map_ext_in. intros x Hx.
  pose proof (coded_bounds xs K x coded Hx).
  destruct (x =? 0) eqn:E; simpl.
  - apply Z.eqb_eq in E. apply Z.ltb_ge. lia.
  - apply Z.eqb_neq in E. apply Z.ltb_lt. lia.
Qed.

Lemma not_max_selected (x : Z) :
  In x (mask_select (not_max xs) xs) → In x xs ∧ 0 ≤ x < Z.of_nat K - 1.
Proof.
  unfold not_max. rewrite mask_select_map, filter_In.
  rewrite (coded_max xs K coded levels). intros [Hx Hb].
  pose proof (coded_bounds xs K x coded Hx).
  apply negb_true_iff, Z.eqb_neq in Hb. split; [done | lia].
Qed.

Lemma not_min_selected (x : Z) :
  In x (mask_select (not_min xs) xs) → In x xs ∧ 1 ≤ x < Z.of_nat K.
Proof.
  unfold not_min. rewrite mask_select_map, filter_In.
  rewrite (coded_min xs K coded levels). intros [Hx Hb].
  pose proof (coded_bounds xs K x coded Hx).
  apply negb_true_iff, Z.eqb_neq in Hb. split; [done | lia].
Qed.

Lemma stated_plus_coded :
  select_rows (not_max xs)
    (<[feature := IntCol (mask_assign (not_max xs)
                            (List.map (λ x, x + 1) (mask_select (not_max xs) xs)) xs)]> dfX)
  = stated_plus dfX feature xs.
Proof.
  unfold stated_plus. rewrite select_rows_insert. f_equal. simpl. f_equal.
  rewrite mask_select_assign.
  - apply List.map_ext_in. intros x Hx%not_max_selected.
    rewrite coded, coded_next; [done | tauto].
  - unfold not_max. by rewrite List.length_map.
  - by rewrite List.length_map.
Qed.

Lemma stated_neg_coded :
  select_rows (not_min xs)
    (<[feature := IntCol (mask_assign (not_min xs)
                            (List.map (λ x, x - 1) (mask_select (not_min xs) xs)) xs)]> dfX)
  = stated_neg dfX feature xs.
Proof.
  unfold stated_neg. rewrite select_rows_insert. f_equal. simpl. f_equal.
  rewrite mask_select_assign.
  - apply List.map_ext_in. intros x Hx%not_min_selected.
    rewrite coded, coded_prev; [done | tauto].
  - unfold not_min. by rewrite List.length_map.
  - by rewrite List.length_map.
Qed.
End DiscreteRun.

Section DiscreteRunMain.
Variable predict : DataFrame → list Q.
Variables (s : state) (X : nat) (feature : string).
Variables (dfX : DataFrame) (xs : list Z) (K : nat).
Hypothesis input : discrete_input s X feature dfX xs.
Hypothesis contract : model_contract predict feature.
Hypothesis coded : coded_levels xs K.
Hypothesis levels : (1 ≤ K)%nat.

Lemma y_hat_length : length (predict dfX) = length xs.
Proof. destruct input as [_ Hcol]. by rewrite (contract _ _ Hcol). Qed.

Lemma y_hat_plus_length :
  length (predict (stated_plus dfX feature xs)) =
  length (mask_select (not_max xs) xs).
Proof.
  rewrite (contract _ (IntCol (List.map (λ x, default x (next_level (np_unique xs) x))
                                 (mask_select (not_max xs) xs))))
    by (unfold stated_plus; apply lookup_insert_eq).
  simpl. by rewrite List.length_map.
Qed.

Lemma y_hat_neg_length :
  length (predict (stated_neg dfX feature xs)) =
  length (mask_select (not_min xs) xs).
Proof.
  rewrite (contract _ (IntCol (List.map (λ x, default x (prev_level (np_unique xs) x))
                                 (mask_select (not_min xs) xs))))
    by (unfold stated_neg; apply lookup_insert_eq).
  simpl. by rewrite List.length_map.
Qed.

Lemma y_hat_not_max_length :
  length (mask_select (not_max xs) (predict dfX)) =
  length (mask_select (not_max xs) xs).
Proof.
  apply mask_select_length; unfold not_max; rewrite List.length_map;
    [apply y_hat_length | done].
Qed.

Lemma y_hat_not_min_length :
  length (mask_select (not_min xs) (predict dfX)) =
  length (mask_select (not_min xs) xs).
Proof.
  apply mask_select_length; unfold not_min; rewrite List.length_map;
    [apply y_hat_length | done].
Qed.

(** On integer-coded levels the estimator raises nothing: it perturbs
    two copies, calls the model on the whole table and on the selected
    rows of the two copies, and aggregates the keyed deltas. *)
Lemma discrete_run :
  ∃ obj_plus obj_neg,
    aleplot_1D_discrete predict X feature s =
    (inr (discrete_table (stated_deltas predict dfX feature xs) (groups_props xs)),
     State (heap s ++ [obj_plus; obj_neg])
           (calls s ++ [dfX; stated_plus dfX feature xs; stated_neg dfX feature xs])).
Proof.
  destruct input as [HX Hcol].
  eexists _, _. unfold aleplot_1D_discrete.
  erewrite bind_ok by (unfold load; by rewrite HX).
  erewrite bind_ok by (unfold getcol; by rewrite Hcol).
  erewrite bind_ok
    by (unfold df_copy; erewrite bind_ok by (unfold load; by rewrite HX); reflexivity).
  cbn [heap calls].
  erewrite bind_ok
    by (unfold df_copy;
        erewrite bind_ok
          by (unfold load; cbn [heap];
              rewrite lookup_app_l by (by eapply lookup_lt_Some); by rewrite HX);
        reflexivity).
  cbn [heap calls]. rewrite <- app_assoc. cbn [app].
  rewrite length_app. cbn [length]. rewrite Nat.add_1_r.
  cbv beta iota zeta. pose proof coded as Hg. unfold coded_levels in Hg.
  rewrite Hg, List.length_map, length_seq.
  erewrite bind_ok by (apply np_getitem_coded; lia).
  erewrite bind_ok by (apply np_getitem_coded; lia).
  rewrite (up_mask_coded xs K coded levels), (down_mask_coded xs K coded levels).
  erewrite bind_ok.
  2:{ apply np_take_coded, Forall_map, Forall_forall.
      intros x Hx%list_elem_of_In%(not_max_selected xs K coded levels). lia. }
  erewrite bind_ok.
  2:{ unfold loc_assign.
      erewrite bind_ok by (unfold load; cbn [heap]; by rewrite heap_lookup_fst).
      erewrite bind_ok by (unfold getcol; by rewrite Hcol).
      unfold store. cbv beta iota. cbn [heap calls]. rewrite heap_insert_fst.
      reflexivity. }
  erewrite bind_ok.
  2:{ apply np_take_coded, Forall_map, Forall_forall.
      intros x Hx%list_elem_of_In%(not_min_selected xs K coded levels). lia. }
  erewrite bind_ok.
  2:{ unfold loc_assign.
      erewrite bind_ok by (unfold load; cbn [heap]; by rewrite heap_lookup_snd).
      erewrite bind_ok by (unfold getcol; by rewrite Hcol).
      unfold store. cbv beta iota. cbn [heap calls]. rewrite heap_insert_snd.
      reflexivity. }
  erewrite bind_ok.
  2:{ unfold py_predict.
      erewrite bind_ok
        by (unfold load; cbn [heap];
            rewrite lookup_app_l by (by eapply lookup_lt_Some); by rewrite HX).
      reflexivity. }
  cbn [heap calls].
  erewrite bind_ok by (unfold load; cbn [heap]; by rewrite heap_lookup_fst).
  rewrite (stated_plus_coded feature dfX xs K coded levels).
  erewrite bind_ok by reflexivity.
  cbn [heap calls].
  erewrite bind_ok by (unfold load; cbn [heap]; by rewrite heap_lookup_snd).
  rewrite (stated_neg_coded feature dfX xs K coded levels).
  erewrite bind_ok by reflexivity.
  cbn [heap calls]. rewrite <- !app_assoc. cbn [app].
  erewrite bind_ok.
  2:{ unfold np_mask. unfold not_max at 1. rewrite List.length_map, y_hat_length.
      rewrite Nat.eqb_refl. reflexivity. }
  erewrite bind_ok.
  2:{ unfold np_sub. rewrite y_hat_plus_length, y_hat_not_max_length.
      rewrite Nat.eqb_refl. reflexivity. }
  erewrite bind_ok.
  2:{ unfold np_mask. unfold not_min at 1. rewrite List.length_map, y_hat_length.
      rewrite Nat.eqb_refl. reflexivity. }
  erewrite bind_ok.
  2:{ unfold np_sub. rewrite y_hat_neg_length, y_hat_not_min_length.
      rewrite Nat.eqb_refl. reflexivity. }
  erewrite bind_ok.
  2:{ unfold delta_frame.
      rewrite List.length_map, length_zip_with, y_hat_plus_length, y_hat_not_max_length.
      rewrite Nat.min_id, Nat.eqb_refl. reflexivity. }
  erewrite bind_ok.
  2:{ unfold delta_frame.
      rewrite length_zip_with, y_hat_neg_length, y_hat_not_min_length.
      rewrite Nat.min_id, Nat.eqb_refl. reflexivity. }
  reflexivity.
Qed.
End DiscreteRunMain.

(** ** The run of the discrete estimator on any levels within bounds *)

Lemma mask_assign_length {A : Type} (m : list bool) (vals old : list A) :
  length (mask_assign m vals old) = length old.
Proof.
  revert vals old. induction m as [|b m IH]; intros vals old; [done|].
  destruct old as [|x old]; [by destruct b|].
  destruct b; [destruct vals as [|v vals]|]; cbn [mask_assign length];
    by rewrite ?IH.
Qed.

Section DiscreteAnyLevels.
Variable predict : DataFrame → list Q.
Variables (s : state) (X : nat) (feature : string).
Variables (dfX : DataFrame) (xs : list Z).
Hypothesis input : discrete_input s X feature dfX xs.
Hypothesis contract : model_contract predict feature.
Hypothesis rows : xs ≠ [].
Hypothesis bounded : levels_in_bounds xs.

(** On a column of integers with at least one row, whose values index
    the levels within bounds, the estimator raises nothing: it returns
    the table of some deltas under the level proportions, after three
    calls of the model. *)
Lemma discrete_returns_in_bounds :
  ∃ d s',
    aleplot_1D_discrete predict X feature s =
      (inr (discrete_table d (groups_props xs)), s') ∧
    length (calls s') = (length (calls s) + 3)%nat.
Proof.
  destruct input as [HX Hcol].
  destruct (copies_made s X dfX HX) as [Hc1 Hc2].
  assert (Hne : np_unique xs ≠ []).
  { destruct xs as [|y xs']; [done | apply np_unique_nonempty]. }
  unfold aleplot_1D_discrete.
  erewrite bind_ok by (unfold load; by rewrite HX).
  erewrite bind_ok by (unfold getcol; by rewrite Hcol).
  erewrite bind_ok by exact Hc1.
  erewrite bind_ok by exact Hc2.
  cbv beta iota zeta.
  erewrite bind_ok by (by apply np_getitem_last).
  fold (max_level xs).
  assert (Hmin : ∀ s0, np_getitem (np_unique xs) 0 s0 = (inr (min_level xs), s0)).
  { intros s0. unfold min_level. destruct (np_unique xs) as [|g gs]; [done|].
    apply np_getitem_first. }
  erewrite bind_ok by apply Hmin.
  set (ind_plus := List.map (λ y, y <? max_level xs) xs).
  set (ind_neg := List.map (λ y, min_level xs <? y) xs).
  assert (Lp : length ind_plus = length xs) by apply List.length_map.
  assert (Ln : length ind_neg = length xs) by apply List.length_map.
  destruct (np_take_cases (np_unique xs)
              (List.map (λ y, y + 1) (mask_select ind_plus xs))
              (State (heap s ++ [dfX; dfX]) (calls s)))
    as [[_ (up & Hup)]|[Hex _]].
  2:{ exfalso. apply Exists_exists in Hex as (i & Hi & Hout). apply Hout.
      apply list_elem_of_In, in_map_iff in Hi as (x & <- & Hx).
      unfold ind_plus in Hx. rewrite mask_select_map in Hx.
      apply filter_In in Hx as [Hx Hlt]. apply Z.ltb_lt in Hlt.
      by apply (bounded x Hx). }
  erewrite bind_ok by exact Hup.
  erewrite bind_ok.
  2:{ unfold loc_assign.
      erewrite bind_ok by (unfold load; cbn [heap]; by rewrite heap_lookup_fst).
      erewrite bind_ok by (unfold getcol; by rewrite Hcol).
      unfold store. cbv beta iota. cbn [heap calls]. rewrite heap_insert_fst.
      reflexivity. }
  destruct (np_take_cases (np_unique xs)
              (List.map (λ y, y - 1) (mask_select ind_neg xs))
              (State (heap s ++ [<[feature := IntCol (mask_assign ind_plus up xs)]> dfX; dfX])
                     (calls s)))
    as [[_ (down & Hdown)]|[Hex _]].
  2:{ exfalso. apply Exists_exists in Hex as (i & Hi & Hout). apply Hout.
      apply list_elem_of_In, in_map_iff in Hi as (x & <- & Hx).
      unfold ind_neg in Hx. rewrite mask_select_map in Hx.
      apply filter_In in Hx as [Hx Hlt]. apply Z.ltb_lt in Hlt.
      by apply (bounded x Hx). }
  erewrite bind_ok by exact Hdown.
  erewrite bind_ok.
  2:{ unfold loc_assign.
      erewrite bind_ok by (unfold load; cbn [heap]; by rewrite heap_lookup_snd).
      erewrite bind_ok by (unfold getcol; by rewrite Hcol).
      unfold store. cbv beta iota. cbn [heap calls]. rewrite heap_insert_snd.
      reflexivity. }
  erewrite bind_ok.
  2:{ unfold py_predict.
      erewrite bind_ok
        by (unfold load; cbn [heap];
            rewrite lookup_app_l by (by eapply lookup_lt_Some); by rewrite HX).
      reflexivity. }
  cbn [heap calls].
  erewrite bind_ok by (unfold load; cbn [heap]; by rewrite heap_lookup_fst).
  erewrite bind_ok by reflexivity.
  cbn [heap calls].
  erewrite bind_ok by (unfold load; cbn [heap]; by rewrite heap_lookup_snd).
  erewrite bind_ok by reflexivity.
  cbn [heap calls]. rewrite <- !app_assoc. cbn [app].
  set (t_plus := select_rows ind_plus (<[feature := IntCol (mask_assign ind_plus up xs)]> dfX)).
  set (t_neg := select_rows ind_neg (<[feature := IntCol (mask_assign ind_neg down xs)]> dfX)).
  assert (Hy : length (predict dfX) = length xs) by (by rewrite (contract _ _ Hcol)).
  assert (Hyp : length (predict t_plus) = length (mask_select ind_plus xs)).
  { rewrite (contract _ (IntCol (mask_select ind_plus (mask_assign ind_plus up xs)))).
    - simpl. apply mask_select_length; by rewrite ?mask_assign_length.
    - unfold t_plus, select_rows. by rewrite lookup_fmap, lookup_insert_eq. }
  assert (Hyn : length (predict t_neg) = length (mask_select ind_neg xs)).
  { rewrite (contract _ (IntCol (mask_select ind_neg (mask_assign ind_neg down xs)))).
    - simpl. apply mask_select_length; by rewrite ?mask_assign_length.
    - unfold t_neg, select_rows. by rewrite lookup_fmap, lookup_insert_eq. }
  assert (Hsp : length (mask_select ind_plus (predict dfX)) =
                length (mask_select ind_plus xs))
    by (apply mask_select_length; lia).
  assert (Hsn : length (mask_select ind_neg (predict dfX)) =
                length (mask_select ind_neg xs))
    by (apply mask_select_length; lia).
  erewrite bind_ok.
  2:{ unfold np_mask. rewrite Lp, Hy, Nat.eqb_refl. reflexivity. }
  erewrite bind_ok.
  2:{ unfold np_sub. rewrite Hyp, Hsp, Nat.eqb_refl. reflexivity. }
  erewrite bind_ok.
  2:{ unfold np_mask. rewrite Ln, Hy, Nat.eqb_refl. reflexivity. }
  erewrite bind_ok.
  2:{ unfold np_sub. rewrite Hyn, Hsn, Nat.eqb_refl. reflexivity. }
  erewrite bind_ok.
  2:{ unfold delta_frame.
      rewrite List.length_map, length_zip_with, Hyp, Hsp, Nat.min_id, Nat.eqb_refl.
      reflexivity. }
  erewrite bind_ok.
  2:{ unfold delta_frame.
      rewrite length_zip_with, Hyn, Hsn, Nat.min_id, Nat.eqb_refl. reflexivity. }
  eexists _, _. split; [reflexivity|]. cbn [calls]. rewrite length_app. simpl. lia.
Qed.
End DiscreteAnyLevels.

(** ** Index alignment and sums *)

Section Alignment.
Context `{Key K}.

Lemma uinsert_present (x : K) (m : list K) :
  StronglySorted klt m → In x m → uinsert x m = m.
Proof.
  induction 1 as [|y t Hs IH Hy]; [done|]. simpl. intros [->|Hin].
  - by rewrite kcmp_refl.
  - rewrite Forall_forall in Hy.
    assert (Hlt : klt y x) by (by apply Hy, list_elem_of_In).
    apply kcmp_Gt in Hlt. rewrite Hlt. by rewrite IH.
Qed.

Lemma np_unique_twice (l : list K) :
  StronglySorted klt l → np_unique (l ++ l) = l.
Proof.
  intros Hs. unfold np_unique. rewrite foldr_app.
  fold (np_unique l). rewrite (np_unique_of_sorted l Hs).
  assert (G : ∀ l', (∀ x, In x l' → In x l) → foldr uinsert l l' = l).
  { induction l' as [|x l' IH]; intros Hin; simpl; [done|].
    rewrite IH by (intros; apply Hin; by right).
    apply uinsert_present; [done | apply Hin; by left]. }
  by apply G.
Qed.

Lemma align_mul_same (a b : list (K * Q)) :
  List.map fst a = List.map fst b →
  StronglySorted klt (List.map fst a) →
  align_mul a b = zip_with (λ x y, Some (snd x * snd y)%Q) a b.
Proof.
  intros Hab Hs. unfold align_mul. rewrite <- Hab, (np_unique_twice _ Hs).
  revert b Hab Hs. induction a as [|[k x] a IH]; intros [|[k' y] b] Hab Hs;
    simpl in *; try done.
  injection Hab as <- Hab. apply StronglySorted_inv in Hs as [Hs Hk].
  assert (keqb k k = true) as -> by apply keqb_true, keq_refl.
  f_equal. rewrite <- (IH b Hab Hs).
  apply List.map_ext_in. intros k' Hk'.
  rewrite Forall_forall in Hk.
  assert (keqb k' k = false) as ->; [|done].
  apply keqb_false. intros E. apply keq_sym in E.
  by apply (klt_not_keq k k'); [apply Hk, list_elem_of_In|].
Qed.

End Alignment.

Lemma py_sum_Some (l : list Q) :
  ∃ c, py_sum (List.map Some l) = Some c ∧ (c == Qsum l)%Q.
Proof.
  unfold py_sum.
  assert (G : ∀ acc, ∃ c, foldl cell_add (Some acc) (List.map Some l) = Some c ∧
                          (c == acc + Qsum l)%Q).
  { induction l as [|x l IH]; intros acc; cbn [List.map foldl cell_add].
    - exists acc. split; [done|]. rewrite Qsum_nil. ring.
    - destruct (IH (acc + x)%Q) as (c & Hc & Ec). exists c. split; [done|].
      rewrite Ec, Qsum_cons. ring. }
  destruct (G 0%Q) as (c & Hc & Ec). exists c. split; [done|]. rewrite Ec. ring.
Qed.

Lemma Qsum_zip_comm (a b : list Q) :
  (Qsum (zip_with Qmult a b) == Qsum (zip_with Qmult b a))%Q.
Proof.
  revert b. induction a as [|x a IH]; intros [|y b]; cbn [zip_with];
    try reflexivity.
  rewrite !Qsum_cons, IH. ring.
Qed.

Lemma Qsum_zip_shift (c : Q) (p e : list Q) :
  length p = length e →
  (Qsum (zip_with Qmult p (List.map (λ x, (x - c)%Q) e)) ==
   Qsum (zip_with Qmult p e) - c * Qsum p)%Q.
Proof.
  revert e. induction p as [|x p IH]; intros [|y e] Hl;
    cbn [zip_with List.map length] in *; try done.
  - rewrite !Qsum_nil. ring.
  - rewrite !Qsum_cons, IH by lia. ring.
Qed.

Lemma Qsum_zip_zero (a b : list Q) :
  Forall (λ x, (x == 0)%Q) a → (Qsum (zip_with Qmult a b) == 0)%Q.
Proof.
  intros Ha. revert b. induction Ha as [|x a Hx Ha IH]; intros [|y b];
    cbn [zip_with]; try reflexivity.
  cbv beta in Hx. rewrite Qsum_cons, IH, Hx. ring.
Qed.

Lemma Qsum_scaled (t : Z) (cs : list Z) :
  (Qsum (List.map (λ c, inject_Z c / inject_Z t) cs) ==
   inject_Z (foldr Z.add 0%Z cs) / inject_Z t)%Q.
Proof.
  induction cs as [|c cs IH]; cbn [List.map foldr].
  - rewrite Qsum_nil. unfold Qdiv. ring.
  - rewrite Qsum_cons, IH, inject_Z_plus. unfold Qdiv. ring.
Qed.

Lemma zip_with_snd {A B : Type} (f : Q → Q → cell) (a : list (A * Q)) (b : list (B * Q)) :
  zip_with (λ x y, f (snd x) (snd y)) a b =
  zip_with f (List.map snd a) (List.map snd b).
Proof.
  revert b. induction a as [|x a IH]; intros [|y b]; simpl; try done.
  by rewrite IH.
Qed.

Lemma zip_with_Some (a b : list Q) :
  zip_with (λ x y, Some (x * y)%Q) a b = List.map Some (zip_with Qmult a b).
Proof.
  revert b. induction a as [|x a IH]; intros [|y b]; simpl; try done.
  by rewrite IH.
Qed.

(** ** The table of the discrete estimator on integer-coded levels *)

Lemma Exists_keq_Z (z : Z) (l : list Z) : Exists (keq z) l ↔ In z l.
Proof.
  rewrite Exists_exists. split.
  - intros (y & Hy & E). apply keq_Z in E as ->. by apply list_elem_of_In.
  - intros Hin. exists z. split; [by apply list_elem_of_In | apply keq_refl].
Qed.

Lemma Forall2_keq_Z (l1 l2 : list Z) : Forall2 keq l1 l2 → l1 = l2.
Proof.
  induction 1 as [|x y l1 l2 E _ IH]; [done|].
  apply keq_Z in E. by subst.
Qed.

Lemma coded_sorted (a n : nat) :
  StronglySorted klt (List.map Z.of_nat (seq a n)).
Proof.
  revert a. induction n as [|n IH]; intros a; simpl; constructor; [apply IH|].
  apply Forall_map, Forall_forall. intros j Hj%list_elem_of_In%in_seq.
  apply klt_Z. lia.
Qed.

Lemma level_rows_label (d : list (Z * Q)) :
  List.map label (level_rows d) = group_keys d.
Proof.
  unfold level_rows. cbv zeta.
  set (keys := group_keys d).
  set (means := List.map (λ k, Qmean (group k d)) keys).
  assert (Hl : length (zip means (cumsum means)) = length keys).
  { rewrite length_zip, cumsum_length. subst means.
    rewrite List.length_map. lia. }
  revert Hl. generalize (zip means (cumsum means)). generalize keys.
  induction keys0 as [|k ks IH]; intros [|me l] Hl; simpl in *; try done.
  f_equal. apply IH. lia.
Qed.

(** The index of a table of the discrete estimator is strictly
    increasing, whatever keys the deltas have. *)
Lemma discrete_table_index_sorted (d : list (Z * Q)) (props : list (Z * Q)) :
  StronglySorted Z.lt (index (discrete_table d props)).
Proof.
  unfold discrete_table. cbv zeta. cbn [index].
  eapply StronglySorted_weaken.
  2:{ apply loc_zero_sorted. rewrite level_rows_label. apply np_unique_sorted. }
  intros x y. apply klt_Z.
Qed.

Lemma level_rows_eff (d : list (Z * Q)) :
  List.map eff (level_rows d) =
  cumsum (List.map (λ k, Qmean (group k d)) (group_keys d)).
Proof.
  unfold level_rows. cbv zeta.
  set (keys := group_keys d).
  set (means := List.map (λ k, Qmean (group k d)) keys).
  assert (Hl : length keys = length means) by (subst means; by rewrite List.length_map).
  assert (Hc : length (cumsum means) = length means) by apply cumsum_length.
  revert Hl Hc. generalize (cumsum means). generalize means. generalize keys.
  induction keys0 as [|k ks IH]; intros [|m ms] [|c cs] Hl Hc; simpl in *; try done.
  f_equal. apply IH; lia.
Qed.

Lemma level_rows_eff_zero (d : list (Z * Q)) :
  Forall (λ kv, (snd kv == 0)%Q) d →
  Forall (λ r, (eff r == 0)%Q) (level_rows d).
Proof.
  intros Hd. rewrite <- (Forall_map eff (λ x, (x == 0)%Q)).
  rewrite level_rows_eff. apply cumsum_zero.
  apply Forall_map, Forall_forall. intros k _. by apply Qmean_zero, group_zero.
Qed.

Lemma groups_props_keys (xs : list Z) :
  List.map fst (groups_props xs) = np_unique xs.
Proof.
  unfold groups_props. cbv zeta. rewrite !List.map_map. simpl. apply List.map_id.
Qed.

Lemma sum_counts_pos (cs : list Z) :
  Forall (λ c, 0 ≤ c) cs → (∃ c, In c cs ∧ 1 ≤ c) → 1 ≤ foldr Z.add 0 cs.
Proof.
  intros Hcs (c & Hin & Hc).
  assert (Hnn : ∀ l, Forall (λ c, 0 ≤ c) l → 0 ≤ foldr Z.add 0 l).
  { induction 1 as [|y l Hy Hl IH]; simpl; [lia|]. cbv beta in Hy.
    revert IH. generalize (foldr Z.add 0 l). lia. }
  induction Hcs as [|x cs Hx Hcs IH]; [done|]. simpl. cbv beta in Hx.
  specialize (Hnn cs Hcs). revert IH Hnn. generalize (foldr Z.add 0 cs).
  intros F IH Hnn. destruct Hin as [->|Hin]; [lia|]. specialize (IH Hin). lia.
Qed.

Lemma groups_props_total (xs : list Z) :
  xs ≠ [] → (Qsum (List.map snd (groups_props xs)) == 1)%Q.
Proof.
  intros Hne. unfold groups_props. cbv zeta.
  set (counts := List.map (λ k, (k, Z.of_nat (length (List.filter (Z.eqb k) xs))))
                   (np_unique xs)).
  set (total := foldr Z.add 0 (List.map snd counts)).
  rewrite List.map_map. cbn [snd].
  rewrite <- (List.map_map snd (λ c, (inject_Z c / inject_Z total)%Q)).
  rewrite Qsum_scaled. fold total.
  assert (Hpos : 1 ≤ total).
  { apply sum_counts_pos.
    - subst counts. rewrite List.map_map. apply Forall_map, Forall_forall.
      intros k _. simpl. lia.
    - destruct xs as [|x xs']; [done|].
      assert (Hex : Exists (keq x) (np_unique (x :: xs'))).
      { apply np_unique_Exists. left. apply keq_refl. }
      apply Exists_keq_Z in Hex.
      exists (Z.of_nat (length (List.filter (Z.eqb x) (x :: xs')))). split.
      + subst counts. rewrite List.map_map. apply in_map_iff. by exists x.
      + simpl. rewrite Z.eqb_refl. simpl. lia. }
  clearbody total. field. intros E. unfold Qeq in E. simpl in E. lia.
Qed.

Lemma series_labels {K : Type} (l : list (row K)) :
  List.map fst (List.map (λ r : row K, (label r, eff r)) l) = List.map label l.
Proof. induction l as [|r l IH]; simpl; [done | by rewrite IH]. Qed.

Lemma series_values {K : Type} (l : list (row K)) :
  List.map snd (List.map (λ r : row K, (label r, eff r)) l) = List.map eff l.
Proof. induction l as [|r l IH]; simpl; [done | by rewrite IH]. Qed.

Section DiscreteClaims.
Variable predict : DataFrame → list Q.
Variables (s : state) (X : nat) (feature : string).
Variables (dfX : DataFrame) (xs : list Z) (K : nat).
Hypothesis input : discrete_input s X feature dfX xs.
Hypothesis contract : model_contract predict feature.
Hypothesis coded : coded_levels xs K.
Hypothesis levels : (1 ≤ K)%nat.

Let d := stated_deltas predict dfX feature xs.
Let props := groups_props xs.
Let run := aleplot_1D_discrete predict X feature s.

Lemma forward_length :
  length (List.map (λ x, x + 1) (mask_select (not_max xs) xs)) =
  length (zip_with Qminus (predict (stated_plus dfX feature xs))
                          (mask_select (not_max xs) (predict dfX))).
Proof.
  rewrite List.length_map, length_zip_with.
  rewrite (y_hat_plus_length predict feature dfX xs contract).
  rewrite (y_hat_not_max_length predict s X feature dfX xs input contract). lia.
Qed.

Lemma backward_length :
  length (mask_select (not_min xs) xs) =
  length (zip_with Qminus (mask_select (not_min xs) (predict dfX))
                          (predict (stated_neg dfX feature xs))).
Proof.
  rewrite length_zip_with.
  rewrite (y_hat_neg_length predict feature dfX xs contract).
  rewrite (y_hat_not_min_length predict s X feature dfX xs input contract). lia.
Qed.

Lemma delta_keys_bounds (kv : Z * Q) :
  In kv d → 1 ≤ fst kv ≤ Z.of_nat K - 1.
Proof.
  unfold d, stated_deltas. cbv zeta. intros Hin. apply in_app_or in Hin.
  destruct kv as [k v]. simpl.
  destruct Hin as [Hin|Hin]; apply list_elem_of_In, elem_of_zip_l, list_elem_of_In in Hin.
  - apply in_map_iff in Hin as (x & <- & Hx).
    apply (not_max_selected xs K coded levels) in Hx. lia.
  - apply (not_min_selected xs K coded levels) in Hin. lia.
Qed.

Lemma delta_keys_cover (z : Z) :
  1 ≤ z ≤ Z.of_nat K - 1 → ∃ kv, In kv d ∧ fst kv = z.
Proof.
  intros Hz.
  assert (Hsel : In z (mask_select (not_min xs) xs)).
  { unfold not_min. rewrite mask_select_map. apply filter_In. split.
    - apply (coded_member xs K); [done | lia].
    - rewrite (coded_min xs K coded levels).
      apply negb_true_iff, Z.eqb_neq. lia. }
  destruct (zip_member _ _ z backward_length Hsel) as (v & Hv).
  exists (z, v). split; [|done].
  unfold d, stated_deltas. cbv zeta. apply in_or_app. by right.
Qed.

Lemma level_rows_bounds (r : row Z) :
  In r (level_rows d) → 1 ≤ label r ≤ Z.of_nat K - 1.
Proof.
  intros Hr. assert (Hk : In (label r) (group_keys d)).
  { rewrite <- level_rows_label. by apply in_map. }
  apply np_unique_In, in_map_iff in Hk as (kv & <- & Hkv).
  by apply delta_keys_bounds.
Qed.

(** The sorted table: the anchor at key 0, then one row per level above 0. *)
Lemma discrete_shape :
  ∃ a t,
    sort_index (loc_zero 0 (level_rows d)) = a :: t ∧
    aux a = 0%Q ∧ eff a = 0%Q ∧
    Forall (λ r, In r (level_rows d)) t ∧
    List.map label (a :: t) = List.map Z.of_nat (seq 0 K).
Proof.
  assert (Hs : StronglySorted klt (List.map label (level_rows d))).
  { rewrite level_rows_label. apply np_unique_sorted. }
  assert (Hge : Forall (λ r, kcmp 0 (label r) ≠ Gt) (level_rows d)).
  { apply Forall_forall. intros r Hr%list_elem_of_In%level_rows_bounds.
    intros E. apply kcmp_Gt in E. apply (proj1 (klt_Z _ _)) in E. lia. }
  destruct (loc_zero_shape 0 (level_rows d) Hs Hge)
    as (a & t & HS & Ha & He & Hb0 & _ & Hin & Hcov & Hsort & _).
  exists a, t. repeat split; try done.
  apply keq_Z in Hb0.
  apply Forall2_keq_Z, sorted_members_eq; [done | apply coded_sorted |].
  intros z. rewrite !Exists_keq_Z. cbn [List.map]. rewrite <- Hb0. split.
  - intros [<-|Hz].
    + apply in_map_iff. exists 0%nat. split; [done|]. apply in_seq. lia.
    + apply in_map_iff in Hz as (r & <- & Hr). rewrite Forall_forall in Hin.
      pose proof (level_rows_bounds r (Hin r (proj2 (list_elem_of_In _ _) Hr))).
      apply in_map_iff. exists (Z.to_nat (label r)). split; [lia|].
      apply in_seq. lia.
  - intros Hz. apply in_map_iff in Hz as (j & <- & Hj%in_seq).
    destruct j as [|j]; [by left|]. right.
    destruct (delta_keys_cover (Z.of_nat (S j)) ltac:(lia)) as (kv & Hkv & Ekv).
    assert (Hk : In (Z.of_nat (S j)) (group_keys d)).
    { apply Exists_keq_Z, np_unique_Exists, Exists_keq_Z.
      apply in_map_iff. by exists kv. }
    rewrite <- level_rows_label in Hk. apply in_map_iff in Hk as (r & Er & Hr).
    rewrite Forall_forall in Hcov.
    destruct (Hcov r (proj2 (list_elem_of_In _ _) Hr)) as [E|Hrt].
    + apply keq_Z in E. rewrite Er in E. lia.
    + rewrite <- Er. by apply in_map.
Qed.

(** The centering constant is defined: the labels of the table and of the
    level proportions coincide. *)
Lemma discrete_centering (a : row Z) (t : list (row Z)) :
  List.map label (a :: t) = List.map Z.of_nat (seq 0 K) →
  ∃ c,
    py_sum (align_mul (List.map (λ r, (label r, eff r)) (a :: t)) props) = Some c ∧
    (c == Qsum (zip_with Qmult (List.map eff (a :: t)) (List.map snd props)))%Q.
Proof.
  intros Hl.
  assert (Hfst : List.map fst (List.map (λ r : row Z, (label r, eff r)) (a :: t)) =
                 List.map fst props).
  { rewrite series_labels, Hl. unfold props.
    by rewrite groups_props_keys, coded. }
  rewrite align_mul_same; [|exact Hfst|].
  - rewrite (zip_with_snd (λ x y, Some (x * y)%Q)), zip_with_Some.
    rewrite series_values. apply py_sum_Some.
  - rewrite series_labels, Hl. apply coded_sorted.
Qed.

Lemma xs_nonempty : xs ≠ [].
Proof.
  intros ->. by apply (coded_member [] K 0 coded ltac:(lia)).
Qed.

Lemma discrete_returns :
  ∃ s', run = (inr (discrete_table d props), s').
Proof.
  destruct (discrete_run predict s X feature dfX xs K input contract coded levels)
    as (o1 & o2 & Hrun).
  eexists. exact Hrun.
Qed.

Lemma discrete_index_sorted :
  ∃ f s', run = (inr f, s') ∧ StronglySorted Z.lt (index f).
Proof.
  destruct discrete_returns as (s' & Hrun). eexists _, s'. split; [exact Hrun|].
  unfold discrete_table. cbv zeta. cbn [index].
  destruct discrete_shape as (a & t & -> & _ & _ & _ & ->).
  eapply StronglySorted_weaken; [|apply coded_sorted]. intros x y. apply klt_Z.
Qed.

Lemma discrete_zero_mean :
  ∃ f s', run = (inr f, s') ∧ zero_mean_discrete props f.
Proof.
  destruct discrete_returns as (s' & Hrun). eexists _, s'. split; [exact Hrun|].
  unfold discrete_table, zero_mean_discrete. cbv zeta. cbn [index columns get_column].
  cbn [String.eqb Ascii.eqb Bool.eqb].
  destruct discrete_shape as (a & t & -> & Ha & He & Hin & Hl).
  destruct (discrete_centering a t Hl) as (c & -> & Hc).
  exists (List.map (λ r, (eff r - c)%Q) (a :: t)).
  assert (Hidx : List.map label (a :: t) = List.map fst props).
  { rewrite Hl. unfold props. by rewrite groups_props_keys, coded. }
  split; [done|]. split; [by rewrite List.map_map|].
  unfold weighted_sum.
  replace (List.map (λ r, (eff r - c)%Q) (a :: t))
    with (List.map (λ e, (e - c)%Q) (List.map eff (a :: t)))
    by (by rewrite List.map_map).
  rewrite Qsum_zip_shift.
  - rewrite (Qsum_zip_comm (List.map snd props)), <- Hc.
    unfold props. rewrite (groups_props_total xs xs_nonempty). ring.
  - apply (f_equal (@length Z)) in Hidx. by rewrite !List.length_map in *.
Qed.

Lemma discrete_constant_model :
  constant_model predict →
  ∃ f s', run = (inr f, s') ∧ all_eff_zero f.
Proof.
  intros (v & Hv).
  destruct discrete_returns as (s' & Hrun). eexists _, s'. split; [exact Hrun|].
  unfold discrete_table, all_eff_zero. cbv zeta. cbn [index columns get_column].
  cbn [String.eqb Ascii.eqb Bool.eqb].
  destruct discrete_shape as (a & t & -> & Ha & He & Hin & Hl).
  destruct (discrete_centering a t Hl) as (c & -> & Hc).
  exists (List.map (λ r, (eff r - c)%Q) (a :: t)).
  split; [by rewrite List.map_map|].
  assert (Hd0 : Forall (λ kv, (snd kv == 0)%Q) d).
  { assert (G : ∀ (p q : list Q) y, (∀ z, In z p → z = v) → (∀ z, In z q → z = v) →
                  y ∈ zip_with Qminus p q → (y == 0)%Q).
    { intros p q y Hp Hq Hy.
      apply elem_of_zip_with in Hy as (y1 & y2 & -> & H1 & H2).
      rewrite (Hp _ (proj1 (list_elem_of_In _ _) H1)).
      rewrite (Hq _ (proj1 (list_elem_of_In _ _) H2)). ring. }
    assert (Hsel : ∀ (m : list bool) (l : list Q) z,
               (∀ y, In y l → y = v) → In z (mask_select m l) → z = v).
    { induction m as [|b m IH]; intros [|y l] z Hl' Hz; simpl in Hz; try done.
      destruct b.
      - destruct Hz as [<-|Hz]; [apply Hl'; by left|].
        apply (IH l); [intros; apply Hl'; by right | done].
      - apply (IH l); [intros; apply Hl'; by right | done]. }
    apply Forall_forall. intros [k y] Hky. simpl.
    unfold d, stated_deltas in Hky. cbv zeta in Hky.
    apply elem_of_app in Hky as [Hky|Hky]; apply elem_of_zip_r in Hky.
    - eapply G; [| |exact Hky]; [apply Hv|].
      intros z Hz. eapply Hsel; [|exact Hz]. apply Hv.
    - eapply G; [| |exact Hky]; [|apply Hv].
      intros z Hz. eapply Hsel; [|exact Hz]. apply Hv. }
  assert (Ht0 : Forall (λ r, (eff r == 0)%Q) (a :: t)).
  { constructor; [by rewrite He|].
    pose proof (level_rows_eff_zero d Hd0) as Hz.
    rewrite Forall_forall in Hz, Hin. apply Forall_forall.
    intros r Hr. by apply Hz, list_elem_of_In, Hin. }
  assert (Hc0 : (c == 0)%Q).
  { rewrite Hc. apply Qsum_zip_zero. by apply Forall_map. }
  apply Forall_map. eapply Forall_impl; [exact Ht0|].
  intros r Hr; simpl in *. rewrite Hr, Hc0. ring.
Qed.

(** On integer-coded levels the estimator perturbs and keys as stated. *)
Lemma discrete_perturbation : perturbation_claim predict s X feature dfX xs.
Proof.
  destruct (discrete_run predict s X feature dfX xs K input contract coded levels)
    as (o1 & o2 & Hrun).
  eexists _, _. split; [exact Hrun|]. done.
Qed.
End DiscreteClaims.

(** ** The caller's objects are never written *)

(** The index of a table of the continuous estimator is strictly
    increasing, whatever keys the deltas have. *)
Lemma continuous_table_index_sorted CI_estimate (d : list (Q * Q)) (b0 : Q)
  (include_CI : bool) (C : spec_float) (f : frame Q) :
  continuous_table CI_estimate d b0 include_CI C = inr f →
  StronglySorted Qlt (index f).
Proof.
  assert (Hs : StronglySorted Qlt
                 (List.map label (sort_index (loc_zero b0 (accumulate d))))).
  { eapply StronglySorted_weaken.
    2:{ apply loc_zero_sorted, accumulate_sorted. }
    intros x y. apply klt_Q. }
  unfold continuous_table. cbv zeta.
  destruct include_CI; [destruct (pct_of C); [discriminate|]|];
    intros [= <-]; exact Hs.
Qed.

Section Frame.
Variable s0 : state.

Lemma keeps_bind {A B : Type} (m : M A) (k : A → M B) (Q : A → Prop) (R : B → Prop) :
  keeps s0 m Q → (∀ a, Q a → keeps s0 (k a) R) → keeps s0 (m ≫= k) R.
Proof.
  intros Hm Hk s r s' Hs Hrun. unfold mbind, M_bind in Hrun.
  destruct (m s) as [[e|a] s1] eqn:Em.
  - injection Hrun as <- <-. destruct (Hm _ _ _ Hs Em) as [Hs1 _].
    split; [done | intros; discriminate].
  - destruct (Hm _ _ _ Hs Em) as [Hs1 Ha].
    exact (Hk a (Ha a eq_refl) _ _ _ Hs1 Hrun).
Qed.

(** A computation that does not touch the state. *)
Lemma keeps_pure {A : Type} (m : M A) :
  (∀ s, snd (m s) = s) → keeps s0 m (λ _, True).
Proof.
  intros Hm s r s' Hs Hrun. pose proof (Hm s) as E. rewrite Hrun in E.
  simpl in E. subst s'. done.
Qed.

Lemma pure_bind {A B : Type} (m : M A) (k : A → M B) :
  (∀ s, snd (m s) = s) → (∀ a s, snd (k a s) = s) → ∀ s, snd ((m ≫= k) s) = s.
Proof.
  intros Hm Hk s. unfold mbind, M_bind. pose proof (Hm s) as E.
  destruct (m s) as [[e|a] s1]; simpl in *; subst; [done | apply Hk].
Qed.

Lemma pure_load (r : nat) (s : state) : snd (load r s) = s.
Proof. unfold load. by destruct (heap s !! r). Qed.

Lemma pure_getcol (df : DataFrame) (f : string) (s : state) : snd (getcol df f s) = s.
Proof. unfold getcol. by destruct (df !! f). Qed.

Lemma pure_lift {A : Type} (r : exn + A) (s : state) : snd (lift r s) = s.
Proof. done. Qed.

Lemma pure_np_getitem {A : Type} (a : list A) (i : Z) (s : state) :
  snd (np_getitem a i s) = s.
Proof.
  unfold np_getitem. cbv zeta.
  destruct ((i <? - Z.of_nat (length a)) || (Z.of_nat (length a) <=? i)); [done|].
  by destruct (a !! _).
Qed.

Lemma pure_np_take {A : Type} (a : list A) (idx : list Z) (s : state) :
  snd (np_take a idx s) = s.
Proof.
  unfold np_take. revert s. induction idx as [|i idx IH]; intros s; [done|].
  cbn [mapM]. apply pure_bind; [apply pure_np_getitem|].
  intros v s1. apply pure_bind; [apply IH | done].
Qed.

Lemma pure_np_sub (a b : list Q) (s : state) : snd (np_sub a b s) = s.
Proof. unfold np_sub. by destruct (Nat.eqb _ _). Qed.

Lemma pure_np_mask (a : list Q) (m : list bool) (s : state) : snd (np_mask a m s) = s.
Proof. unfold np_mask. by destruct (Nat.eqb _ _). Qed.

Lemma pure_delta_frame {K : Type} (ks : list K) (vs : list Q) (s : state) :
  snd (delta_frame ks vs s) = s.
Proof. unfold delta_frame. by destruct (Nat.eqb _ _). Qed.

Lemma pure_np_take_float {A : Type} (a : list A) (idx : list Q) (s : state) :
  snd (np_take_float a idx s) = s.
Proof. by destruct idx. Qed.

Lemma pure_bin_edges q (xs qs : list Q) (s : state) : snd (bin_edges q xs qs s) = s.
Proof. unfold bin_edges. by destruct (kmin xs). Qed.

Lemma pure_pd_cut_codes (legacy : bool) (bins xs : list Q) (s : state) :
  snd (pd_cut_codes legacy bins xs s) = s.
Proof. unfold pd_cut_codes. by destruct (legacy && _). Qed.

Lemma keeps_alloc (df : DataFrame) : keeps s0 (alloc df) (fresh_ref s0).
Proof.
  intros s r s' [fresh Hs] Hrun. unfold alloc in Hrun. injection Hrun as <- <-.
  split.
  - exists (fresh ++ [df]). cbn [heap]. by rewrite Hs, app_assoc.
  - intros a [= <-]. unfold fresh_ref. rewrite Hs, length_app. lia.
Qed.

Lemma keeps_df_copy (r : nat) : keeps s0 (df_copy r) (fresh_ref s0).
Proof.
  unfold df_copy. eapply keeps_bind.
  - apply keeps_pure, pure_load.
  - intros df _. apply keeps_alloc.
Qed.

Lemma keeps_store (r : nat) (df : DataFrame) :
  fresh_ref s0 r → keeps s0 (store r df) (λ _, True).
Proof.
  intros Hr s res s' [fresh Hs] Hrun. unfold store in Hrun.
  injection Hrun as <- <-. split; [|done].
  exists (<[(r - length (heap s0))%nat := df]> fresh). cbn [heap].
  rewrite Hs. unfold fresh_ref in Hr.
  replace r with (length (heap s0) + (r - length (heap s0)))%nat at 1 by lia.
  apply insert_app_r.
Qed.

Lemma keeps_setcol (r : nat) (f : string) (c : column) :
  fresh_ref s0 r → keeps s0 (setcol r f c) (λ _, True).
Proof.
  intros Hr. unfold setcol. eapply keeps_bind.
  - apply keeps_pure, pure_load.
  - intros df _. by apply keeps_store.
Qed.

Lemma keeps_loc_assign (r : nat) (m : list bool) (f : string) (vals : list Z) :
  fresh_ref s0 r → keeps s0 (loc_assign r m f vals) (λ _, True).
Proof.
  intros Hr. unfold loc_assign.
  eapply keeps_bind; [apply keeps_pure, pure_load|]. intros df _.
  eapply keeps_bind; [apply keeps_pure, pure_getcol|]. intros c _.
  by apply keeps_store.
Qed.

Lemma keeps_ret {A : Type} (a : A) (Q : A → Prop) : Q a → keeps s0 (mret a) Q.
Proof.
  intros Ha s r s' Hs Hrun. injection Hrun as <- <-. split; [done|].
  by intros ? [= <-].
Qed.

Lemma keeps_weaken {A : Type} (m : M A) (Q R : A → Prop) :
  (∀ a, Q a → R a) → keeps s0 m Q → keeps s0 m R.
Proof.
  intros HQR Hm s r s' Hs Hrun. destruct (Hm s r s' Hs Hrun) as [Hs' Hq].
  split; [done|]. intros a Ha. by apply HQR, Hq.
Qed.

(** An index of floats that is accepted is empty. *)
Lemma keeps_np_take_float {A : Type} (a : list A) (idx : list Q) :
  keeps s0 (np_take_float a idx) (λ _, idx = []).
Proof.
  intros s r s' Hs Hrun. destruct idx as [|i idx]; injection Hrun as <- <-.
  - done.
  - split; [done | intros; discriminate].
Qed.

(** A frame of deltas without keys has no rows. *)
Lemma keeps_delta_frame_nil {K : Type} (vs : list Q) :
  keeps s0 (delta_frame (@nil K) vs) (λ d, d = []).
Proof.
  intros s r s' Hs Hrun. unfold delta_frame in Hrun.
  destruct (Nat.eqb _ _); injection Hrun as <- <-.
  - split; [done|]. by intros ? [= <-].
  - split; [done | intros; discriminate].
Qed.

Lemma keeps_loc_assign_float (r : nat) (m : list bool) (f : string) (vals : list Q) :
  fresh_ref s0 r → keeps s0 (loc_assign_float r m f vals) (λ _, True).
Proof.
  intros Hr. unfold loc_assign_float.
  eapply keeps_bind; [apply keeps_pure, pure_load|]. intros df _.
  eapply keeps_bind; [apply keeps_pure, pure_getcol|]. intros c _.
  by apply keeps_store.
Qed.

Lemma keeps_call_predict predict (df : DataFrame) :
  keeps s0 (call_predict predict df) (λ _, True).
Proof.
  intros s r s' Hs Hrun. unfold call_predict in Hrun. injection Hrun as <- <-.
  done.
Qed.

Lemma keeps_py_predict predict (r : nat) :
  keeps s0 (py_predict predict r) (λ _, True).
Proof.
  unfold py_predict. eapply keeps_bind; [apply keeps_pure, pure_load|].
  intros df _. apply keeps_call_predict.
Qed.

Lemma keeps_lift {A : Type} (r : exn + A) (Q : A → Prop) :
  (∀ a, r = inr a → Q a) → keeps s0 (lift r) Q.
Proof.
  intros Hr s r' s' Hs Hrun. unfold lift in Hrun. injection Hrun as <- <-. done.
Qed.

(** The continuous estimator keeps the objects of the caller, and the
    index of a table that it returns is strictly increasing. *)
Lemma keeps_continuous_sorted predict quantile_ied CI_estimate legacy_cut (X : nat)
  (feature : string) (grid_size : Z) (include_CI : bool) (C : spec_float) :
  keeps s0
    (aleplot_1D_continuous predict quantile_ied CI_estimate legacy_cut X feature grid_size
       include_CI C)
    (λ f, StronglySorted Qlt (index f)).
Proof.
  unfold aleplot_1D_continuous.
  eapply keeps_bind; [apply keeps_pure, pure_lift|]. intros qs _.
  eapply keeps_bind; [apply keeps_pure, pure_load|]. intros dfX _.
  eapply keeps_bind; [apply keeps_pure, pure_getcol|]. intros col _.
  eapply keeps_bind; [apply keeps_pure, pure_bin_edges|]. intros bins _.
  eapply keeps_bind; [apply keeps_pure, pure_pd_cut_codes|]. intros codes _.
  eapply keeps_bind; [apply keeps_df_copy|]. intros X1 HX1.
  eapply keeps_bind; [apply keeps_df_copy|]. intros X2 HX2.
  eapply keeps_bind; [apply keeps_pure, pure_np_take|]. intros lo _.
  eapply keeps_bind; [by apply keeps_setcol|]. intros _ _.
  eapply keeps_bind; [apply keeps_pure, pure_np_take|]. intros hi _.
  eapply keeps_bind; [by apply keeps_setcol|]. intros _ _.
  eapply keeps_bind; [apply keeps_py_predict|]. intros y_1 _.
  eapply keeps_bind; [apply keeps_py_predict|]. intros y_2 _.
  eapply keeps_bind; [apply keeps_pure, pure_np_take|]. intros keys _.
  eapply keeps_bind; [apply keeps_pure, pure_np_sub|]. intros Delta _.
  eapply keeps_bind; [apply keeps_pure, pure_delta_frame|]. intros d _.
  eapply keeps_bind.
  - apply keeps_pure. intros s. by destruct (kmin bins).
  - intros b0 _. apply keeps_lift. apply continuous_table_index_sorted.
Qed.

Lemma keeps_continuous predict quantile_ied CI_estimate legacy_cut (X : nat)
  (feature : string) (grid_size : Z) (include_CI : bool) (C : spec_float) :
  keeps s0
    (aleplot_1D_continuous predict quantile_ied CI_estimate legacy_cut X feature grid_size
       include_CI C)
    (λ _, True).
Proof. eapply keeps_weaken; [|apply keeps_continuous_sorted]. done. Qed.

(** The discrete estimator keeps the objects of the caller, and the index
    of a table that it returns is strictly increasing. *)
Lemma keeps_discrete_sorted predict (X : nat) (feature : string) :
  keeps s0 (aleplot_1D_discrete predict X feature)
    (λ f, StronglySorted Z.lt (index f)).
Proof.
  unfold aleplot_1D_discrete.
  eapply keeps_bind; [apply keeps_pure, pure_load|]. intros dfX _.
  eapply keeps_bind; [apply keeps_pure, pure_getcol|]. intros col _.
  eapply keeps_bind; [apply keeps_df_copy|]. intros X_plus Hp.
  eapply keeps_bind; [apply keeps_df_copy|]. intros X_neg Hn.
  destruct col as [xs|ys]; cbv zeta.
  - eapply keeps_bind; [apply keeps_pure, pure_np_getitem|]. intros gmax _.
    eapply keeps_bind; [apply keeps_pure, pure_np_getitem|]. intros gmin _.
    eapply keeps_bind; [apply keeps_pure, pure_np_take|]. intros up _.
    eapply keeps_bind; [by apply keeps_loc_assign|]. intros _ _.
    eapply keeps_bind; [apply keeps_pure, pure_np_take|]. intros down _.
    eapply keeps_bind; [by apply keeps_loc_assign|]. intros _ _.
    eapply keeps_bind; [apply keeps_py_predict|]. intros y_hat _.
    eapply keeps_bind; [apply keeps_pure, pure_load|]. intros df_plus _.
    eapply keeps_bind; [apply keeps_call_predict|]. intros y_hat_plus _.
    eapply keeps_bind; [apply keeps_pure, pure_load|]. intros df_neg _.
    eapply keeps_bind; [apply keeps_call_predict|]. intros y_hat_neg _.
    eapply keeps_bind; [apply keeps_pure, pure_np_mask|]. intros y_p _.
    eapply keeps_bind; [apply keeps_pure, pure_np_sub|]. intros Dp _.
    eapply keeps_bind; [apply keeps_pure, pure_np_mask|]. intros y_n _.
    eapply keeps_bind; [apply keeps_pure, pure_np_sub|]. intros Dn _.
    eapply keeps_bind; [apply keeps_pure, pure_delta_frame|]. intros fwd _.
    eapply keeps_bind; [apply keeps_pure, pure_delta_frame|]. intros bwd _.
    apply keeps_ret, discrete_table_index_sorted.
  - eapply keeps_bind; [apply keeps_pure, pure_np_getitem|]. intros gmax _.
    eapply keeps_bind; [apply keeps_pure, pure_np_getitem|]. intros gmin _.
    eapply keeps_bind; [apply keeps_np_take_float|]. intros up Hup.
    eapply keeps_bind; [by apply keeps_loc_assign_float|]. intros _ _.
    eapply keeps_bind; [apply keeps_np_take_float|]. intros down Hdown.
    eapply keeps_bind; [by apply keeps_loc_assign_float|]. intros _ _.
    eapply keeps_bind; [apply keeps_py_predict|]. intros y_hat _.
    eapply keeps_bind; [apply keeps_pure, pure_load|]. intros df_plus _.
    eapply keeps_bind; [apply keeps_call_predict|]. intros y_hat_plus _.
    eapply keeps_bind; [apply keeps_pure, pure_load|]. intros df_neg _.
    eapply keeps_bind; [apply keeps_call_predict|]. intros y_hat_neg _.
    eapply keeps_bind; [apply keeps_pure, pure_np_mask|]. intros y_p _.
    eapply keeps_bind; [apply keeps_pure, pure_np_sub|]. intros Dp _.
    eapply keeps_bind; [apply keeps_pure, pure_np_mask|]. intros y_n _.
    eapply keeps_bind; [apply keeps_pure, pure_np_sub|]. intros Dn _.
    rewrite Hup. apply map_eq_nil in Hdown. rewrite Hdown.
    eapply keeps_bind; [apply keeps_delta_frame_nil|]. intros fwd ->.
    eapply keeps_bind; [apply keeps_delta_frame_nil|]. intros bwd ->.
    apply keeps_ret. repeat constructor.
Qed.

Lemma keeps_discrete predict (X : nat) (feature : string) :
  keeps s0 (aleplot_1D_discrete predict X feature) (λ _, True).
Proof. eapply keeps_weaken; [|apply keeps_discrete_sorted]. done. Qed.
End Frame.

(** ** The discrete estimator on a single level *)

Lemma mask_select_none {A B : Type} (xs : list B) (l : list A) :
  mask_select (List.map (λ _, false) xs) l = [].
Proof.
  revert l. induction xs as [|x xs IH]; intros [|y l]; simpl; auto.
Qed.

Lemma mask_assign_none {A B : Type} (xs : list B) (l : list A) :
  mask_assign (List.map (λ _, false) xs) [] l = l.
Proof.
  revert l. induction xs as [|x xs IH]; intros [|y l]; simpl; try done.
  by rewrite IH.
Qed.

Section SingleLevel.
Variable predict : DataFrame → list Q.
Variables (s : state) (X : nat) (feature : string).
Variables (dfX : DataFrame) (xs : list Z) (v : Z).
Hypothesis input : discrete_input s X feature dfX xs.
Hypothesis contract : model_contract predict feature.
Hypothesis single : np_unique xs = [v].

Lemma single_level_values (x : Z) : In x xs → x = v.
Proof.
  intros Hx. assert (Hex : Exists (keq x) (np_unique xs)).
  { apply np_unique_Exists, Exists_keq_Z, Hx. }
  rewrite single in Hex. apply Exists_keq_Z in Hex. by destruct Hex as [->|[]].
Qed.

Lemma single_level_up_mask : List.map (λ x, x <? v) xs = List.map (λ _, false) xs.
Proof.
  apply List.map_ext_in. intros x Hx%single_level_values. subst. apply Z.ltb_irrefl.
Qed.

Lemma single_level_down_mask : List.map (λ x, v <? x) xs = List.map (λ _, false) xs.
Proof.
  apply List.map_ext_in. intros x Hx%single_level_values. subst. apply Z.ltb_irrefl.
Qed.

Lemma empty_selection_predict :
  predict (select_rows (List.map (λ _, false) xs) dfX) = [].
Proof.
  destruct input as [_ Hcol].
  assert (Hl : length (predict (select_rows (List.map (λ _, false) xs) dfX)) = 0%nat).
  { rewrite (contract _ (IntCol [])); [done|].
    unfold select_rows. rewrite lookup_fmap, Hcol. simpl.
    by rewrite mask_select_none. }
  by destruct (predict _).
Qed.

(** With one level nothing is raised: the model is called on the whole
    table first and then on the two empty selections of rows, and the
    table that is returned has the anchor row at key 0 only. *)
Lemma discrete_single_level :
  ∃ f s',
    aleplot_1D_discrete predict X feature s = (inr f, s') ∧
    calls s' = calls s ++ [dfX;
                           select_rows (List.map (λ _, false) xs) dfX;
                           select_rows (List.map (λ _, false) xs) dfX] ∧
    index f = [0] ∧ get_column "Delta" (columns f) = Some [Some 0%Q].
Proof.
  pose proof empty_selection_predict as Hempty.
  destruct input as [HX Hcol].
  eexists _, _. split; [|split; [|split]].
  - unfold aleplot_1D_discrete.
    erewrite bind_ok by (unfold load; by rewrite HX).
    erewrite bind_ok by (unfold getcol; by rewrite Hcol).
    erewrite bind_ok
      by (unfold df_copy; erewrite bind_ok by (unfold load; by rewrite HX); reflexivity).
    cbn [heap calls].
    erewrite bind_ok
      by (unfold df_copy;
          erewrite bind_ok
            by (unfold load; cbn [heap];
                rewrite lookup_app_l by (by eapply lookup_lt_Some); by rewrite HX);
          reflexivity).
    cbn [heap calls]. rewrite <- app_assoc. cbn [app].
    rewrite length_app. cbn [length]. rewrite Nat.add_1_r.
    cbv beta iota zeta. rewrite single. cbn [length Z.of_nat Z.sub Z.add Z.opp Z.pos_sub].
    erewrite bind_ok by reflexivity.
    erewrite bind_ok by reflexivity.
    rewrite single_level_up_mask, single_level_down_mask.
    rewrite !mask_select_none. cbn [List.map].
    erewrite bind_ok by reflexivity.
    erewrite bind_ok.
    2:{ unfold loc_assign.
        erewrite bind_ok by (unfold load; cbn [heap]; by rewrite heap_lookup_fst).
        erewrite bind_ok by (unfold getcol; by rewrite Hcol).
        unfold store. cbv beta iota. cbn [heap calls].
        rewrite mask_assign_none, (insert_id dfX feature _ Hcol), heap_insert_fst.
        reflexivity. }
    erewrite bind_ok by reflexivity.
    erewrite bind_ok.
    2:{ unfold loc_assign.
        erewrite bind_ok by (unfold load; cbn [heap]; by rewrite heap_lookup_snd).
        erewrite bind_ok by (unfold getcol; by rewrite Hcol).
        unfold store. cbv beta iota. cbn [heap calls].
        rewrite mask_assign_none, (insert_id dfX feature _ Hcol), heap_insert_snd.
        reflexivity. }
    erewrite bind_ok.
    2:{ unfold py_predict.
        erewrite bind_ok
          by (unfold load; cbn [heap];
              rewrite lookup_app_l by (by eapply lookup_lt_Some); by rewrite HX).
        reflexivity. }
    cbn [heap calls].
    erewrite bind_ok by (unfold load; cbn [heap]; by rewrite heap_lookup_fst).
    erewrite bind_ok by reflexivity.
    cbn [heap calls].
    erewrite bind_ok by (unfold load; cbn [heap]; by rewrite heap_lookup_snd).
    erewrite bind_ok by reflexivity.
    cbn [heap calls]. rewrite Hempty.
    erewrite bind_ok.
    2:{ unfold np_mask. rewrite List.length_map, (contract _ _ Hcol). simpl.
        rewrite Nat.eqb_refl, mask_select_none. reflexivity. }
    erewrite bind_ok by reflexivity.
    erewrite bind_ok.
    2:{ unfold np_mask. rewrite List.length_map, (contract _ _ Hcol). simpl.
        rewrite Nat.eqb_refl, mask_select_none. reflexivity. }
    erewrite bind_ok by reflexivity.
    erewrite bind_ok by reflexivity.
    erewrite bind_ok by reflexivity.
    reflexivity.
  - cbn [calls]. by rewrite <- !app_assoc.
  - reflexivity.
  - reflexivity.
Qed.
End SingleLevel.

(** ** The collaborators of the examples meet their contracts *)

Module DemoFacts.
Lemma square_contract : model_contract Demo.square_model "x".
Proof.
  intros df c Hc. unfold Demo.square_model. rewrite Hc.
  rewrite length_imap. by destruct c; simpl; rewrite ?List.length_map.
Qed.

Lemma constant_contract : model_contract Demo.constant_model "x".
Proof.
  intros df c Hc. unfold Demo.constant_model. rewrite Hc.
  rewrite List.length_map. by destruct c; simpl; rewrite ?List.length_map.
Qed.

Lemma constant_is_constant : constant_model Demo.constant_model.
Proof.
  exists (7 # 2)%Q. intros df y. unfold Demo.constant_model.
  destruct (df !! "x"); [|done]. intros Hy. by apply in_map_iff in Hy as (? & <- & _).
Qed.

Lemma fold_min_le (x : Q) (l : list Q) :
  (foldl (λ m y : Q, if kltb y m then y else m) x l <= x)%Q.
Proof.
  revert x. induction l as [|y l IH]; intros x; simpl; [apply Qle_refl|].
  destruct (kltb y x) eqn:E; [|apply IH].
  apply kltb_true in E. apply (proj1 (klt_Q _ _)) in E.
  eapply Qle_trans; [apply IH | by apply Qlt_le_weak].
Qed.

Lemma fold_max_ge (x : Q) (l : list Q) :
  (x <= foldl (λ m y : Q, if kltb m y then y else m) x l)%Q.
Proof.
  revert x. induction l as [|y l IH]; intros x; simpl; [apply Qle_refl|].
  destruct (kltb x y) eqn:E; [|apply IH].
  apply kltb_true in E. apply (proj1 (klt_Q _ _)) in E.
  eapply Qle_trans; [by apply Qlt_le_weak | apply IH].
Qed.

Lemma half_range_contract (C : spec_float) : ci_contract Demo.half_range C.
Proof.
  intros [|x [|y l]] Hl; simpl in Hl; try lia.
  unfold Demo.half_range. eexists. split; [reflexivity|].
  pose proof (fold_min_le x (x :: y :: l)) as Hlo.
  pose proof (fold_max_ge x (x :: y :: l)) as Hhi.
  revert Hlo Hhi.
  generalize (foldl (λ m y0 : Q, if kltb y0 m then y0 else m) x (x :: y :: l)).
  generalize (foldl (λ m y0 : Q, if kltb m y0 then y0 else m) x (x :: y :: l)).
  intros hi lo Hlo Hhi.
  apply Qle_shift_div_l; [reflexivity | lra].
Qed.
End DemoFacts.

(** * The claims *)



(** C2 (the code departs from the claim). The probabilities of line 30
    are computed in binary64 by [np.arange], whose length is
    [ceil((stop - start) / step)]. For a grid of 40 this gives the 41
    probabilities from 0 to 1 that the claim describes; for a grid of 49
    the quotient rounds to a value above 49, so that 51 probabilities are
    produced, the last of them above 1. *)
Theorem quantile_grid_49_overshoots :
  (∃ qs, quantile_grid 40 = inr qs ∧ length qs = 41%nat ∧ (List.last qs 0 == 1)%Q) ∧
  (∃ qs, quantile_grid 49 = inr qs ∧ length qs = 51%nat ∧ (1 < List.last qs 0)%Q).
Proof.
  split.
  - exists (match quantile_grid 40 with inr q => q | inl _ => [] end).
    split; [vm_compute; reflexivity|]. split; vm_compute; reflexivity.
  - exists (match quantile_grid 49 with inr q => q | inl _ => [] end).
    split; [vm_compute; reflexivity|]. split; vm_compute; reflexivity.
Qed.
















(** C9 (confirmed). Neither estimator writes to an object that existed
    when it was called: whatever the run does, and whether it returns or
    raises, the heap it leaves is the initial heap followed by the fresh
    copies, so that the caller's table [X], with every column, is the
    table it was. *)
Theorem caller_table_unchanged :
  (∀ predict quantile_ied CI_estimate legacy_cut X feature grid_size include_CI C s,
     let s' := snd (aleplot_1D_continuous predict quantile_ied CI_estimate legacy_cut X
                      feature grid_size include_CI C s) in
     heap_extends s s' ∧
     ∀ dfX, heap s !! X = Some dfX → heap s' !! X = Some dfX) ∧
  (∀ predict X feature s,
     let s' := snd (aleplot_1D_discrete predict X feature s) in
     heap_extends s s' ∧
     ∀ dfX, heap s !! X = Some dfX → heap s' !! X = Some dfX).
Proof.
  assert (G : ∀ A (m : M A) s, keeps s m (λ _, True) →
                heap_extends s (snd (m s)) ∧
                ∀ (X : nat) dfX, heap s !! X = Some dfX → heap (snd (m s)) !! X = Some dfX).
  { intros A m s Hk. destruct (m s) as [r s'] eqn:E.
    destruct (Hk s r s' (ex_intro _ [] (eq_sym (app_nil_r _))) E) as [[fresh Hs] _].
    split; [by exists fresh|]. intros X dfX HX. cbn [snd]. rewrite Hs.
    rewrite lookup_app_l; [done | by eapply lookup_lt_Some]. }
  split.
  - intros. cbv zeta. split; [apply G, keeps_continuous|].
    intros dfX. apply G, keeps_continuous.
  - intros. cbv zeta. split; [apply G, keeps_discrete|].
    intros dfX. apply G, keeps_discrete.
Qed.

Lemma caller_table_unchanged_witness :
  heap (snd (aleplot_1D_continuous Demo.square_model Demo.inv_ecdf Demo.half_range true
               0%nat "x" 4 true Demo.C95 (Demo.init Demo.table_cont))) !! 0%nat
    = Some Demo.table_cont ∧
  heap (snd (aleplot_1D_discrete Demo.square_model 0%nat "x"
               (Demo.init Demo.table_disc))) !! 0%nat
    = Some Demo.table_disc.
Proof.
  destruct caller_table_unchanged as [Hc Hd]. split.
  - apply (Hc Demo.square_model Demo.inv_ecdf Demo.half_range true 0%nat "x" 4 true
             Demo.C95 (Demo.init Demo.table_cont)).
    vm_compute; reflexivity.
  - apply (Hd Demo.square_model 0%nat "x" (Demo.init Demo.table_disc)).
    vm_compute; reflexivity.
Defined.

(** C10 (confirmed). For every delta table whose keys are not below the
    anchor label (the keys of the estimator are bin edges, the anchor is
    the smallest edge), the centering constant of the source, computed
    over the rows as they stand with the anchor appended last and a fill
    value of 0 before the first row, equals the constant of the
    specification, computed over the rows sorted by key with the anchor
    first; both are undefined together. *)
Theorem centering_positional_eq_sorted (delta_df : list (Q * Q)) (b0 : Q) :
  Forall (λ kv, (b0 <= fst kv)%Q) delta_df →
  cell_eq (mean_mv_avg (loc_zero b0 (accumulate delta_df)))
          (mv_weighted_mean
             (List.map aux (sort_index (loc_zero b0 (accumulate delta_df))))
             (List.map eff (sort_index (loc_zero b0 (accumulate delta_df))))).
Proof.
  intros Hge.
  destruct (centering_core delta_df b0 Hge)
    as (a & t & -> & Ha & He & _ & _ & _ & _ & HN & HD).
  rewrite mean_mv_avg_terms. unfold mv_weighted_mean. cbv zeta.
  destruct (mv_pairs_rows a t) as [Hn Hd]. cbv zeta in Hn, Hd.
  apply nan_div_proper.
  - rewrite HN, Hn. by rewrite He.
  - by rewrite HD, Hd.
Qed.

Lemma centering_positional_eq_sorted_witness :
  cell_eq
    (mean_mv_avg (loc_zero 1%Q (accumulate Demo.deltas)))
    (mv_weighted_mean
       (List.map aux (sort_index (loc_zero 1%Q (accumulate Demo.deltas))))
       (List.map eff (sort_index (loc_zero 1%Q (accumulate Demo.deltas))))).
Proof.
  apply (centering_positional_eq_sorted Demo.deltas 1%Q).
  repeat constructor; vm_compute; discriminate.
Defined.

(** * Further properties *)

(** ** The probabilities of line 30 over a range of grid sizes *)

Lemma increasing_sorted (l : list Q) : increasing l = true → StronglySorted Qlt l.
Proof.
  intros Hl. apply Sorted_StronglySorted; [intros x y z; apply Qlt_trans|].
  induction l as [|x [|y t] IH]; [constructor | by repeat constructor |].
  change (kltb x y && increasing (y :: t) = true) in Hl.
  apply andb_true_iff in Hl as [Hxy Ht].
  constructor; [by apply IH|]. constructor.
  apply (proj1 (klt_Q x y)), kltb_true, Hxy.
Qed.

Lemma grid_checked (g : Z) : 1 ≤ g ≤ 300 → grid_check g = true.
Proof.
  intros Hg.
  assert (Hall : forallb grid_check (List.map Z.of_nat (seq 1 300)) = true)
    by (vm_compute; reflexivity).
  rewrite forallb_forall in Hall. apply Hall.
  apply in_map_iff. exists (Z.to_nat g). split; [lia|]. apply in_seq. lia.
Qed.

Lemma negative_grid_checked (g : Z) : -300 ≤ g ≤ -1 → quantile_grid g = inr [0%Q].
Proof.
  intros Hg.
  assert (Hall : forallb (λ g, match quantile_grid g with
                               | inr [q] => Qeq_bool q 0 && (Qden q =? 1)%positive
                               | _ => false
                               end)
                   (List.map (λ n, - Z.of_nat n) (seq 1 300)) = true)
    by (vm_compute; reflexivity).
  rewrite forallb_forall in Hall.
  specialize (Hall g). cbv beta in Hall.
  destruct (quantile_grid g) as [e|[|q [|? ?]]].
  1,2,4: (discriminate Hall;
          apply in_map_iff; exists (Z.to_nat (- g)); split; [lia|]; apply in_seq; lia).
  assert (Hq : Qeq_bool q 0 && (Qden q =? 1)%positive = true).
  { apply Hall. apply in_map_iff. exists (Z.to_nat (- g)). split; [lia|].
    apply in_seq. lia. }
  apply andb_true_iff in Hq as [Hq Hd]. apply Qeq_bool_iff in Hq.
  apply Pos.eqb_eq in Hd. destruct q as [n d]. simpl in Hd. subst d.
  unfold Qeq in Hq. simpl in Hq. assert (n = 0) as -> by lia. done.
Qed.

(** X1. For every grid size from 1 to 300, line 30 produces probabilities
    that start at 0 and increase strictly; there are [grid_size + 1] of
    them, except for the nine sizes 49, 103, 196, 206, 214, 237, 239, 249
    and 253, where [np.arange] yields one more; the probability at
    position [grid_size] differs from 1 by at most [2^-52]. *)
Theorem quantile_grid_upto_300 (g : Z) :
  1 ≤ g ≤ 300 →
  ∃ qs,
    quantile_grid g = inr qs ∧
    (∃ q0 t, qs = q0 :: t ∧ (q0 == 0)%Q) ∧
    StronglySorted Qlt qs ∧
    Z.of_nat (length qs) = (if existsb (Z.eqb g) overshooting then g + 2 else g + 1) ∧
    (1 - (1 # 4503599627370496) <= nth (Z.to_nat g) qs 0)%Q ∧
    (nth (Z.to_nat g) qs 0 <= 1 + (1 # 4503599627370496))%Q.
Proof.
  intros Hg. pose proof (grid_checked g Hg) as Hc. unfold grid_check in Hc.
  destruct (quantile_grid g) as [e|qs]; [done|]. exists qs. split; [done|].
  unfold grid_shape in Hc.
  repeat (apply andb_true_iff in Hc as [Hc ?]).
  split; [|split; [by apply increasing_sorted|]].
  - destruct qs as [|q0 t]; [done|]. exists q0, t. split; [done|].
    by apply Qeq_bool_iff.
  - split; [by apply Z.eqb_eq|]. split; by apply Qle_bool_iff.
Qed.

Lemma quantile_grid_upto_300_witness :
  ∃ qs, quantile_grid 40 = inr qs ∧ length qs = 41%nat ∧ StronglySorted Qlt qs.
Proof.
  destruct (quantile_grid_upto_300 40) as (qs & Hq & _ & Hs & Hl & _); [lia|].
  exists qs. split; [done|]. split; [|done].
  change (Z.of_nat (length qs) = 41) in Hl. lia.
Defined.

(** ** Failures before any work is done *)

(** X2. A grid size of 0 ends the continuous estimator with the
    [ZeroDivisionError] of line 30 before the table is looked at; a
    negative grid size (down to -300) is accepted, and line 30 then yields
    the single probability 0. *)
Theorem nonpositive_grid_size (g : Z) :
  -300 ≤ g ≤ 0 →
  (g = 0 →
   ∀ predict quantile_ied CI_estimate legacy_cut X feature include_CI C s,
     aleplot_1D_continuous predict quantile_ied CI_estimate legacy_cut X feature g
       include_CI C s = (inl "ZeroDivisionError", s)) ∧
  (g < 0 → quantile_grid g = inr [0%Q]).
Proof.
  intros Hg. split.
  - by intros ->.
  - intros Hneg. apply negative_grid_checked. lia.
Qed.

Lemma nonpositive_grid_size_witness :
  aleplot_1D_continuous Demo.square_model Demo.inv_ecdf Demo.half_range false 0%nat "x"
    0 true Demo.C95 (Demo.init Demo.table_cont)
  = (inl "ZeroDivisionError", Demo.init Demo.table_cont) ∧
  quantile_grid (-4) = inr [0%Q].
Proof.
  split.
  - apply (nonpositive_grid_size 0); [lia | reflexivity].
  - apply (nonpositive_grid_size (-4)); lia.
Defined.

(** X3. When the caller's table has no column of the given name, both
    estimators end with the [KeyError] of [X[feature]]; nothing has been
    copied and the model has not been called. *)
Theorem missing_feature_KeyError :
  (∀ predict quantile_ied CI_estimate legacy_cut s X feature grid_size include_CI C
     dfX qs,
     heap s !! X = Some dfX → dfX !! feature = None →
     quantile_grid grid_size = inr qs →
     aleplot_1D_continuous predict quantile_ied CI_estimate legacy_cut X feature
       grid_size include_CI C s = (inl "KeyError", s)) ∧
  (∀ predict s X feature dfX,
     heap s !! X = Some dfX → dfX !! feature = None →
     aleplot_1D_discrete predict X feature s = (inl "KeyError", s)).
Proof.
  split.
  - intros * HX Hcol Hgrid. unfold aleplot_1D_continuous.
    erewrite bind_ok by (unfold lift; by rewrite Hgrid).
    erewrite bind_ok by (unfold load; by rewrite HX).
    erewrite bind_err; [reflexivity|]. unfold getcol. by rewrite Hcol.
  - intros * HX Hcol. unfold aleplot_1D_discrete.
    erewrite bind_ok by (unfold load; by rewrite HX).
    erewrite bind_err; [reflexivity|]. unfold getcol. by rewrite Hcol.
Qed.

Lemma missing_feature_KeyError_witness :
  aleplot_1D_continuous Demo.square_model Demo.inv_ecdf Demo.half_range false 0%nat "y"
    4 true Demo.C95 (Demo.init Demo.table_cont)
  = (inl "KeyError", Demo.init Demo.table_cont) ∧
  aleplot_1D_discrete Demo.square_model 0%nat "y" (Demo.init Demo.table_disc)
  = (inl "KeyError", Demo.init Demo.table_disc).
Proof.
  destruct missing_feature_KeyError as [Hc Hd]. split.
  - apply (Hc Demo.square_model Demo.inv_ecdf Demo.half_range false
             (Demo.init Demo.table_cont) 0%nat "y" 4 true Demo.C95
             Demo.table_cont Demo.grid4); vm_compute; reflexivity.
  - apply (Hd Demo.square_model (Demo.init Demo.table_disc) 0%nat "y" Demo.table_disc);
      vm_compute; reflexivity.
Defined.

(** ** Columns that the discrete estimator cannot index with *)

(** A column of floats with two distinct values has a row below its
    largest value and a row above its smallest one. *)
Lemma float_levels_selected (ys : list Q) (g1 g2 : Q) (rest : list Q) :
  np_unique ys = g1 :: g2 :: rest →
  ∃ gl, last (np_unique ys) = Some gl ∧
        mask_select (List.map (λ y, kltb y gl) ys) ys ≠ [].
Proof.
  intros Hg. pose proof (np_unique_sorted ys) as Hs. rewrite Hg in Hs.
  destruct (last (g2 :: rest)) as [gl|] eqn:Hl.
  2:{ by apply last_None in Hl. }
  exists gl. split.
  - rewrite Hg. by rewrite last_cons, Hl.
  - apply StronglySorted_inv in Hs as [_ Hlt]. rewrite Forall_forall in Hlt.
    assert (Hin : In gl (g2 :: rest)).
    { apply list_elem_of_In. rewrite last_lookup in Hl.
      by eapply list_elem_of_lookup_2. }
    assert (H1 : In g1 ys) by (apply np_unique_In; rewrite Hg; by left).
    pose proof (mask_select_member (λ y, kltb y gl) ys g1 H1) as Hsel.
    intros Hnil. rewrite Hnil in Hsel. apply Hsel.
    apply kltb_true, Hlt. by apply list_elem_of_In.
Qed.

(** X4. The discrete estimator indexes the sorted levels with the feature
    values themselves. A feature column without rows, and one of float
    dtype with two or more distinct values, end the run with an
    [IndexError] before the model is called: the former at [groups[K - 1]]
    on line 100, the latter at line 104, where the index is a non-empty
    array of floats. *)
Theorem discrete_float_or_empty_column predict s X feature dfX col :
  heap s !! X = Some dfX → dfX !! feature = Some col →
  col = IntCol [] ∨ (∃ ys, col = FloatCol ys ∧ length (np_unique ys) ≠ 1%nat) →
  fails_before_predict "IndexError" (aleplot_1D_discrete predict X feature) s.
Proof.
  intros HX Hcol Hbad. destruct (copies_made s X dfX HX) as [Hc1 Hc2].
  assert (Hrun : aleplot_1D_discrete predict X feature s =
                 (inl "IndexError", State (heap s ++ [dfX; dfX]) (calls s))).
  { unfold aleplot_1D_discrete.
    erewrite bind_ok by (unfold load; by rewrite HX).
    erewrite bind_ok by (unfold getcol; by rewrite Hcol).
    erewrite bind_ok by exact Hc1.
    erewrite bind_ok by exact Hc2.
    destruct Hbad as [->|(ys & -> & Hlen)]; [reflexivity|].
    cbv beta iota zeta.
    destruct (np_unique ys) as [|g1 [|g2 rest]] eqn:Hg; [reflexivity | done |].
    destruct (float_levels_selected ys g1 g2 rest Hg) as (gl & Hlast & Hsel).
    rewrite <- Hg.
    erewrite bind_ok by (by apply np_getitem_end).
    erewrite bind_ok by (apply np_getitem_head; by rewrite Hg).
    destruct (mask_select (List.map (λ y, kltb y gl) ys) ys) as [|y sel]; [done|].
    reflexivity. }
  unfold fails_before_predict. by rewrite Hrun.
Qed.

Lemma discrete_float_or_empty_column_witness :
  fails_before_predict "IndexError" (aleplot_1D_discrete Demo.square_model 0%nat "x")
    (Demo.init Demo.table_cont).
Proof.
  apply (discrete_float_or_empty_column Demo.square_model (Demo.init Demo.table_cont)
           0%nat "x" Demo.table_cont (FloatCol Demo.xs_cont)).
  - reflexivity.
  - vm_compute; reflexivity.
  - right. exists Demo.xs_cont. split; [reflexivity | vm_compute; lia].
Defined.

(** ** A column of floats with a single value *)

Section FloatSingleLevel.
Variable predict : DataFrame → list Q.
Variables (s : state) (X : nat) (feature : string).
Variables (dfX : DataFrame) (ys : list Q) (v : Q).
Hypothesis table : heap s !! X = Some dfX.
Hypothesis column : dfX !! feature = Some (FloatCol ys).
Hypothesis contract : model_contract predict feature.
Hypothesis single : np_unique ys = [v].

Lemma float_single_values (y : Q) : In y ys → keq y v.
Proof.
  intros Hy. assert (Hex : Exists (keq y) (np_unique ys)).
  { apply np_unique_Exists, Exists_exists. exists y.
    split; [by apply list_elem_of_In | apply keq_refl]. }
  rewrite single in Hex. apply Exists_cons in Hex as [?|Hex]; [done|].
  by apply Exists_nil in Hex.
Qed.

Lemma float_single_up_mask :
  List.map (λ y, kltb y v) ys = List.map (λ _, false) ys.
Proof.
  apply List.map_ext_in. intros y Hy%float_single_values.
  unfold kltb. unfold keq in Hy. by rewrite Hy.
Qed.

Lemma float_single_down_mask :
  List.map (λ y, kltb v y) ys = List.map (λ _, false) ys.
Proof.
  apply List.map_ext_in. intros y Hy%float_single_values%keq_sym.
  unfold kltb. unfold keq in Hy. by rewrite Hy.
Qed.

Lemma float_empty_selection_predict :
  predict (select_rows (List.map (λ _, false) ys) dfX) = [].
Proof.
  assert (Hl : length (predict (select_rows (List.map (λ _, false) ys) dfX)) = 0%nat).
  { rewrite (contract _ (FloatCol [])); [done|].
    unfold select_rows. rewrite lookup_fmap, column. simpl.
    by rewrite mask_select_none. }
  by destruct (predict _).
Qed.

(** The [eff] of the anchor row: the proportions have the one label [v],
    which is the label of the anchor only when [v] is zero. *)
Lemma float_single_eff :
  ((v == 0)%Q →
   ∃ q, get_column "eff" (columns (int_labels (float_table [] (float_props ys))))
          = Some [Some q] ∧ (q == 0)%Q) ∧
  (¬ (v == 0)%Q →
   get_column "eff" (columns (int_labels (float_table [] (float_props ys))))
     = Some [None]).
Proof.
  unfold float_props. cbv zeta. rewrite single.
  set (n := Z.of_nat (length (List.filter (keqb v) ys))).
  cbn [List.map fst snd foldr].
  unfold int_labels, float_table. cbv zeta.
  change (sort_index (loc_zero 0%Q (float_level_rows [])))
    with [@Row Q 0%Q 0%Q 0%Q].
  cbn [columns get_column String.eqb Ascii.eqb Bool.eqb List.map label eff].
  unfold align_mul. cbn [List.map fst app]. unfold np_unique. cbn [foldr uinsert].
  destruct (kcmp 0%Q v) eqn:E.
  - split; [intros _ | intros Hne; exfalso; apply Hne; symmetry; by apply keq_Q].
    cbn [List.map lookup_label].
    assert (keqb v 0%Q = true) as ->.
    { apply keqb_true, keq_sym. exact E. }
    assert (keqb v v = true) as -> by apply keqb_true, keq_refl.
    cbn [py_sum foldl cell_add cell_sub]. eexists. split; [reflexivity|]. ring.
  - split.
    { intros Hv. exfalso. symmetry in Hv. apply keq_Q in Hv.
      unfold keq in Hv. congruence. }
    intros _. cbn [List.map lookup_label].
    assert (keqb 0%Q 0%Q = true) as -> by apply keqb_true, keq_refl.
    assert (keqb 0%Q v = false) as -> by (unfold keqb; by rewrite E).
    reflexivity.
  - split.
    { intros Hv. exfalso. symmetry in Hv. apply keq_Q in Hv.
      unfold keq in Hv. congruence. }
    intros _. cbn [List.map lookup_label].
    assert (keqb v 0%Q = false) as ->.
    { unfold keqb. rewrite kcmp_antisym, E. reflexivity. }
    reflexivity.
Qed.

(** On a column of floats with a single distinct value nothing is
    raised: no row is selected, the two empty indices are accepted, the
    model is called on the whole table and on the two empty selections,
    and the table has the anchor row only. *)
Lemma float_single_level :
  ∃ f s',
    aleplot_1D_discrete predict X feature s = (inr f, s') ∧
    calls s' = calls s ++ [dfX;
                           select_rows (List.map (λ _, false) ys) dfX;
                           select_rows (List.map (λ _, false) ys) dfX] ∧
    f = int_labels (float_table [] (float_props ys)).
Proof.
  pose proof float_empty_selection_predict as Hempty.
  destruct (copies_made s X dfX table) as [Hc1 Hc2].
  eexists _, _. split; [|split].
  - unfold aleplot_1D_discrete.
    erewrite bind_ok by (unfold load; by rewrite table).
    erewrite bind_ok by (unfold getcol; by rewrite column).
    erewrite bind_ok by exact Hc1.
    erewrite bind_ok by exact Hc2.
    cbv beta iota zeta. rewrite single.
    cbn [length Z.of_nat Z.sub Z.add Z.opp Z.pos_sub].
    erewrite bind_ok by reflexivity.
    erewrite bind_ok by reflexivity.
    rewrite float_single_up_mask, float_single_down_mask.
    rewrite !mask_select_none. cbn [List.map].
    erewrite bind_ok by reflexivity.
    erewrite bind_ok.
    2:{ unfold loc_assign_float.
        erewrite bind_ok by (unfold load; cbn [heap]; by rewrite heap_lookup_fst).
        erewrite bind_ok by (unfold getcol; by rewrite column).
        unfold store. cbn [heap calls float_values].
        rewrite mask_assign_none, (insert_id dfX feature _ column), heap_insert_fst.
        reflexivity. }
    erewrite bind_ok by reflexivity.
    erewrite bind_ok.
    2:{ unfold loc_assign_float.
        erewrite bind_ok by (unfold load; cbn [heap]; by rewrite heap_lookup_snd).
        erewrite bind_ok by (unfold getcol; by rewrite column).
        unfold store. cbn [heap calls float_values].
        rewrite mask_assign_none, (insert_id dfX feature _ column), heap_insert_snd.
        reflexivity. }
    erewrite bind_ok.
    2:{ unfold py_predict.
        erewrite bind_ok
          by (unfold load; cbn [heap];
              rewrite lookup_app_l by (by eapply lookup_lt_Some); by rewrite table).
        reflexivity. }
    cbn [heap calls].
    erewrite bind_ok by (unfold load; cbn [heap]; by rewrite heap_lookup_fst).
    erewrite bind_ok by reflexivity.
    cbn [heap calls].
    erewrite bind_ok by (unfold load; cbn [heap]; by rewrite heap_lookup_snd).
    erewrite bind_ok by reflexivity.
    cbn [heap calls]. rewrite Hempty.
    erewrite bind_ok.
    2:{ unfold np_mask. rewrite List.length_map, (contract _ _ column). simpl.
        rewrite Nat.eqb_refl, mask_select_none. reflexivity. }
    erewrite bind_ok by reflexivity.
    erewrite bind_ok.
    2:{ unfold np_mask. rewrite List.length_map, (contract _ _ column). simpl.
        rewrite Nat.eqb_refl, mask_select_none. reflexivity. }
    erewrite bind_ok by reflexivity.
    erewrite bind_ok by reflexivity.
    erewrite bind_ok by reflexivity.
    reflexivity.
  - cbn [calls]. by rewrite <- !app_assoc.
  - reflexivity.
Qed.
End FloatSingleLevel.



(** ** Levels that are not codes *)

(** X5. The discrete estimator reads [groups[value + 1]] for the rows
    below the largest level and [groups[value - 1]] for the rows above the
    smallest one. When one of these positions lies outside the array of
    the [K] sorted levels, the run ends with an [IndexError] before the
    model is called. *)
Theorem discrete_stray_level_IndexError predict s X feature dfX xs :
  discrete_input s X feature dfX xs →
  (∃ x, In x xs ∧
     ((x < max_level xs ∧ ¬ in_bounds (np_unique xs) (x + 1)) ∨
      (min_level xs < x ∧ ¬ in_bounds (np_unique xs) (x - 1)))) →
  fails_before_predict "IndexError" (aleplot_1D_discrete predict X feature) s.
Proof.
  intros [HX Hcol] (x & Hx & Hbad).
  destruct (copies_made s X dfX HX) as [Hc1 Hc2].
  assert (Hne : np_unique xs ≠ []).
  { destruct xs as [|y xs']; [done | apply np_unique_nonempty]. }
  assert (Hrun : ∃ h, aleplot_1D_discrete predict X feature s =
                      (inl "IndexError", State h (calls s))).
  { unfold aleplot_1D_discrete.
    erewrite bind_ok by (unfold load; by rewrite HX).
    erewrite bind_ok by (unfold getcol; by rewrite Hcol).
    erewrite bind_ok by exact Hc1.
    erewrite bind_ok by exact Hc2.
    cbv beta iota zeta.
    erewrite bind_ok by (by apply np_getitem_last).
    fold (max_level xs).
    assert (Hmin : ∀ s0, np_getitem (np_unique xs) 0 s0 = (inr (min_level xs), s0)).
    { intros s0. unfold min_level. destruct (np_unique xs) as [|g gs]; [done|].
      apply np_getitem_first. }
    erewrite bind_ok by apply Hmin.
    set (ind_plus := List.map (λ y, y <? max_level xs) xs).
    set (ind_neg := List.map (λ y, min_level xs <? y) xs).
    destruct (np_take_cases (np_unique xs)
                (List.map (λ y, y + 1) (mask_select ind_plus xs))
                (State (heap s ++ [dfX; dfX]) (calls s)))
      as [[Hup (up & Hupv)]|[_ Hupv]].
    2:{ erewrite bind_err by exact Hupv. eauto. }
    erewrite bind_ok by exact Hupv.
    erewrite bind_ok.
    2:{ unfold loc_assign.
        erewrite bind_ok by (unfold load; cbn [heap]; by rewrite heap_lookup_fst).
        erewrite bind_ok by (unfold getcol; by rewrite Hcol).
        unfold store. cbv beta iota. cbn [heap calls]. rewrite heap_insert_fst.
        reflexivity. }
    destruct (np_take_cases (np_unique xs)
                (List.map (λ y, y - 1) (mask_select ind_neg xs))
                (State (heap s ++ [<[feature := IntCol (mask_assign ind_plus up xs)]> dfX; dfX])
                       (calls s)))
      as [[Hdown _]|[_ Hdownv]].
    2:{ erewrite bind_err by exact Hdownv. eauto. }
    exfalso. destruct Hbad as [[Hlt Hout]|[Hgt Hout]].
    - apply Hout. rewrite Forall_forall in Hup. apply Hup, list_elem_of_In.
      apply in_map_iff. exists x. split; [done|].
      apply mask_select_In; [done | by apply Z.ltb_lt].
    - apply Hout. rewrite Forall_forall in Hdown. apply Hdown, list_elem_of_In.
      apply in_map_iff. exists x. split; [done|].
      apply mask_select_In; [done | by apply Z.ltb_lt]. }
  destruct Hrun as (h & Hrun). unfold fails_before_predict. by rewrite Hrun.
Qed.

Lemma discrete_stray_level_IndexError_witness :
  fails_before_predict "IndexError" (aleplot_1D_discrete Demo.square_model 0%nat "x")
    (Demo.init (<["x" := IntCol [1; 2; 1]]> Demo.table_gap)).
Proof.
  apply (discrete_stray_level_IndexError Demo.square_model _ 0%nat "x"
           (<["x" := IntCol [1; 2; 1]]> Demo.table_gap) [1; 2; 1]).
  - split; vm_compute; reflexivity.
  - exists 1. split; [by left|]. left. split; [vm_compute; reflexivity|].
    unfold in_bounds. simpl. lia.
Defined.

(** ** The bin edges and the bin of a row *)

Lemma sorted_lookup_lt (l : list Q) (i j : nat) (a b : Q) :
  StronglySorted klt l → l !! i = Some a → l !! j = Some b → (i < j)%nat → (a < b)%Q.
Proof.
  intros Hs. revert i j. induction Hs as [|h t Hs IH Hh]; intros i j Hi Hj Hij; [done|].
  destruct j as [|j]; [lia|]. simpl in Hj. destruct i as [|i]; simpl in Hi.
  - injection Hi as <-. rewrite Forall_forall in Hh.
    apply klt_Q, Hh. by eapply list_elem_of_lookup_2.
  - apply (IH i j); [done | done | lia].
Qed.

Lemma sorted_lookup_le (l : list Q) (i j : nat) (a b : Q) :
  StronglySorted klt l → l !! i = Some a → l !! j = Some b → (i ≤ j)%nat → (a <= b)%Q.
Proof.
  intros Hs Hi Hj Hij. destruct (decide (i = j)) as [->|Hne].
  - rewrite Hi in Hj. injection Hj as <-. apply Qle_refl.
  - apply Qlt_le_weak. eapply sorted_lookup_lt; eauto. lia.
Qed.

Lemma kmin_sorted (b : Q) (t : list Q) :
  StronglySorted klt (b :: t) → kmin (b :: t) = Some b.
Proof.
  intros Hs. apply StronglySorted_inv in Hs as [_ Hb]. simpl. f_equal.
  induction Hb as [|y t Hy Ht IH]; [done|]. simpl.
  assert (kltb y b = false) as ->; [|done].
  destruct (kltb y b) eqn:E; [|done]. apply kltb_true in E.
  by destruct (klt_asym _ _ Hy).
Qed.

Lemma kltb_Q (a b : Q) : kltb a b = true ↔ (a < b)%Q.
Proof. rewrite kltb_true. apply klt_Q. Qed.

(** [searchsorted] on increasing edges: the edges below [x] are the
    first ones. *)
Lemma searchsorted_sorted (bins : list Q) (x : Q) (i : nat) (e : Q) :
  StronglySorted klt bins → bins !! i = Some e →
  Z.of_nat i < searchsorted_left bins x ↔ (e < x)%Q.
Proof.
  unfold searchsorted_left. intros Hs. revert i.
  induction Hs as [|b t Hs IH Hb]; intros i Hi; [done|].
  cbn [List.filter]. destruct (kltb b x) eqn:E.
  - cbn [length]. destruct i as [|j]; simpl in Hi.
    + injection Hi as <-. split; [intros _; by apply kltb_Q | lia].
    + rewrite <- (IH j Hi). lia.
  - assert (Hbx : (x <= b)%Q).
    { apply Qnot_lt_le. intros Hlt. apply (proj2 (kltb_Q _ _)) in Hlt. congruence. }
    assert (Hnone : List.filter (λ b0, kltb b0 x) t = []).
    { apply filter_none. rewrite Forall_forall in Hb.
      apply Forall_forall. intros y Hy. destruct (kltb y x) eqn:Ey; [|done].
      apply (proj1 (kltb_Q _ _)) in Ey. specialize (Hb y Hy). apply (proj1 (klt_Q _ _)) in Hb. lra. }
    rewrite Hnone. cbn [length]. split; [lia|]. intros Hlt. exfalso.
    destruct i as [|j]; simpl in Hi.
    + injection Hi as <-. lra.
    + rewrite Forall_forall in Hb.
      pose proof (Hb e (list_elem_of_lookup_2 _ _ _ Hi)) as Hbe. apply (proj1 (klt_Q _ _)) in Hbe. lra.
Qed.

Lemma np_at_lookup (a : list Q) (i : nat) (e : Q) :
  a !! i = Some e → np_at a (Z.of_nat i) = e.
Proof.
  intros Hi. unfold np_at.
  assert ((Z.of_nat i <? 0) = false) as -> by (apply Z.ltb_ge; lia).
  rewrite Nat2Z.id. by apply nth_lookup_Some.
Qed.

(** The code that [pd.cut] gives a value on at least two increasing
    edges: a value between the first and the last edge gets the position
    of the bin [(lo, hi]] that holds it (the first bin also holds its left
    edge); any other value gets [-1]. *)
Lemma cut_code_bin (bins : list Q) (x b0 bl : Q) :
  StronglySorted klt bins → (2 ≤ length bins)%nat →
  head bins = Some b0 → last bins = Some bl →
  ((b0 <= x)%Q ∧ (x <= bl)%Q →
   ∃ (j : nat) (lo hi : Q),
     cut_code bins x = Z.of_nat j ∧ bins !! j = Some lo ∧ bins !! S j = Some hi ∧
     (lo <= x)%Q ∧ (x <= hi)%Q ∧ ((lo < x)%Q ∨ j = 0%nat)) ∧
  (¬ ((b0 <= x)%Q ∧ (x <= bl)%Q) → cut_code bins x = -1).
Proof.
  intros Hs Hlen Hhead Hlast.
  assert (Hcode : cut_code bins x =
                  let ids := if keqb x b0 then 1 else searchsorted_left bins x in
                  if (ids =? Z.of_nat (length bins)) || (ids =? 0) then -1 else ids - 1).
  { unfold cut_code. destruct bins as [|h t]; [done|]. by injection Hhead as ->. }
  rewrite Hcode. clear Hcode. cbv zeta.
  rewrite last_lookup in Hlast.
  assert (H0 : bins !! 0%nat = Some b0) by (by destruct bins).
  destruct (lookup_lt_is_Some_2 bins 1 ltac:(lia)) as (h1 & H1).
  assert (H01 : (b0 < h1)%Q) by (eapply (sorted_lookup_lt bins 0 1); eauto).
  assert (Hb0l : (b0 <= bl)%Q).
  { eapply (sorted_lookup_le bins 0 (pred (length bins))); eauto. lia. }
  destruct (keqb x b0) eqn:Exb.
  - apply keqb_true, keq_Q in Exb.
    assert (E1 : (1 =? Z.of_nat (length bins)) = false) by (apply Z.eqb_neq; lia).
    rewrite E1. cbn [orb Z.eqb]. split.
    + intros _. exists 0%nat, b0, h1. repeat split; try done; try lra. by right.
    + intros Hout. exfalso. apply Hout. split; lra.
  - apply keqb_false in Exb.
    assert (Hne : ¬ (x == b0)%Q) by (by rewrite <- keq_Q).
    pose proof (searchsorted_left_range bins x) as Hrange.
    pose proof (λ i e, searchsorted_sorted bins x i e Hs) as Hk.
    set (k := searchsorted_left bins x) in *.
    destruct (k =? Z.of_nat (length bins)) eqn:Ek; cbn [orb].
    { apply Z.eqb_eq in Ek.
      assert (Hbl : (bl < x)%Q) by (apply (Hk _ _ Hlast); lia).
      split; [intros [_ ?]; lra | done]. }
    apply Z.eqb_neq in Ek. destruct (k =? 0) eqn:Ek0.
    { apply Z.eqb_eq in Ek0.
      assert (Hb0 : ¬ (b0 < x)%Q) by (rewrite <- (Hk _ _ H0); lia).
      split; [intros [? _]; exfalso; apply Hne; lra | done]. }
    apply Z.eqb_neq in Ek0.
    destruct (lookup_lt_is_Some_2 bins (Z.to_nat (k - 1)) ltac:(lia)) as (lo & Hlo).
    destruct (lookup_lt_is_Some_2 bins (S (Z.to_nat (k - 1))) ltac:(lia)) as (hi & Hhi).
    assert (Hlox : (lo < x)%Q) by (apply (Hk _ _ Hlo); lia).
    assert (Hxhi : (x <= hi)%Q).
    { apply Qnot_lt_le. rewrite <- (Hk _ _ Hhi). lia. }
    split.
    + intros _. exists (Z.to_nat (k - 1)), lo, hi.
      split; [lia|]. split; [done|]. split; [done|]. split; [lra|].
      split; [done | by left].
    + intros Hout. exfalso. apply Hout. split.
      * pose proof (sorted_lookup_le bins 0 _ b0 lo Hs H0 Hlo ltac:(lia)). lra.
      * pose proof (sorted_lookup_le bins _ (pred (length bins)) hi bl Hs Hhi Hlast
                      ltac:(lia)). lra.
Qed.

Lemma edges_facts quantile_ied s X feature grid_size dfX xs bins :
  continuous_input quantile_ied s X feature grid_size dfX xs bins →
  ∃ qs mn b0,
    quantile_grid grid_size = inr qs ∧ kmin xs = Some mn ∧
    StronglySorted Qlt bins ∧
    (∀ e, In e bins → e = mn ∨ In e (quantile_ied xs qs)) ∧
    Exists (λ e, (mn == e)%Q) bins ∧
    head bins = Some b0 ∧ kmin bins = Some b0 ∧
    Forall (λ x, (b0 <= x)%Q) xs.
Proof.
  intros Hin.
  pose proof (bins_sorted quantile_ied s X feature grid_size dfX xs bins Hin) as Hs.
  pose proof (bins_nonempty quantile_ied s X feature grid_size dfX xs bins Hin) as Hne.
  destruct Hin as (col & qs & mn & HX & Hcol & Hxs & Hgrid & Hmin & Hbins).
  destruct bins as [|b0 t] eqn:Eb; [done|].
  exists qs, mn, b0. split; [done|]. split; [done|].
  assert (Hex : Exists (λ e, (mn == e)%Q) (b0 :: t)).
  { assert (Hk : Exists (keq mn) (b0 :: t)).
    { rewrite Hbins. apply np_unique_Exists. left. apply keq_refl. }
    eapply Exists_impl; [exact Hk|]. intros e. apply keq_Q. }
  pose proof (kmin_sorted b0 t Hs) as Hb0.
  split; [eapply StronglySorted_weaken; [|exact Hs]; intros x y; apply klt_Q|].
  split; [intros e He; rewrite Hbins in He; apply np_unique_In in He;
          destruct He as [<-|He]; [by left | by right]|].
  split; [done|]. split; [done|]. split; [done|].
  pose proof (kmin_le _ _ Hb0) as Hle. pose proof (kmin_le _ _ Hmin) as Hxle.
  apply Exists_exists in Hex as (e & He & Ee). rewrite Forall_forall in Hle.
  specialize (Hle e He). cbv beta in Hle.
  eapply Forall_impl; [exact Hxle|]. intros x Hx. cbv beta in Hx. lra.
Qed.

(** X6. The bin edges of lines 33-34 increase strictly; each of them is
    the minimum of the feature column or a value of the quantile provider;
    the minimum of the column is among them; the first edge is
    [min(bins)] and no value of the column lies below it. *)
Theorem bin_edges_invariants quantile_ied s X feature grid_size dfX xs bins :
  continuous_input quantile_ied s X feature grid_size dfX xs bins →
  ∃ qs mn b0,
    quantile_grid grid_size = inr qs ∧ kmin xs = Some mn ∧
    StronglySorted Qlt bins ∧
    (∀ e, In e bins → e = mn ∨ In e (quantile_ied xs qs)) ∧
    Exists (λ e, (mn == e)%Q) bins ∧
    head bins = Some b0 ∧ kmin bins = Some b0 ∧
    Forall (λ x, (b0 <= x)%Q) xs.
Proof. apply edges_facts. Qed.

Lemma bin_edges_invariants_witness :
  ∃ qs mn b0,
    quantile_grid 4 = inr qs ∧ kmin Demo.xs_cont = Some mn ∧
    StronglySorted Qlt Demo.bins_cont ∧
    (∀ e, In e Demo.bins_cont → e = mn ∨ In e (Demo.inv_ecdf Demo.xs_cont qs)) ∧
    Exists (λ e, (mn == e)%Q) Demo.bins_cont ∧
    head Demo.bins_cont = Some b0 ∧ kmin Demo.bins_cont = Some b0 ∧
    Forall (λ x, (b0 <= x)%Q) Demo.xs_cont.
Proof.
  apply (bin_edges_invariants Demo.inv_ecdf (Demo.init Demo.table_cont) 0%nat "x" 4
           Demo.table_cont).
  exists (FloatCol Demo.xs_cont), Demo.grid4, 1%Q.
  repeat split; vm_compute; reflexivity.
Defined.

(** X7. On an input with at least two edges the continuous estimator
    calls the model exactly twice, on the caller's table with the feature
    column replaced by the lower edge and then by the upper edge of each
    row's bin: two adjacent edges [lo < hi] with [lo <= x <= hi]. A row
    whose value exceeds the last edge is sent with the last edge as its
    lower and the first edge as its upper value, since its bin code is
    [-1] and lines 42-43 index the edges with it. *)
Theorem predictions_at_bin_edges predict quantile_ied CI_estimate legacy_cut s X
  feature grid_size include_CI C dfX xs bins b0 bl :
  continuous_input quantile_ied s X feature grid_size dfX xs bins →
  model_contract predict feature →
  (2 ≤ length bins)%nat → head bins = Some b0 → last bins = Some bl →
  ∃ los his,
    calls (snd (aleplot_1D_continuous predict quantile_ied CI_estimate legacy_cut X
                  feature grid_size include_CI C s)) =
      calls s ++ [<[feature := FloatCol los]> dfX; <[feature := FloatCol his]> dfX] ∧
    length los = length xs ∧ length his = length xs ∧
    ∀ i x lo hi,
      xs !! i = Some x → los !! i = Some lo → his !! i = Some hi →
      ((x <= bl)%Q →
       (∃ j, bins !! j = Some lo ∧ bins !! S j = Some hi) ∧
       (lo <= x)%Q ∧ (x <= hi)%Q ∧ (lo < hi)%Q) ∧
      ((bl < x)%Q → lo = bl ∧ hi = b0).
Proof.
  intros Hin Hc Hlen Hhead Hlast.
  pose proof (bins_sorted quantile_ied s X feature grid_size dfX xs bins Hin) as Hs.
  destruct (edges_facts quantile_ied s X feature grid_size dfX xs bins Hin)
    as (qs & mn & b0' & _ & _ & _ & _ & _ & Hhead' & Hb0 & Hge).
  assert (b0' = b0) as -> by congruence.
  exists (List.map (np_at bins) (cut_codes bins xs)), (upper_keys bins xs).
  rewrite (continuous_run predict quantile_ied CI_estimate s X feature grid_size dfX xs
             bins Hin Hc legacy_cut (or_intror Hlen) include_CI C b0 Hb0).
  cbn [snd calls]. split; [done|].
  split; [unfold cut_codes; by rewrite !List.length_map|].
  split; [apply upper_keys_length|].
  intros i x lo hi Hx Hlo Hhi.
  unfold upper_keys, cut_codes in Hlo, Hhi.
  rewrite !lookup_map in Hlo. rewrite !lookup_map in Hhi.
  rewrite Hx in Hlo. rewrite Hx in Hhi. simpl in Hlo, Hhi.
  injection Hlo as <-. injection Hhi as <-.
  rewrite Forall_forall in Hge.
  pose proof (Hge x (list_elem_of_lookup_2 _ _ _ Hx)) as Hb0x. cbv beta in Hb0x.
  destruct (cut_code_bin bins x b0 bl Hs Hlen Hhead Hlast) as [Hinside Houtside].
  split.
  - intros Hxl. destruct (Hinside (conj Hb0x Hxl)) as (j & lo & hi & -> & Hl & Hh & ? & ? & _).
    replace (Z.of_nat j + 1) with (Z.of_nat (S j)) by lia.
    rewrite (np_at_lookup _ _ _ Hl), (np_at_lookup _ _ _ Hh).
    split; [by exists j|]. split; [done|]. split; [done|].
    eapply (sorted_lookup_lt bins j (S j)); eauto.
  - intros Hxl. rewrite Houtside by (intros [_ ?]; lra).
    change (-1 + 1) with (Z.of_nat 0). rewrite last_lookup in Hlast.
    split.
    + unfold np_at. cbn [Z.ltb Z.compare].
      replace (Z.to_nat (-1 + Z.of_nat (length bins))) with (pred (length bins)) by lia.
      by apply nth_lookup_Some.
    + apply np_at_lookup. by destruct bins.
Qed.

Lemma predictions_at_bin_edges_witness :
  ∃ los his,
    calls (snd (aleplot_1D_continuous Demo.square_model Demo.inv_ecdf Demo.half_range
                  false 0%nat "x" 4 true Demo.C95 (Demo.init Demo.table_cont))) =
      [<["x" := FloatCol los]> Demo.table_cont; <["x" := FloatCol his]> Demo.table_cont] ∧
    length los = 6%nat ∧ length his = 6%nat.
Proof.
  destruct (predictions_at_bin_edges Demo.square_model Demo.inv_ecdf Demo.half_range
              false (Demo.init Demo.table_cont) 0%nat "x" 4 true Demo.C95
              Demo.table_cont Demo.xs_cont Demo.bins_cont 1%Q 5%Q)
    as (los & his & Hcalls & Hl & Hh & _).
  - exists (FloatCol Demo.xs_cont), Demo.grid4, 1%Q.
    repeat split; vm_compute; reflexivity.
  - apply DemoFacts.square_contract.
  - vm_compute; lia.
  - reflexivity.
  - reflexivity.
  - exists los, his. split; [exact Hcalls|]. split; [exact Hl | exact Hh].
Defined.

(** ** The table of the continuous estimator when the grid covers the column *)

Section Counting.
Context `{Key K}.

Lemma filter_or_length {A : Type} (p q : A → bool) (l : list A) :
  (∀ x, In x l → p x = true → q x = true → False) →
  length (List.filter (λ x, p x || q x) l) =
  (length (List.filter p l) + length (List.filter q l))%nat.
Proof.
  induction l as [|x l IH]; intros Hd; [done|]. cbn [List.filter].
  assert (IH' := IH (λ y Hy, Hd y (or_intror Hy))).
  destruct (p x) eqn:Ep, (q x) eqn:Eq; cbn [orb length]; try lia.
  exfalso. apply (Hd x); [by left | done | done].
Qed.

Lemma sorted_counts (ks : list K) (ys : list K) :
  StronglySorted klt ks →
  sum_list (List.map (λ k, length (List.filter (keqb k) ys)) ks) =
  length (List.filter (λ y, existsb (λ k, keqb k y) ks) ys).
Proof.
  induction 1 as [|k ks Hs IH Hk]; cbn [List.map sum_list existsb].
  - by rewrite filter_none by (by apply Forall_forall).
  - rewrite IH. symmetry. apply filter_or_length.
    intros y _ Hky Hex. apply existsb_exists in Hex as (k' & Hk' & Hk'y).
    apply keqb_true in Hky, Hk'y. rewrite Forall_forall in Hk.
    apply (klt_not_keq k k'); [by apply Hk, list_elem_of_In|].
    eapply keq_trans; [exact Hky | by apply keq_sym].
Qed.

(** The group sizes of the distinct values of a list add up to its length. *)
Lemma unique_counts_total (ys : list K) :
  sum_list (List.map (λ k, length (List.filter (keqb k) ys)) (np_unique ys)) = length ys.
Proof.
  rewrite sorted_counts by apply np_unique_sorted.
  rewrite filter_all; [done|]. apply Forall_forall. intros y Hy.
  assert (Hex : Exists (keq y) (np_unique ys)).
  { apply np_unique_Exists, Exists_exists. exists y. split; [done | apply keq_refl]. }
  apply Exists_exists in Hex as (k & Hk & Eyk).
  apply existsb_exists. exists k. split; [by apply list_elem_of_In|].
  by apply keqb_true, keq_sym.
Qed.

Lemma unique_counts_pos (ys : list K) (k : K) :
  In k (np_unique ys) → (1 ≤ length (List.filter (keqb k) ys))%nat.
Proof.
  intros Hk%np_unique_In.
  assert (Hin : In k (List.filter (keqb k) ys)).
  { apply filter_In. split; [done | apply keqb_true, keq_refl]. }
  destruct (List.filter (keqb k) ys); [done | simpl; lia].
Qed.

Lemma filter_map_length {A : Type} (p : K → bool) (f : A → K) (l : list A) :
  length (List.filter p (List.map f l)) = length (List.filter (λ x, p (f x)) l).
Proof.
  induction l as [|x l IH]; [done|]. cbn [List.map List.filter].
  destruct (p (f x)); cbn [length]; by rewrite IH.
Qed.

Lemma group_zip_length (k : K) (ks : list K) (vs : list Q) :
  length ks = length vs →
  length (group k (zip ks vs)) = length (List.filter (keqb k) ks).
Proof.
  unfold group. rewrite List.length_map. revert vs.
  induction ks as [|a ks IH]; intros [|v vs] Hl; simpl in *; try done.
  destruct (keqb k a); cbn [length]; rewrite IH; lia.
Qed.

(** Setting the anchor at a label below all keys appends it, and sorting
    brings it to the front. *)
Lemma loc_zero_absent (b0 : K) (l : list (row K)) :
  StronglySorted klt (List.map label l) →
  Forall (λ r, klt b0 (label r)) l →
  loc_zero b0 l = l ++ [Row b0 0 0] ∧ sort_index (loc_zero b0 l) = Row b0 0 0 :: l.
Proof.
  intros Hs Hlt. unfold loc_zero.
  assert (Hno : has_label b0 l = false).
  { destruct (has_label b0 l) eqn:E; [|done].
    apply has_label_true, Exists_exists in E as (r & Hr & Er).
    rewrite Forall_forall in Hlt. exfalso. exact (klt_not_keq _ _ (Hlt r Hr) Er). }
  rewrite Hno. split; [done|]. by apply sort_index_snoc.
Qed.

Lemma lookup_label_absent {V : Type} (k : K) (s : list (K * V)) :
  Forall (λ kv, klt k (fst kv)) s → lookup_label k s = None.
Proof.
  induction 1 as [|[k' v] s Hk Hs IH]; [done|]. simpl in *.
  apply klt_not_keq, keqb_false in Hk. by rewrite Hk.
Qed.
End Counting.

Lemma upper_keys_edges (bins xs : list Q) :
  upper_keys bins xs = List.map (upper_edge bins) xs.
Proof. unfold upper_keys, cut_codes, upper_edge. by rewrite !List.map_map. Qed.

Lemma accumulate_aux (d : list (Q * Q)) :
  List.map aux (accumulate d) =
  List.map (λ k, inject_Z (Z.of_nat (length (group k d)))) (group_keys d).
Proof.
  unfold accumulate. cbv zeta. rewrite with_eff_aux by apply agg_length.
  unfold agg_size_mean. by rewrite List.map_map.
Qed.

Lemma accumulate_eff (d : list (Q * Q)) :
  List.map eff (accumulate d) = cumsum (mean_deltas d (group_keys d)).
Proof.
  unfold accumulate. cbv zeta. rewrite with_eff_eff by apply agg_length.
  unfold agg_size_mean, mean_deltas. by rewrite List.map_map.
Qed.

Section CoveredGrid.
Variable predict : DataFrame → list Q.
Variable quantile_ied : list Q → list Q → list Q.
Variable CI_estimate : list Q → spec_float → cell.
Variable legacy_cut : bool.
Variables (s : state) (X : nat) (feature : string) (grid_size : Z).
Variables (dfX : DataFrame) (xs bins : list Q).
Variables (include_CI : bool) (C : spec_float) (pct : Z).
Hypothesis input : continuous_input quantile_ied s X feature grid_size dfX xs bins.
Hypothesis contract : model_contract predict feature.
Hypothesis level : pct_of C = inr pct.
Hypothesis edges : (2 ≤ length bins)%nat.
Hypothesis covered : within_grid bins xs.

Let d := delta_table predict dfX feature bins xs.

Lemma covered_keys (b0 : Q) :
  kmin bins = Some b0 → Forall (λ k, (b0 < k)%Q) (upper_keys bins xs).
Proof.
  intros Hb0. destruct covered as (bl & Hlast & Hle).
  pose proof (bins_sorted quantile_ied s X feature grid_size dfX xs bins input) as Hs.
  destruct (edges_facts quantile_ied s X feature grid_size dfX xs bins input)
    as (qs & mn & b0' & _ & _ & _ & _ & _ & Hhead & Hb0' & Hge).
  assert (b0' = b0) as -> by congruence.
  rewrite upper_keys_edges. apply Forall_map, Forall_forall. intros x Hx.
  rewrite Forall_forall in Hge, Hle.
  destruct (cut_code_bin bins x b0 bl Hs edges Hhead Hlast) as [Hinside _].
  destruct (Hinside (conj (Hge x Hx) (Hle x Hx)))
    as (j & lo & hi & Hc & Hl & Hh & _).
  unfold upper_edge. rewrite Hc.
  replace (Z.of_nat j + 1) with (Z.of_nat (S j)) by lia.
  rewrite (np_at_lookup _ _ _ Hh).
  assert (H0 : bins !! 0%nat = Some b0) by (by destruct bins).
  eapply (sorted_lookup_lt bins 0 (S j)); eauto. lia.
Qed.

Lemma delta_keys : List.map fst d = upper_keys bins xs.
Proof.
  unfold d, delta_table. apply map_fst_zip.
  by rewrite upper_keys_length,
       (delta_values_length predict feature dfX xs bins contract).
Qed.

Lemma covered_group_keys : group_keys d = np_unique (upper_keys bins xs).
Proof. unfold group_keys. by rewrite delta_keys. Qed.

Lemma covered_group_size (k : Q) :
  length (group k d) = rows_in_bin bins xs k.
Proof.
  unfold d, delta_table. rewrite group_zip_length.
  - rewrite upper_keys_edges. apply filter_map_length.
  - by rewrite upper_keys_length,
         (delta_values_length predict feature dfX xs bins contract).
Qed.

(** The returned table: the anchor row at the first edge, then one row
    per distinct upper edge, with the number of rows of its bin and the
    running sum of the mean deltas, shifted by the centering constant. *)
Lemma covered_table :
  ∃ b0 f c,
    kmin bins = Some b0 ∧
    aleplot_1D_continuous predict quantile_ied CI_estimate legacy_cut X feature
      grid_size include_CI C s =
    (inr f,
     State (heap s ++ [lower_table dfX feature bins xs; upper_table dfX feature bins xs])
           (calls s ++ [lower_table dfX feature bins xs; upper_table dfX feature bins xs])) ∧
    Forall (λ k, (b0 < k)%Q) (group_keys d) ∧
    index f = b0 :: group_keys d ∧
    get_column "size" (columns f) =
      Some (Some 0%Q ::
            List.map (λ k, Some (inject_Z (Z.of_nat (rows_in_bin bins xs k))))
              (group_keys d)) ∧
    get_column "eff" (columns f) =
      Some (accumulated c (mean_deltas d (group_keys d))) ∧
    (include_CI = true →
     ∃ lows ups,
       get_column (lowerCI_name pct) (columns f) = Some (None :: lows) ∧
       get_column (upperCI_name pct) (columns f) = Some (None :: ups)).
Proof.
  destruct (continuous_returns predict quantile_ied CI_estimate legacy_cut s X feature
              grid_size dfX xs bins include_CI C pct input contract level
              (or_intror edges))
    as (b0 & f & Hb0 & Hrun & Hf & Hge).
  fold d in Hf, Hge.
  destruct (continuous_table_columns CI_estimate d b0 include_CI C pct level)
    as (f' & Hf' & Hidx & Hsize & Heff & HCI).
  rewrite Hf in Hf'. injection Hf' as <-.
  assert (Hkeys : Forall (λ k, (b0 < k)%Q) (group_keys d)).
  { rewrite covered_group_keys. apply Forall_forall. intros k Hk%list_elem_of_In.
    apply np_unique_In in Hk. pose proof (covered_keys b0 Hb0) as Hall.
    rewrite Forall_forall in Hall. by apply Hall, list_elem_of_In. }
  assert (Hrows : Forall (λ r, klt b0 (label r)) (accumulate d)).
  { rewrite <- (Forall_map label (λ k, klt b0 k)), accumulate_labels.
    eapply Forall_impl; [exact Hkeys|]. intros k. apply klt_Q. }
  destruct (loc_zero_absent b0 (accumulate d) (accumulate_sorted d) Hrows) as [Hloc Hsort].
  pose proof (key_above_anchor predict quantile_ied s X feature grid_size dfX xs bins
                input contract b0 Hb0 edges) as Hkv.
  fold d in Hkv.
  destruct (total_size_pos d b0 Hge (row_above_anchor d b0 Hkv))
    as (c & a & t & Hm & _).
  exists b0, f, c. split; [done|]. split; [exact Hrun|]. split; [done|].
  rewrite Hsort in Hidx, Hsize, Heff, HCI. rewrite Hm in Heff.
  cbn [List.map label aux eff] in Hidx, Hsize, Heff.
  split; [by rewrite Hidx, accumulate_labels|]. split; [|split].
  - rewrite Hsize. do 2 f_equal.
    rewrite <- (List.map_map aux Some), accumulate_aux, List.map_map.
    apply List.map_ext. intros k. by rewrite covered_group_size.
  - rewrite Heff. unfold accumulated. cbn [List.map cell_sub]. do 2 f_equal.
    rewrite <- accumulate_eff, List.map_map. done.
  - intros Hci. destruct (HCI Hci) as [Hlow Hup].
    assert (Hnone : lookup_label b0 (ci_est CI_estimate d C) = None).
    { apply lookup_label_absent. unfold ci_est. apply Forall_map.
      eapply Forall_impl; [exact Hkeys|]. intros k. apply klt_Q. }
    cbn [List.map label] in Hlow, Hup.
    rewrite Hnone in Hlow. rewrite Hnone in Hup.
    rewrite Hm in Hlow. rewrite Hm in Hup.
    change (mjoin None) with (@None Q) in Hlow, Hup.
    cbn [cell_sub cell_add eff] in Hlow, Hup.
    eexists _, _. split; [exact Hlow | exact Hup].
Qed.
End CoveredGrid.


Lemma within_grid_demo : within_grid Demo.bins_cont Demo.xs_cont.
Proof.
  exists 5%Q. split; [reflexivity|]. repeat constructor; unfold Qle; simpl; lia.
Qed.






(** X11. A confidence level whose percentage [int(C * 100)] cannot be
    computed (a NaN gives a [ValueError], an infinity an
    [OverflowError]) is only met at line 62: with [include_CI] the run
    ends with that error after the model has been called on both
    tables. *)
Theorem bad_level_fails_after_predictions predict quantile_ied CI_estimate legacy_cut
  s X feature grid_size C e dfX xs bins :
  continuous_input quantile_ied s X feature grid_size dfX xs bins →
  model_contract predict feature → (2 ≤ length bins)%nat →
  pct_of C = inl e →
  aleplot_1D_continuous predict quantile_ied CI_estimate legacy_cut X feature
    grid_size true C s =
  (inl e,
   State (heap s ++ [lower_table dfX feature bins xs; upper_table dfX feature bins xs])
         (calls s ++ [lower_table dfX feature bins xs; upper_table dfX feature bins xs])).
Proof.
  intros Hin Hc Hlen Hpct.
  destruct (bins_min quantile_ied s X feature grid_size dfX xs bins Hin) as (b0 & Hb0).
  rewrite (continuous_run predict quantile_ied CI_estimate s X feature grid_size dfX xs
             bins Hin Hc legacy_cut (or_intror Hlen) true C b0 Hb0).
  unfold continuous_table. cbv zeta. by rewrite Hpct.
Qed.

Lemma bad_level_fails_after_predictions_witness :
  fst (aleplot_1D_continuous Demo.square_model Demo.inv_ecdf Demo.half_range false
         0%nat "x" 4 true S754_nan (Demo.init Demo.table_cont)) = inl "ValueError" ∧
  fst (aleplot_1D_continuous Demo.square_model Demo.inv_ecdf Demo.half_range false
         0%nat "x" 4 true (S754_infinity false) (Demo.init Demo.table_cont))
    = inl "OverflowError".
Proof.
  split.
  - rewrite (bad_level_fails_after_predictions Demo.square_model Demo.inv_ecdf
               Demo.half_range false (Demo.init Demo.table_cont) 0%nat "x" 4 S754_nan
               "ValueError" Demo.table_cont Demo.xs_cont Demo.bins_cont); [reflexivity| | | |].
    + exists (FloatCol Demo.xs_cont), Demo.grid4, 1%Q.
      repeat split; vm_compute; reflexivity.
    + apply DemoFacts.square_contract.
    + vm_compute; lia.
    + vm_compute; reflexivity.
  - rewrite (bad_level_fails_after_predictions Demo.square_model Demo.inv_ecdf
               Demo.half_range false (Demo.init Demo.table_cont) 0%nat "x" 4
               (S754_infinity false) "OverflowError" Demo.table_cont Demo.xs_cont
               Demo.bins_cont); [reflexivity| | | |].
    + exists (FloatCol Demo.xs_cont), Demo.grid4, 1%Q.
      repeat split; vm_compute; reflexivity.
    + apply DemoFacts.square_contract.
    + vm_compute; lia.
    + vm_compute; reflexivity.
Defined.

(** ** The table of the discrete estimator *)

Lemma level_rows_aux (d : list (Z * Q)) :
  List.map aux (level_rows d) = mean_deltas d (group_keys d).
Proof.
  unfold level_rows, mean_deltas. cbv zeta.
  set (keys := group_keys d).
  set (means := List.map (λ k, Qmean (group k d)) keys).
  assert (Hl : length keys = length means) by (subst means; by rewrite List.length_map).
  assert (Hc : length (cumsum means) = length means) by apply cumsum_length.
  revert Hl Hc. generalize (cumsum means). generalize means. generalize keys.
  induction keys0 as [|k ks IH]; intros [|m ms] [|c cs] Hl Hc; simpl in *; try done.
  f_equal. apply IH; lia.
Qed.



(** ** The number of calls of the model *)

Section CallCount.
Variable predict : DataFrame → list Q.

Lemma quiet {A : Type} (m : M A) :
  (∀ s, calls (snd (m s)) = calls s) → calls_at_most 0 m.
Proof. intros Hm s. exists []. by rewrite app_nil_r, Hm. Qed.

Lemma quiet_pure {A : Type} (m : M A) :
  (∀ s, snd (m s) = s) → calls_at_most 0 m.
Proof. intros Hm. apply quiet. intros s. by rewrite Hm. Qed.

Lemma calls_bind {A B : Type} (n k : nat) (m : M A) (f : A → M B) :
  calls_at_most n m → (∀ a, calls_at_most k (f a)) → calls_at_most (n + k) (m ≫= f).
Proof.
  intros Hm Hf s. destruct (Hm s) as (l1 & E1 & L1).
  unfold mbind, M_bind. destruct (m s) as [[e|a] s1]; cbn [snd] in *.
  - exists l1. split; [done | lia].
  - destruct (Hf a s1) as (l2 & E2 & L2). exists (l1 ++ l2).
    rewrite E2, E1, app_assoc. split; [done|]. rewrite length_app. lia.
Qed.

Lemma calls_then {A B : Type} (k : nat) (m : M A) (f : A → M B) :
  calls_at_most 0 m → (∀ a, calls_at_most k (f a)) → calls_at_most k (m ≫= f).
Proof. intros Hm Hf. by apply (calls_bind 0 k). Qed.

Lemma calls_once {A B : Type} (k : nat) (m : M A) (f : A → M B) :
  calls_at_most 1 m → (∀ a, calls_at_most k (f a)) → calls_at_most (S k) (m ≫= f).
Proof. intros Hm Hf. by apply (calls_bind 1 k). Qed.

Lemma quiet_alloc (df : DataFrame) : calls_at_most 0 (alloc df).
Proof. by apply quiet. Qed.

Lemma quiet_store (r : nat) (df : DataFrame) : calls_at_most 0 (store r df).
Proof. by apply quiet. Qed.

Lemma quiet_df_copy (r : nat) : calls_at_most 0 (df_copy r).
Proof.
  unfold df_copy. apply calls_then; [apply quiet_pure, pure_load|].
  intros df. apply quiet_alloc.
Qed.

Lemma quiet_setcol (r : nat) (f : string) (c : column) : calls_at_most 0 (setcol r f c).
Proof.
  unfold setcol. apply calls_then; [apply quiet_pure, pure_load|].
  intros df. apply quiet_store.
Qed.

Lemma quiet_loc_assign (r : nat) (m : list bool) (f : string) (vals : list Z) :
  calls_at_most 0 (loc_assign r m f vals).
Proof.
  unfold loc_assign.
  apply calls_then; [apply quiet_pure, pure_load|]. intros df.
  apply calls_then; [apply quiet_pure, pure_getcol|]. intros c.
  apply quiet_store.
Qed.

Lemma quiet_loc_assign_float (r : nat) (m : list bool) (f : string) (vals : list Q) :
  calls_at_most 0 (loc_assign_float r m f vals).
Proof.
  unfold loc_assign_float.
  apply calls_then; [apply quiet_pure, pure_load|]. intros df.
  apply calls_then; [apply quiet_pure, pure_getcol|]. intros c.
  apply quiet_store.
Qed.

Lemma once_call_predict (df : DataFrame) : calls_at_most 1 (call_predict predict df).
Proof. intros s. exists [df]. by split. Qed.

Lemma once_py_predict (r : nat) : calls_at_most 1 (py_predict predict r).
Proof.
  unfold py_predict. apply calls_then; [apply quiet_pure, pure_load|].
  intros df. apply once_call_predict.
Qed.
End CallCount.

(** X13. However a run ends, and on every input, the continuous estimator
    has called the model at most twice and the discrete estimator at most
    three times. *)
Theorem model_calls_bounded :
  (∀ predict quantile_ied CI_estimate legacy_cut X feature grid_size include_CI C,
     calls_at_most 2
       (aleplot_1D_continuous predict quantile_ied CI_estimate legacy_cut X feature
          grid_size include_CI C)) ∧
  (∀ predict X feature, calls_at_most 3 (aleplot_1D_discrete predict X feature)).
Proof.
  split.
  - intros. unfold aleplot_1D_continuous.
    apply calls_then; [apply quiet_pure, pure_lift|]. intros qs.
    apply calls_then; [apply quiet_pure, pure_load|]. intros dfX.
    apply calls_then; [apply quiet_pure, pure_getcol|]. intros col.
    apply calls_then; [apply quiet_pure, pure_bin_edges|]. intros bins.
    apply calls_then; [apply quiet_pure, pure_pd_cut_codes|]. intros codes.
    apply calls_then; [apply quiet_df_copy|]. intros X1.
    apply calls_then; [apply quiet_df_copy|]. intros X2.
    apply calls_then; [apply quiet_pure, pure_np_take|]. intros lo.
    apply calls_then; [apply quiet_setcol|]. intros _.
    apply calls_then; [apply quiet_pure, pure_np_take|]. intros hi.
    apply calls_then; [apply quiet_setcol|]. intros _.
    apply calls_once; [apply once_py_predict|]. intros y_1.
    apply calls_once; [apply once_py_predict|]. intros y_2.
    apply calls_then; [apply quiet_pure, pure_np_take|]. intros keys.
    apply calls_then; [apply quiet_pure, pure_np_sub|]. intros Delta.
    apply calls_then; [apply quiet_pure, pure_delta_frame|]. intros d.
    apply calls_then.
    + apply quiet_pure. intros s. by destruct (kmin bins).
    + intros b0. apply quiet_pure, pure_lift.
  - intros. unfold aleplot_1D_discrete.
    apply calls_then; [apply quiet_pure, pure_load|]. intros dfX.
    apply calls_then; [apply quiet_pure, pure_getcol|]. intros col.
    apply calls_then; [apply quiet_df_copy|]. intros X_plus.
    apply calls_then; [apply quiet_df_copy|]. intros X_neg.
    destruct col as [xs|ys]; cbv zeta.
    all: apply calls_then; [apply quiet_pure, pure_np_getitem|]; intros gmax.
    all: apply calls_then; [apply quiet_pure, pure_np_getitem|]; intros gmin.
    1: apply calls_then; [apply quiet_pure, pure_np_take|].
    2: apply calls_then; [apply quiet_pure, pure_np_take_float|].
    all: intros up.
    1: apply calls_then; [apply quiet_loc_assign|].
    2: apply calls_then; [apply quiet_loc_assign_float|].
    all: intros _.
    1: apply calls_then; [apply quiet_pure, pure_np_take|].
    2: apply calls_then; [apply quiet_pure, pure_np_take_float|].
    all: intros down.
    1: apply calls_then; [apply quiet_loc_assign|].
    2: apply calls_then; [apply quiet_loc_assign_float|].
    all: intros _.
    all: apply calls_once; [apply once_py_predict|]; intros y_hat.
    all: apply calls_then; [apply quiet_pure, pure_load|]; intros df_plus.
    all: apply calls_once; [apply once_call_predict|]; intros y_hat_plus.
    all: apply calls_then; [apply quiet_pure, pure_load|]; intros df_neg.
    all: apply calls_once; [apply once_call_predict|]; intros y_hat_neg.
    all: apply calls_then; [apply quiet_pure, pure_np_mask|]; intros y_p.
    all: apply calls_then; [apply quiet_pure, pure_np_sub|]; intros Dp.
    all: apply calls_then; [apply quiet_pure, pure_np_mask|]; intros y_n.
    all: apply calls_then; [apply quiet_pure, pure_np_sub|]; intros Dn.
    all: apply calls_then; [apply quiet_pure, pure_delta_frame|]; intros fwd.
    all: apply calls_then; [apply quiet_pure, pure_delta_frame|]; intros bwd.
    all: apply quiet_pure; done.
Qed.

(** ** The level proportions of the discrete estimator *)

Lemma keqb_Z (k y : Z) : keqb k y = (k =? y).
Proof.
  unfold keqb. cbn [kcmp Key_Z]. rewrite Z.eqb_compare. by destruct (k ?= y).
Qed.

Lemma sum_counts_Z (f : Z → nat) (ks : list Z) :
  foldr Z.add 0 (List.map (λ k, Z.of_nat (f k)) ks) =
  Z.of_nat (sum_list (List.map f ks)).
Proof.
  induction ks as [|k ks IH]; [done|]. cbn [List.map foldr]. rewrite IH.
  change (sum_list (f k :: List.map f ks)) with (f k + sum_list (List.map f ks))%nat.
  lia.
Qed.

Lemma level_counts_total (xs : list Z) :
  foldr Z.add 0
    (List.map snd
       (List.map (λ k, (k, Z.of_nat (length (List.filter (Z.eqb k) xs)))) (np_unique xs)))
  = Z.of_nat (length xs).
Proof.
  rewrite List.map_map. cbn [snd].
  rewrite (sum_counts_Z (λ k, length (List.filter (Z.eqb k) xs))). f_equal.
  rewrite <- (unique_counts_total xs). f_equal.
  apply List.map_ext. intros k. f_equal.
  apply List.filter_ext. intros y. symmetry. apply keqb_Z.
Qed.

(** X14. The weights of the discrete centering (lines 91-92) are the
    empirical frequencies of the levels: for a column with at least one
    row there is one weight per distinct level, in increasing order of
    the levels; the weight of a level is the number of its rows divided by
    the number of all rows, it is positive and at most 1, and the weights
    add up to 1. *)
Theorem level_proportions (xs : list Z) :
  xs ≠ [] →
  List.map fst (groups_props xs) = np_unique xs ∧
  (∀ k p, In (k, p) (groups_props xs) →
     (p == inject_Z (Z.of_nat (length (List.filter (Z.eqb k) xs)))
           / inject_Z (Z.of_nat (length xs)))%Q ∧
     (0 < p)%Q ∧ (p <= 1)%Q) ∧
  (Qsum (List.map snd (groups_props xs)) == 1)%Q.
Proof.
  intros Hne. split; [apply groups_props_keys|].
  split; [|by apply groups_props_total].
  intros k p Hkp. unfold groups_props in Hkp. cbv zeta in Hkp.
  rewrite level_counts_total in Hkp.
  apply in_map_iff in Hkp as ([k' n] & [= <- <-] & Hk).
  apply in_map_iff in Hk as (k'' & [= <- <-] & Hk). cbn [fst snd].
  assert (Hn : (0 < length xs)%nat) by (destruct xs; [done | simpl; lia]).
  assert (Hpos : (1 ≤ length (List.filter (Z.eqb k'') xs))%nat).
  { rewrite <- (List.filter_ext _ _ (keqb_Z k'')). by apply unique_counts_pos. }
  pose proof (List.filter_length_le (Z.eqb k'') xs) as Hle.
  set (c := length (List.filter (Z.eqb k'') xs)) in *.
  assert (Hc : (0 < inject_Z (Z.of_nat c))%Q).
  { change 0%Q with (inject_Z 0). rewrite <- Zlt_Qlt. lia. }
  assert (Hl : (0 < inject_Z (Z.of_nat (length xs)))%Q).
  { change 0%Q with (inject_Z 0). rewrite <- Zlt_Qlt. lia. }
  assert (Hcl : (inject_Z (Z.of_nat c) <= inject_Z (Z.of_nat (length xs)))%Q).
  { rewrite <- Zle_Qle. lia. }
  split; [reflexivity|]. split.
  - apply Qlt_shift_div_l; [done|]. lra.
  - apply Qle_shift_div_r; [done|]. lra.
Qed.

Lemma level_proportions_witness :
  List.map fst (groups_props Demo.xs_disc) = [0; 1; 2] ∧
  (Qsum (List.map snd (groups_props Demo.xs_disc)) == 1)%Q.
Proof.
  destruct (level_proportions Demo.xs_disc) as (Hk & _ & Hsum); [discriminate|].
  split; [exact Hk | exact Hsum].
Defined.

(** ** Tables computed from equal deltas *)

Lemma cell_eq_refl (a : cell) : cell_eq a a.
Proof. destruct a; simpl; [reflexivity | done]. Qed.

Lemma cell_sub_same (a a' b b' : cell) :
  cell_eq a a' → cell_eq b b' → cell_eq (cell_sub a b) (cell_sub a' b').
Proof.
  destruct a, a', b, b'; simpl; try done. intros -> ->. reflexivity.
Qed.

Lemma cell_add_same (a a' b b' : cell) :
  cell_eq a a' → cell_eq b b' → cell_eq (cell_add a b) (cell_add a' b').
Proof.
  destruct a, a', b, b'; simpl; try done. intros -> ->. reflexivity.
Qed.

Lemma Qsum_same (l l' : list Q) : Forall2 Qeq l l' → (Qsum l == Qsum l')%Q.
Proof.
  induction 1 as [|x y l l' Hxy _ IH]; [reflexivity|].
  by rewrite !Qsum_cons, Hxy, IH.
Qed.

Lemma Qmean_same (l l' : list Q) : Forall2 Qeq l l' → (Qmean l == Qmean l')%Q.
Proof.
  intros Hl. unfold Qmean.
  by rewrite (Qsum_same _ _ Hl), (Forall2_length _ _ _ Hl).
Qed.

Lemma cumsum_from_same (a a' : Q) (l l' : list Q) :
  (a == a')%Q → Forall2 Qeq l l' →
  Forall2 Qeq (cumsum_from a l) (cumsum_from a' l').
Proof.
  intros Ha Hl. revert a a' Ha.
  induction Hl as [|x y l l' Hxy _ IH]; intros a a' Ha; simpl; constructor.
  - by rewrite Ha, Hxy.
  - apply IH. by rewrite Ha, Hxy.
Qed.

Lemma cumsum_same (l l' : list Q) :
  Forall2 Qeq l l' → Forall2 Qeq (cumsum l) (cumsum l').
Proof.
  destruct 1 as [|x y l l' Hxy Hl]; simpl; constructor; [done|].
  by apply cumsum_from_same.
Qed.

Section SameRows.
Context `{Key K}.
Implicit Types (d : list (K * Q)) (l : list (row K)).

Lemma same_deltas_keys d d' :
  same_deltas d d' → List.map fst d = List.map fst d'.
Proof.
  induction 1 as [|a b d d' [Hk _] _ IH]; [done|]. simpl. by rewrite Hk, IH.
Qed.

Lemma group_same (k : K) d d' :
  same_deltas d d' → Forall2 Qeq (group k d) (group k d').
Proof.
  unfold group.
  induction 1 as [|a b d d' [Hk Hv] _ IH]; [constructor|]. simpl. rewrite <- Hk.
  destruct (keqb k (fst a)); simpl; [by constructor | done].
Qed.

Lemma group_keys_same d d' : same_deltas d d' → group_keys d = group_keys d'.
Proof. intros Hd. unfold group_keys. by rewrite (same_deltas_keys _ _ Hd). Qed.

Lemma mean_deltas_same d d' (keys : list K) :
  same_deltas d d' → Forall2 Qeq (mean_deltas d keys) (mean_deltas d' keys).
Proof.
  intros Hd. unfold mean_deltas.
  induction keys as [|k keys IH]; simpl; constructor; [|done].
  by apply Qmean_same, group_same.
Qed.

Lemma loc_zero_same (b0 : K) l l' :
  Forall2 row_eq l l' → Forall2 row_eq (loc_zero b0 l) (loc_zero b0 l').
Proof.
  intros Hl. unfold loc_zero.
  assert (Hhas : has_label b0 l = has_label b0 l').
  { unfold has_label. induction Hl as [|r r' l l' [Hr _] _ IH]; [done|].
    simpl. by rewrite Hr, IH. }
  rewrite <- Hhas. destruct (has_label b0 l).
  - clear Hhas. induction Hl as [|r r' l l' Hr _ IH]; simpl; constructor; [|done].
    destruct Hr as (Hlab & Ha & He). rewrite <- Hlab.
    destruct (keqb b0 (label r)); [|by split].
    split; [done|]. split; reflexivity.
  - apply Forall2_app; [done|]. constructor; [|constructor].
    split; [done|]. split; reflexivity.
Qed.

Lemma insert_row_same (r r' : row K) l l' :
  row_eq r r' → Forall2 row_eq l l' →
  Forall2 row_eq (insert_row r l) (insert_row r' l').
Proof.
  intros Hr Hl. induction Hl as [|y y' l l' Hy Hl IH]; simpl.
  - constructor; [exact Hr | constructor].
  - pose proof Hr as (Hlab & _). pose proof Hy as (Hlaby & _).
    rewrite <- Hlab, <- Hlaby.
    destruct (kcmp (label r) (label y)).
    + constructor; [exact Hr|]. by constructor.
    + constructor; [exact Hr|]. by constructor.
    + constructor; [exact Hy | exact IH].
Qed.

Lemma sort_index_same l l' :
  Forall2 row_eq l l' → Forall2 row_eq (sort_index l) (sort_index l').
Proof.
  induction 1 as [|r r' l l' Hr _ IH]; simpl; [constructor|].
  by apply insert_row_same.
Qed.

Lemma lookup_label_same {V : Type} (R : V → V → Prop) (k : K) (s s' : list (K * V)) :
  Forall2 (λ a b, fst a = fst b ∧ R (snd a) (snd b)) s s' →
  option_Forall2 R (lookup_label k s) (lookup_label k s').
Proof.
  induction 1 as [|[k1 v1] [k2 v2] s s' [Hk Hv] _ IH]; simpl in *; [constructor|].
  subst k2. destruct (keqb k k1); [by constructor | done].
Qed.
End SameRows.

Lemma mv_terms_same (p p' : Q) (l l' : list (row Q)) :
  (p == p')%Q → Forall2 row_eq l l' → Forall2 Qeq (mv_terms p l) (mv_terms p' l').
Proof.
  intros Hp Hl. revert p p' Hp.
  induction Hl as [|r r' l l' (_ & Ha & He) _ IH]; intros p p' Hp; simpl; constructor.
  - by rewrite Hp, Ha, He.
  - by apply IH.
Qed.

Lemma mean_mv_avg_same (l l' : list (row Q)) :
  Forall2 row_eq l l' → cell_eq (mean_mv_avg l) (mean_mv_avg l').
Proof.
  intros Hl. rewrite !mean_mv_avg_terms. apply nan_div_proper.
  - apply Qsum_same, mv_terms_same; [reflexivity | done].
  - apply Qsum_same. induction Hl as [|r r' l l' (_ & Ha & _) _ IH]; simpl; by constructor.
Qed.

Lemma accumulate_same (d d' : list (Q * Q)) :
  same_deltas d d' → Forall2 row_eq (accumulate d) (accumulate d').
Proof.
  intros Hd. unfold accumulate, agg_size_mean. cbv zeta.
  rewrite <- (group_keys_same _ _ Hd), !List.map_map. cbn [eff].
  pose proof (cumsum_same _ _ (mean_deltas_same d d' (group_keys d) Hd)) as Hc.
  unfold mean_deltas in Hc. revert Hc.
  generalize (cumsum (List.map (λ k, Qmean (group k d)) (group_keys d))).
  generalize (cumsum (List.map (λ k, Qmean (group k d')) (group_keys d))).
  generalize (group_keys d) as keys. unfold with_eff.
  induction keys as [|k keys IH]; intros e' e He; [constructor|].
  destruct He as [|x y e e' Hxy He]; simpl; constructor.
  - split; [done|]. split; [|done]. simpl.
    by rewrite (Forall2_length _ _ _ (group_same k d d' Hd)).
  - by apply IH.
Qed.

Lemma level_rows_same (d d' : list (Z * Q)) :
  same_deltas d d' → Forall2 row_eq (level_rows d) (level_rows d').
Proof.
  intros Hd. unfold level_rows. cbv zeta. rewrite <- (group_keys_same _ _ Hd).
  pose proof (mean_deltas_same d d' (group_keys d) Hd) as Hm.
  pose proof (cumsum_same _ _ Hm) as Hc. unfold mean_deltas in Hm, Hc.
  revert Hm Hc.
  generalize (cumsum (List.map (λ k, Qmean (group k d)) (group_keys d))).
  generalize (cumsum (List.map (λ k, Qmean (group k d')) (group_keys d))).
  generalize (List.map (λ k, Qmean (group k d)) (group_keys d)).
  generalize (List.map (λ k, Qmean (group k d')) (group_keys d)).
  generalize (group_keys d) as keys.
  induction keys as [|k keys IH]; intros m' m c' c Hm Hc; [constructor|].
  destruct Hm as [|x y m m' Hxy Hm]; [constructor|].
  destruct Hc as [|u v c c' Huv Hc]; [constructor|].
  simpl. constructor; [by repeat split | by apply IH].
Qed.

Lemma Forall2_map_same {A B : Type} (R : B → B → Prop) (f g : A → B) (l : list A) :
  (∀ x, R (f x) (g x)) → Forall2 R (List.map f l) (List.map g l).
Proof. intros Hfg. induction l as [|x l IH]; simpl; by constructor. Qed.

Lemma rows_map_same {K B : Type} (R : B → B → Prop) (f g : row K → B)
  (l l' : list (row K)) :
  (∀ r r', row_eq r r' → R (f r) (g r')) →
  Forall2 row_eq l l' → Forall2 R (List.map f l) (List.map g l').
Proof.
  intros Hfg. induction 1 as [|r r' l l' Hr _ IH]; simpl; constructor; auto.
Qed.

Lemma zip_with_cells_same (op : cell → cell → cell) (a a' b b' : list cell) :
  (∀ x x' y y', cell_eq x x' → cell_eq y y' → cell_eq (op x y) (op x' y')) →
  Forall2 cell_eq a a' → Forall2 cell_eq b b' →
  Forall2 cell_eq (zip_with op a b) (zip_with op a' b').
Proof.
  intros Hop Ha. revert b b'.
  induction Ha as [|x x' a a' Hx _ IH]; intros b b' Hb; [constructor|].
  destruct Hb as [|y y' b b' Hy Hb]; simpl; constructor; auto.
Qed.

Lemma set_column_same (name : string) (v v' : list cell)
  (cols cols' : list (string * list cell)) :
  Forall2 cell_eq v v' →
  Forall2 (λ c c', fst c = fst c' ∧ Forall2 cell_eq (snd c) (snd c')) cols cols' →
  Forall2 (λ c c', fst c = fst c' ∧ Forall2 cell_eq (snd c) (snd c'))
    (set_column name v cols) (set_column name v' cols').
Proof.
  intros Hv. induction 1 as [|[n w] [n' w'] cols cols' [Hn Hw] Hcols IH]; simpl in *.
  - constructor; [by split | constructor].
  - subst n'. destruct (String.eqb n name).
    + constructor; [by split | done].
    + constructor; [by split | done].
Qed.

Lemma mjoin_same (o o' : option cell) :
  option_Forall2 cell_eq o o' → cell_eq (mjoin o) (mjoin o').
Proof. destruct 1 as [a b Hab|]; [exact Hab | done]. Qed.

Lemma ci_est_same CI_estimate (C : spec_float) (d d' : list (Q * Q)) :
  ci_respects CI_estimate C → same_deltas d d' →
  Forall2 (λ a b, fst a = fst b ∧ cell_eq (snd a) (snd b))
    (ci_est CI_estimate d C) (ci_est CI_estimate d' C).
Proof.
  intros Hci Hd. unfold ci_est. rewrite <- (group_keys_same _ _ Hd).
  apply Forall2_map_same. intros k. split; [done|]. by apply Hci, group_same.
Qed.

Lemma rows_labels_same {K : Type} (l l' : list (row K)) :
  Forall2 row_eq l l' → List.map label l = List.map label l'.
Proof.
  induction 1 as [|r r' l l' [Hr _] _ IH]; [done|]. simpl. by rewrite Hr, IH.
Qed.

(** The table of the continuous estimator depends on the deltas only up
    to their value. *)
Lemma continuous_table_same CI_estimate (d d' : list (Q * Q)) (b0 : Q)
  (include_CI : bool) (C : spec_float) (f f' : frame Q) :
  same_deltas d d' → (include_CI = true → ci_respects CI_estimate C) →
  continuous_table CI_estimate d b0 include_CI C = inr f →
  continuous_table CI_estimate d' b0 include_CI C = inr f' →
  same_table f f'.
Proof.
  intros Hd Hci. unfold continuous_table. cbv zeta.
  pose proof (loc_zero_same b0 _ _ (accumulate_same d d' Hd)) as H2.
  pose proof (sort_index_same _ _ H2) as H3.
  pose proof (mean_mv_avg_same _ _ H2) as Hm.
  set (res3 := sort_index (loc_zero b0 (accumulate d))) in *.
  set (res3' := sort_index (loc_zero b0 (accumulate d'))) in *.
  set (m := mean_mv_avg (loc_zero b0 (accumulate d))) in *.
  set (m' := mean_mv_avg (loc_zero b0 (accumulate d'))) in *.
  assert (Hsize : Forall2 cell_eq (List.map (λ r, Some (aux r)) res3)
                                  (List.map (λ r, Some (aux r)) res3')).
  { apply (rows_map_same cell_eq); [|done]. by intros r r' (_ & Ha & _). }
  assert (Heff : Forall2 cell_eq (List.map (λ r, cell_sub (Some (eff r)) m) res3)
                                 (List.map (λ r, cell_sub (Some (eff r)) m') res3')).
  { apply (rows_map_same cell_eq); [|done]. intros r r' (_ & _ & He).
    by apply cell_sub_same. }
  assert (Hcols : Forall2 (λ c c', fst c = fst c' ∧ Forall2 cell_eq (snd c) (snd c'))
                    [("size", List.map (λ r, Some (aux r)) res3);
                     ("eff", List.map (λ r, cell_sub (Some (eff r)) m) res3)]
                    [("size", List.map (λ r, Some (aux r)) res3');
                     ("eff", List.map (λ r, cell_sub (Some (eff r)) m') res3')]).
  { constructor; [by split|]. constructor; [by split | constructor]. }
  destruct include_CI.
  - destruct (pct_of C) as [e|pct]; [done|].
    match goal with
    | |- inr (Frame ?i ?c) = _ → inr (Frame ?i' ?c') = _ → _ =>
        intros Hf Hf';
        assert (f = Frame i c) as -> by congruence;
        assert (f' = Frame i' c') as -> by congruence
    end.
    split; [apply (rows_labels_same _ _ H3)|]. cbn [columns].
    assert (Hhw : Forall2 cell_eq
              (List.map (λ r, mjoin (lookup_label (label r) (ci_est CI_estimate d C))) res3)
              (List.map (λ r, mjoin (lookup_label (label r) (ci_est CI_estimate d' C)))
                 res3')).
    { apply (rows_map_same cell_eq); [|done]. intros r r' (Hl & _). rewrite <- Hl.
      apply mjoin_same, lookup_label_same, ci_est_same; [by apply Hci | done]. }
    apply set_column_same.
    + apply zip_with_cells_same; [apply cell_add_same | done | done].
    + apply set_column_same; [|done].
      apply zip_with_cells_same; [apply cell_sub_same | done | done].
  - match goal with
    | |- inr (Frame ?i ?c) = _ → inr (Frame ?i' ?c') = _ → _ =>
        intros Hf Hf';
        assert (f = Frame i c) as -> by congruence;
        assert (f' = Frame i' c') as -> by congruence
    end.
    split; [apply (rows_labels_same _ _ H3) | exact Hcols].
Qed.

Lemma cell_fold_same (a a' : cell) (l l' : list cell) :
  cell_eq a a' → Forall2 cell_eq l l' →
  cell_eq (foldl cell_add a l) (foldl cell_add a' l').
Proof.
  intros Ha Hl. revert a a' Ha.
  induction Hl as [|x y l l' Hxy _ IH]; intros a a' Ha; simpl; [done|].
  by apply IH, cell_add_same.
Qed.

Lemma align_mul_left_same (a a' b : list (Z * Q)) :
  same_deltas a a' → Forall2 cell_eq (align_mul a b) (align_mul a' b).
Proof.
  intros Ha. unfold align_mul. rewrite <- (same_deltas_keys _ _ Ha).
  apply Forall2_map_same. intros k.
  pose proof (lookup_label_same Qeq k a a' Ha) as Hk.
  destruct Hk as [x x' Hx|]; [|done].
  destruct (lookup_label k b); simpl; [by rewrite Hx | done].
Qed.

(** The table of the discrete estimator depends on the deltas only up to
    their value. *)
Lemma discrete_table_same (d d' : list (Z * Q)) (props : list (Z * Q)) :
  same_deltas d d' → same_table (discrete_table d props) (discrete_table d' props).
Proof.
  intros Hd. unfold discrete_table. cbv zeta.
  pose proof (sort_index_same _ _ (loc_zero_same 0 _ _ (level_rows_same d d' Hd))) as H2.
  set (res2 := sort_index (loc_zero 0 (level_rows d))) in *.
  set (res2' := sort_index (loc_zero 0 (level_rows d'))) in *.
  assert (Hc : cell_eq
            (py_sum (align_mul (List.map (λ r, (label r, eff r)) res2) props))
            (py_sum (align_mul (List.map (λ r, (label r, eff r)) res2') props))).
  { apply cell_fold_same; [simpl; reflexivity|]. apply align_mul_left_same.
    apply (rows_map_same (λ a b, fst a = fst b ∧ (snd a == snd b)%Q)); [|done].
    by intros r r' (Hl & _ & He). }
  split; [apply (rows_labels_same _ _ H2)|]. cbn [columns].
  constructor; [split; [done|]|constructor; [split; [done|]|constructor]].
  - apply (rows_map_same cell_eq); [|done]. by intros r r' (_ & Ha & _).
  - apply (rows_map_same cell_eq); [|done]. intros r r' (_ & _ & He).
    by apply cell_sub_same.
Qed.

(** ** A constant added to the predictions *)

Lemma shifted_contract (c : Q) predict (feature : string) :
  model_contract predict feature → model_contract (shifted c predict) feature.
Proof.
  intros Hc df col Hcol. unfold shifted. rewrite List.length_map. by apply Hc.
Qed.

Lemma shifted_differences (c : Q) (a b : list Q) :
  Forall2 Qeq (zip_with Qminus a b)
    (zip_with Qminus (List.map (λ y, (y + c)%Q) a) (List.map (λ y, (y + c)%Q) b)).
Proof.
  revert b. induction a as [|x a IH]; intros [|y b]; simpl; constructor; [|apply IH].
  ring.
Qed.

Lemma zip_same_deltas {K : Type} (ks : list K) (v v' : list Q) :
  Forall2 Qeq v v' → same_deltas (zip ks v) (zip ks v').
Proof.
  intros Hv. revert ks.
  induction Hv as [|x y v v' Hxy _ IH]; intros [|k ks]; simpl; try constructor.
  - by split.
  - apply IH.
Qed.

Lemma mask_select_fmap {A B : Type} (g : A → B) (m : list bool) (l : list A) :
  mask_select m (List.map g l) = List.map g (mask_select m l).
Proof.
  revert l. induction m as [|b m IH]; intros [|x l]; simpl; try done.
  destruct b; simpl; by rewrite IH.
Qed.

(** X15. Adding one constant to every prediction of the model does not
    change the table of the continuous estimator: the index and the
    column names are the same, and the cells are equal one by one (with
    confidence bounds, for a provider of half-widths that gives equal
    results on equal samples). *)
Theorem continuous_ignores_constant_shift predict quantile_ied CI_estimate legacy_cut
  s X feature grid_size include_CI C pct dfX xs bins (c : Q) :
  continuous_input quantile_ied s X feature grid_size dfX xs bins →
  model_contract predict feature → pct_of C = inr pct →
  (2 ≤ length bins)%nat →
  (include_CI = true → ci_respects CI_estimate C) →
  ∃ f f',
    fst (aleplot_1D_continuous predict quantile_ied CI_estimate legacy_cut X feature
           grid_size include_CI C s) = inr f ∧
    fst (aleplot_1D_continuous (shifted c predict) quantile_ied CI_estimate legacy_cut
           X feature grid_size include_CI C s) = inr f' ∧
    same_table f f'.
Proof.
  intros Hin Hc Hpct Hlen Hci.
  destruct (continuous_returns predict quantile_ied CI_estimate legacy_cut s X feature
              grid_size dfX xs bins include_CI C pct Hin Hc Hpct (or_intror Hlen))
    as (b0 & f & Hb0 & Hrun & Hf & _).
  destruct (continuous_returns (shifted c predict) quantile_ied CI_estimate legacy_cut
              s X feature grid_size dfX xs bins include_CI C pct Hin
              (shifted_contract c predict feature Hc) Hpct (or_intror Hlen))
    as (b0' & f' & Hb0' & Hrun' & Hf' & _).
  assert (b0' = b0) as -> by congruence.
  exists f, f'. rewrite Hrun, Hrun'. split; [done|]. split; [done|].
  eapply continuous_table_same; [|exact Hci|exact Hf|exact Hf'].
  unfold delta_table. apply zip_same_deltas. unfold shifted.
  apply shifted_differences.
Qed.

Lemma fold_choice_same (lt : bool) (a a' : Q) (l l' : list Q) :
  (a == a')%Q → Forall2 Qeq l l' →
  (foldl (λ m y, if (if lt then kltb y m else kltb m y) then y else m) a l ==
   foldl (λ m y, if (if lt then kltb y m else kltb m y) then y else m) a' l')%Q.
Proof.
  intros Ha Hl. revert a a' Ha.
  induction Hl as [|x y l l' Hxy _ IH]; intros a a' Ha; simpl; [done|].
  apply IH. unfold kltb. cbn [kcmp Key_Q]. destruct lt.
  - rewrite (Qcompare_comp x y Hxy a a' Ha). by destruct (y ?= a')%Q.
  - rewrite (Qcompare_comp a a' Ha x y Hxy). by destruct (a' ?= y)%Q.
Qed.

Lemma half_range_respects (C : spec_float) : ci_respects Demo.half_range C.
Proof.
  intros l l' Hl. unfold Demo.half_range.
  destruct Hl as [|x x' l l' Hx Hl]; [done|].
  destruct Hl as [|y y' l l' Hy Hl]; [done|]. simpl.
  pose proof (fold_choice_same true x x' (x :: y :: l) (x' :: y' :: l') Hx
                ltac:(by repeat constructor)) as Hlo.
  pose proof (fold_choice_same false x x' (x :: y :: l) (x' :: y' :: l') Hx
                ltac:(by repeat constructor)) as Hhi.
  simpl in Hlo, Hhi. by rewrite Hlo, Hhi.
Qed.

Lemma continuous_ignores_constant_shift_witness :
  ∃ f f',
    fst (aleplot_1D_continuous Demo.square_model Demo.inv_ecdf Demo.half_range false
           0%nat "x" 4 true Demo.C95 (Demo.init Demo.table_cont)) = inr f ∧
    fst (aleplot_1D_continuous (shifted 10 Demo.square_model) Demo.inv_ecdf
           Demo.half_range false 0%nat "x" 4 true Demo.C95 (Demo.init Demo.table_cont))
      = inr f' ∧
    same_table f f'.
Proof.
  apply (continuous_ignores_constant_shift Demo.square_model Demo.inv_ecdf
           Demo.half_range false (Demo.init Demo.table_cont) 0%nat "x" 4 true Demo.C95
           95 Demo.table_cont Demo.xs_cont Demo.bins_cont 10%Q).
  - exists (FloatCol Demo.xs_cont), Demo.grid4, 1%Q.
    repeat split; vm_compute; reflexivity.
  - apply DemoFacts.square_contract.
  - vm_compute; reflexivity.
  - vm_compute; lia.
  - intros _. apply half_range_respects.
Defined.



(** ** A model that does not return one prediction per row *)

Section AnyModel.
Variable predict : DataFrame → list Q.
Variable quantile_ied : list Q → list Q → list Q.
Variable CI_estimate : list Q → spec_float → cell.
Variable legacy_cut : bool.
Variables (s : state) (X : nat) (feature : string) (grid_size : Z).
Variables (dfX : DataFrame) (xs bins : list Q).
Variables (include_CI : bool) (C : spec_float).
Hypothesis input : continuous_input quantile_ied s X feature grid_size dfX xs bins.
Hypothesis edges : (2 ≤ length bins)%nat.

Let y_1 := predict (lower_table dfX feature bins xs).
Let y_2 := predict (upper_table dfX feature bins xs).

(** The run up to line 47, whatever the model returns. *)
Lemma continuous_run_any_model :
  aleplot_1D_continuous predict quantile_ied CI_estimate legacy_cut X feature grid_size
    include_CI C s =
  ((Delta ← np_sub y_2 y_1;
    delta_df ← delta_frame (upper_keys bins xs) Delta;
    b0 ← (match kmin bins with Some b => mret b | None => raise "ValueError" end);
    lift (continuous_table CI_estimate delta_df b0 include_CI C))
     (State (heap s ++ [lower_table dfX feature bins xs; upper_table dfX feature bins xs])
            (calls s ++ [lower_table dfX feature bins xs; upper_table dfX feature bins xs]))).
Proof.
  pose proof (bins_nonempty quantile_ied s X feature grid_size dfX xs bins input) as Hne.
  destruct input as (col & qs & mn & HX & Hcol & Hxs & Hgrid & Hmin & Hbins).
  unfold aleplot_1D_continuous.
  erewrite bind_ok by (unfold lift; by rewrite Hgrid).
  erewrite bind_ok by (unfold load; by rewrite HX).
  erewrite bind_ok by (unfold getcol; by rewrite Hcol).
  rewrite <- Hxs.
  erewrite bind_ok by (unfold bin_edges; by rewrite Hmin).
  rewrite <- Hbins.
  assert (Hcut : legacy_cut && (length bins <? 2)%nat = false).
  { apply andb_false_iff. right. apply Nat.ltb_ge. lia. }
  erewrite bind_ok by (unfold pd_cut_codes; rewrite Hcut; reflexivity).
  erewrite bind_ok
    by (unfold df_copy; erewrite bind_ok by (unfold load; by rewrite HX); reflexivity).
  cbn [heap calls].
  erewrite bind_ok
    by (unfold df_copy;
        erewrite bind_ok
          by (unfold load; cbn [heap];
              rewrite lookup_app_l by (by eapply lookup_lt_Some); by rewrite HX);
        reflexivity).
  cbn [heap calls]. rewrite <- app_assoc. cbn [app].
  rewrite length_app. cbn [length]. rewrite Nat.add_1_r.
  erewrite bind_ok by (apply np_take_ok, cut_codes_lo, Hne).
  erewrite bind_ok
    by (unfold setcol;
        erewrite bind_ok by (unfold load; cbn [heap]; by rewrite heap_lookup_fst);
        reflexivity).
  cbn [heap calls]. rewrite heap_insert_fst.
  erewrite bind_ok by (apply np_take_ok, cut_codes_hi, Hne).
  erewrite bind_ok
    by (unfold setcol;
        erewrite bind_ok
          by (unfold load; cbn [heap]; by rewrite heap_lookup_snd);
        unfold store; cbn [heap calls]; rewrite heap_insert_snd; reflexivity).
  fold (lower_table dfX feature bins xs).
  fold (upper_keys bins xs). fold (upper_table dfX feature bins xs).
  erewrite bind_ok
    by (unfold py_predict;
        erewrite bind_ok by (unfold load; cbn [heap]; by rewrite heap_lookup_fst);
        reflexivity).
  cbn [heap calls].
  erewrite bind_ok
    by (unfold py_predict;
        erewrite bind_ok by (unfold load; cbn [heap]; by rewrite heap_lookup_snd);
        reflexivity).
  cbn [heap calls]. rewrite <- app_assoc. cbn [app].
  erewrite bind_ok by (apply np_take_ok, cut_codes_hi, Hne).
  fold (upper_keys bins xs). reflexivity.
Qed.
End AnyModel.



(** ** Strings: the names of the bound columns *)

Lemma str_all_app (P : Ascii.ascii → bool) (s t : string) :
  str_all P (s +:+ t) = str_all P s && str_all P t.
Proof.
  induction s as [|c s IH]; simpl; [done|]. by rewrite IH, andb_assoc.
Qed.

Lemma str_all_impl (P R : Ascii.ascii → bool) (s : string) :
  (∀ c, P c = true → R c = true) → str_all P s = true → str_all R s = true.
Proof.
  intros HPR. induction s as [|c s IH]; [done|]. cbn [str_all].
  intros [Hc Hs]%andb_true_iff. apply andb_true_iff. auto.
Qed.

Lemma str_split_none (sep : Ascii.ascii) (s : string) :
  str_all (λ c, negb (Ascii.eqb c sep)) s = true → str_split sep s = [s].
Proof.
  induction s as [|c s IH]; [done|]. cbn [str_all str_split].
  intros [Hc Hs]%andb_true_iff. apply negb_true_iff in Hc. by rewrite Hc, IH.
Qed.

Lemma str_contains_none (a : Ascii.ascii) (p s : string) :
  str_all (λ c, negb (Ascii.eqb a c)) s = true → str_contains (String a p) s = false.
Proof.
  induction s as [|c s IH]; [done|]. cbn [str_all str_contains str_prefix].
  intros [Hc Hs]%andb_true_iff. apply negb_true_iff in Hc. by rewrite Hc, IH.
Qed.

(** The decimal numeral of an integer consists of digits and ["-"]. *)
Lemma pretty_N_go_chars (x : N) (s : string) :
  str_all (λ c, str_mem c "0123456789-") s = true →
  str_all (λ c, str_mem c "0123456789-") (pretty_N_go x s) = true.
Proof.
  revert s. induction (N.lt_wf_0 x) as [x _ IH]; intros s Hs.
  assert (x = 0 ∨ 0 < x)%N as [->|Hx] by lia; [by rewrite pretty_N_go_0|].
  rewrite pretty_N_go_step by done. apply IH; [by apply N.div_lt|].
  cbn [str_all]. rewrite Hs, andb_true_r.
  unfold pretty_N_char. by repeat case_match.
Qed.

Lemma pretty_Z_chars (z : Z) :
  str_all (λ c, str_mem c "0123456789-") (pretty z) = true.
Proof.
  assert (HN : ∀ n : N, str_all (λ c, str_mem c "0123456789-") (pretty n) = true).
  { intros n. unfold pretty, pretty_N. destruct (decide (n = 0%N)); [done|].
    by apply pretty_N_go_chars. }
  destruct z as [|p|p]; [done | apply HN|].
  change (pretty (Z.neg p)) with ("-" +:+ pretty (N.pos p)).
  rewrite str_all_app, HN. done.
Qed.

Lemma level_chars (P : Ascii.ascii → bool) (pct : Z) :
  str_all P "0123456789-%" = true →
  str_all P (pretty pct +:+ "%") = true.
Proof.
  intros HP. rewrite str_all_app. apply andb_true_iff. split.
  - eapply str_all_impl; [|apply pretty_Z_chars]. intros c Hc.
    cbn [str_mem] in Hc. cbn [str_all] in HP.
    repeat (apply andb_true_iff in HP as [HP0 HP];
            apply orb_true_iff in Hc as [Hc|Hc];
            [apply Ascii.eqb_eq in Hc; by subst c|]; clear HP0).
    done.
  - cbn [str_all] in *. do 11 (apply andb_true_iff in HP as [_ HP]). exact HP.
Qed.

Lemma str_split_app (sep : Ascii.ascii) (s t : string) :
  str_all (λ c, negb (Ascii.eqb c sep)) s = true →
  str_split sep (s +:+ String sep t) = s :: str_split sep t.
Proof.
  induction s as [|c s IH]; simpl.
  - intros _. by rewrite Ascii.eqb_refl.
  - intros [Hc Hs]%andb_true_iff. apply negb_true_iff in Hc. by rewrite Hc, IH.
Qed.

Lemma str_prefix_app (p t : string) : str_prefix p (p +:+ t) = true.
Proof. induction p as [|c p IH]; simpl; [done|]. by rewrite Ascii.eqb_refl, IH. Qed.

Lemma str_contains_prefix (p s : string) :
  str_prefix p s = true → str_contains p s = true.
Proof. intros Hp. destruct s; simpl; by rewrite Hp. Qed.

Lemma lower_name_split (pct : Z) :
  str_split underscore (lowerCI_name pct) = ["lowerCI"; pretty pct +:+ "%"].
Proof.
  change (lowerCI_name pct)
    with ("lowerCI" +:+ String underscore (pretty pct +:+ "%")).
  rewrite str_split_app by reflexivity.
  by rewrite (str_split_none underscore) by (by apply level_chars).
Qed.

Lemma lower_name_kind (pct : Z) :
  str_contains "lowerCI" (lowerCI_name pct) = true ∧
  str_contains "upperCI" (lowerCI_name pct) = false.
Proof.
  change (lowerCI_name pct) with ("lowerCI" +:+ ("_" +:+ pretty pct +:+ "%")).
  split; [apply str_contains_prefix, str_prefix_app|].
  apply str_contains_none. rewrite 2!str_all_app.
  rewrite level_chars by reflexivity. reflexivity.
Qed.

Lemma upper_name_kind (pct : Z) :
  str_contains "upperCI" (upperCI_name pct) = true ∧
  str_contains "lowerCI" (upperCI_name pct) = false.
Proof.
  change (upperCI_name pct) with ("upperCI" +:+ ("_" +:+ pretty pct +:+ "%")).
  split; [apply str_contains_prefix, str_prefix_app|].
  apply str_contains_none. rewrite 2!str_all_app.
  rewrite level_chars by reflexivity. reflexivity.
Qed.

(** ** The marks of the continuous plot *)

Lemma sorted_checks (l : list Q) :
  StronglySorted klt l → increasing l = true ∧ nondecreasing l = true.
Proof.
  induction 1 as [|x l Hs [IH1 IH2] Hx]; [done|].
  destruct l as [|y t]; [done|].
  apply Forall_cons in Hx as [Hxy _].
  change (kltb x y && increasing (y :: t) = true ∧
          negb (kltb y x) && nondecreasing (y :: t) = true).
  rewrite IH1, IH2, !andb_true_r. split; [by apply kltb_true|].
  apply negb_true_iff. destruct (kltb y x) eqn:E; [|done].
  apply kltb_true in E. by destruct (klt_asym _ _ Hxy).
Qed.

Lemma np_take_values {A : Type} (a : list A) (idx : list Z) (s : state) :
  Forall (in_bounds a) idx →
  ∃ l, np_take a idx s = (inr l, s) ∧ length l = length idx ∧
       ∀ i j, idx !! i = Some j →
         l !! i = a !! Z.to_nat (if j <? 0 then j + Z.of_nat (length a) else j).
Proof.
  unfold np_take.
  induction 1 as [|j idx Hj Hidx (l & Hl & Hlen & Hval)]; cbn [mapM].
  - exists []. by repeat split.
  - assert (Hget : ∃ v, np_getitem a j s = (inr v, s) ∧
              a !! Z.to_nat (if j <? 0 then j + Z.of_nat (length a) else j) = Some v).
    { unfold np_getitem, in_bounds in *. cbv zeta.
      destruct (j <? - Z.of_nat (length a)) eqn:E1; [lia|].
      destruct (Z.of_nat (length a) <=? j) eqn:E2; [lia|]. cbn [orb].
      destruct (a !! Z.to_nat (if j <? 0 then j + Z.of_nat (length a) else j))
        as [v|] eqn:Ev; [by exists v|].
      apply lookup_ge_None in Ev. destruct (j <? 0) eqn:E; lia. }
    destruct Hget as (v & Hv & Hav).
    exists (v :: l). erewrite bind_ok by exact Hv. erewrite bind_ok by exact Hl.
    split; [done|]. split; [simpl; by rewrite Hlen|].
    intros [|i] j' Hi; simpl in Hi.
    + injection Hi as <-. by rewrite Hav.
    + by apply Hval.
Qed.

Lemma per_bin_length (idx : list Q) :
  length (jitter_max_step_per_bin idx) = length idx.
Proof.
  unfold jitter_max_step_per_bin. rewrite length_zip_with. simpl.
  rewrite List.length_map. lia.
Qed.

Lemma per_bin_first (idx : list Q) (b0 : Q) :
  idx !! 0%nat = Some b0 → jitter_max_step_per_bin idx !! 0%nat = Some None.
Proof.
  intros H0. unfold jitter_max_step_per_bin. rewrite lookup_zip_with, H0. done.
Qed.

Lemma per_bin_next (idx : list Q) (j : nat) (lo hi : Q) :
  idx !! j = Some lo → idx !! S j = Some hi →
  jitter_max_step_per_bin idx !! S j = Some (Some ((hi - lo) * jitter_factor)%Q).
Proof.
  intros Hlo Hhi. unfold jitter_max_step_per_bin.
  rewrite lookup_zip_with, Hhi. simpl. by rewrite lookup_map, Hlo.
Qed.

Lemma jitter_bounds (x y u : Q) :
  (0 <= y)%Q → (0 <= u)%Q → (u <= 1)%Q →
  (x - y <= x + (0 - y + (y - (0 - y)) * u))%Q ∧
  (x + (0 - y + (y - (0 - y)) * u) <= x + y)%Q.
Proof.
  intros Hy Hu0 Hu1.
  assert (H0 : (0 <= y * u)%Q) by (by apply Qmult_le_0_compat).
  assert (H1 : (y * u <= y)%Q).
  { rewrite <- (Qmult_1_r y) at 2. rewrite !(Qmult_comm y).
    by apply Qmult_le_compat_r. }
  assert (E : (x + (0 - y + (y - (0 - y)) * u) == x - y + 2 * (y * u))%Q) by ring.
  rewrite E. split; lra.
Qed.

Section Marks.
Variable random : nat → Q.
Variable legacy_cut : bool.
Variables (s : state) (X : nat) (feature_name : string) (res_df : frame Q).
Variables (dfX : DataFrame) (col : column) (e : list cell) (band : list artist).
Variables (b0 bl : Q).
Hypothesis caller : heap s !! X = Some dfX.
Hypothesis present : dfX !! feature_name = Some col.
Hypothesis sorted : StronglySorted Qlt (index res_df).
Hypothesis labels : (2 ≤ length (index res_df))%nat.
Hypothesis first : head (index res_df) = Some b0.
Hypothesis final : last (index res_df) = Some bl.
Hypothesis effects : get_column "eff" (columns res_df) = Some e.
Hypothesis sizes : has_column "size" (columns res_df) = true.
Hypothesis bounds : confidence_band res_df = inr band.

Let xs := float_values col.
Let idx := index res_df.

Lemma idx_sorted : StronglySorted klt idx.
Proof. eapply StronglySorted_weaken; [|exact sorted]. intros x y. apply klt_Q. Qed.

Lemma steps_taken :
  ∃ steps,
    np_take (jitter_max_step_per_bin idx)
      (List.map (λ i, i + 1) (cut_codes idx xs)) s = (inr steps, s) ∧
    length steps = length xs ∧
    ∀ i x, xs !! i = Some x →
      steps !! i = jitter_max_step_per_bin idx !! Z.to_nat (cut_code idx x + 1).
Proof.
  assert (Hne : idx ≠ []) by (intros E; unfold idx in E; rewrite E in labels; simpl in labels; lia).
  destruct (np_take_values (jitter_max_step_per_bin idx)
              (List.map (λ i, i + 1) (cut_codes idx xs)) s)
    as (steps & Hrun & Hlen & Hval).
  { unfold in_bounds. rewrite per_bin_length. apply cut_codes_hi, Hne. }
  exists steps. split; [done|].
  split; [by rewrite Hlen; unfold cut_codes; rewrite !List.length_map|].
  intros i x Hx.
  rewrite (Hval i (cut_code idx x + 1)).
  - pose proof (cut_code_range idx x Hne).
    by assert ((cut_code idx x + 1 <? 0) = false) as -> by (apply Z.ltb_ge; lia).
  - unfold cut_codes. by rewrite !lookup_map, Hx.
Qed.

(** The outcome of the continuous plot on such a table, for every way
    of passing a figure and axes. *)
Lemma continuous_plot_runs (fig : bool) (ax : option (list artist)) :
  ∃ steps,
    plot_1D_continuous_eff random legacy_cut feature_name res_df X fig ax s =
    (match subplots fig ax with
     | (_, None) => inl "AttributeError"
     | (false, Some _) => inl "ValueError"
     | (true, Some a) =>
         inr (a ++
              Line idx e ::
              Marks (jitter random xs steps)
                (replicate (length (jitter random xs steps))
                   (nanmin (List.map (λ c, nanmin (snd c))
                              (drop_column "size" (columns res_df))))) ::
              band ++
              [XLabel feature_name;
               YLabel "Effect on prediction (centered)";
               Title "1D ALE Plot - Continuous"])
     end, s) ∧
    length steps = length xs ∧
    ∀ i x, xs !! i = Some x →
      steps !! i = jitter_max_step_per_bin idx !! Z.to_nat (cut_code idx x + 1).
Proof.
  destruct steps_taken as (steps & Hsteps & Hlen & Hval).
  exists steps. split; [|by split].
  destruct (sorted_checks idx idx_sorted) as [Hinc Hnd].
  unfold plot_1D_continuous_eff.
  erewrite bind_ok by (unfold load; by rewrite caller).
  erewrite bind_ok by (unfold getcol; by rewrite present).
  fold xs idx.
  erewrite bind_ok.
  2:{ unfold pd_cut. rewrite Hnd, Hinc. cbn [negb andb].
      assert ((length idx =? 0)%nat = false) as -> by (apply Nat.eqb_neq; unfold idx; lia).
      assert ((length idx <? 2)%nat = false) as -> by (apply Nat.ltb_ge; unfold idx; lia).
      rewrite andb_false_r. reflexivity. }
  erewrite bind_ok by exact Hsteps.
  destruct (subplots fig ax) as [fig' [a|]]; [|by destruct fig'].
  erewrite bind_ok by reflexivity.
  erewrite bind_ok by (unfold frame_column; rewrite effects; reflexivity).
  destruct fig'; [|reflexivity].
  erewrite bind_ok by reflexivity.
  rewrite sizes.
  erewrite bind_ok by reflexivity.
  erewrite bind_ok by (unfold lift; rewrite bounds; reflexivity).
  unfold mret, M_ret. by rewrite <- !app_assoc.
Qed.

(** The mark of a row: within its jitter step when the value lies
    between the first and the last label, NaN otherwise. *)
Lemma mark_of_row (steps : list cell) (i : nat) (x : Q) :
  (∀ i, (0 <= random i)%Q ∧ (random i <= 1)%Q) →
  length steps = length xs →
  (∀ i x, xs !! i = Some x →
     steps !! i = jitter_max_step_per_bin idx !! Z.to_nat (cut_code idx x + 1)) →
  xs !! i = Some x →
  ((b0 <= x)%Q ∧ (x <= bl)%Q →
   ∃ r lo hi j,
     jitter random xs steps !! i = Some (Some r) ∧
     idx !! j = Some lo ∧ idx !! S j = Some hi ∧
     (lo <= x)%Q ∧ (x <= hi)%Q ∧
     (x - (hi - lo) * jitter_factor <= r)%Q ∧
     (r <= x + (hi - lo) * jitter_factor)%Q) ∧
  (¬ ((b0 <= x)%Q ∧ (x <= bl)%Q) → jitter random xs steps !! i = Some None).
Proof.
  intros Hrand Hlen Hval Hx.
  destruct (cut_code_bin idx x b0 bl idx_sorted labels first final) as [Hinside Houtside].
  assert (Hmark : ∀ y, steps !! i = Some y →
            jitter random xs steps !! i =
            Some (cell_add (Some x) (uniform random i (cell_sub (Some 0%Q) y) y))).
  { intros y Hy. unfold jitter.
    rewrite list_lookup_imap, lookup_zip_with, Hx. simpl. by rewrite Hy. }
  specialize (Hval i x Hx). split.
  - intros Hin. destruct (Hinside Hin) as (j & lo & hi & Hc & Hlo & Hhi & Hlx & Hxh & _).
    assert (E : Z.to_nat (cut_code idx x + 1) = S j) by lia.
    rewrite E in Hval.
    pose proof (eq_trans Hval (per_bin_next idx j lo hi Hlo Hhi)) as Hstep_i.
    eexists _, lo, hi, j.
    split; [etrans; [exact (Hmark _ Hstep_i) | reflexivity]|].
    split; [done|]. split; [done|].
    split; [done|]. split; [done|].
    assert (Hstep : (0 <= (hi - lo) * jitter_factor)%Q).
    { apply Qmult_le_0_compat; [lra | done]. }
    destruct (Hrand i) as [Hu0 Hu1].
    apply (jitter_bounds x _ _ Hstep Hu0 Hu1).
  - intros Hout.
    assert (E : Z.to_nat (cut_code idx x + 1) = 0%nat) by (rewrite (Houtside Hout); lia).
    rewrite E in Hval.
    assert (H0 : idx !! 0%nat = Some b0) by (rewrite <- head_lookup; exact first).
    pose proof (eq_trans Hval (per_bin_first idx b0 H0)) as Hstep_i.
    exact (Hmark _ Hstep_i).
Qed.
End Marks.

(** X18. On a table whose index increases strictly and has at least two
    labels, the continuous plot draws the [eff] column as a line and one
    mark per row of the feature column. The mark of a value between the
    first and the last label lies within [0.3] times the width of the
    interval of adjacent labels that holds the value, provided the
    random numbers lie in the unit interval; the mark of any other value
    is NaN. *)
Theorem marks_within_jitter_step random legacy_cut s X feature_name res_df dfX col e
  band b0 bl :
  heap s !! X = Some dfX → dfX !! feature_name = Some col →
  StronglySorted Qlt (index res_df) → (2 ≤ length (index res_df))%nat →
  head (index res_df) = Some b0 → last (index res_df) = Some bl →
  get_column "eff" (columns res_df) = Some e →
  has_column "size" (columns res_df) = true →
  confidence_band res_df = inr band →
  (∀ i, (0 <= random i)%Q ∧ (random i <= 1)%Q) →
  ∃ marks low,
    plot_1D_continuous_eff random legacy_cut feature_name res_df X false None s =
    (inr (Line (index res_df) e :: Marks marks low ::
          band ++
          [XLabel feature_name;
           YLabel "Effect on prediction (centered)";
           Title "1D ALE Plot - Continuous"]), s) ∧
    length marks = length (float_values col) ∧
    ∀ i x, float_values col !! i = Some x →
      ((b0 <= x)%Q ∧ (x <= bl)%Q →
       ∃ r lo hi j,
         marks !! i = Some (Some r) ∧
         index res_df !! j = Some lo ∧ index res_df !! S j = Some hi ∧
         (lo <= x)%Q ∧ (x <= hi)%Q ∧
         (x - (hi - lo) * jitter_factor <= r)%Q ∧
         (r <= x + (hi - lo) * jitter_factor)%Q) ∧
      (¬ ((b0 <= x)%Q ∧ (x <= bl)%Q) → marks !! i = Some None).
Proof.
  intros HX Hcol Hs Hlen Hhead Hlast Heff Hsize Hband Hrand.
  destruct (continuous_plot_runs random legacy_cut s X feature_name res_df dfX col e
              band HX Hcol Hs Hlen Heff Hsize Hband false None)
    as (steps & Hrun & Hsteps & Hval).
  eexists _, _. split; [exact Hrun|]. split.
  - unfold jitter. rewrite length_imap, length_zip, Hsteps. lia.
  - intros i x Hx.
    exact (mark_of_row random res_df col b0 bl Hs Hlen Hhead Hlast steps i x Hrand
             Hsteps Hval Hx).
Qed.

Lemma marks_within_jitter_step_witness :
  ∃ marks low,
    plot_1D_continuous_eff DemoPlot.half false "x" DemoPlot.res_df 0%nat false None
      (Demo.init Demo.table_cont) =
    (inr [Line [1; 2; 4]%Q [Some (-1); Some 0; Some 1]%Q; Marks marks low;
          XLabel "x"; YLabel "Effect on prediction (centered)";
          Title "1D ALE Plot - Continuous"], Demo.init Demo.table_cont) ∧
    length marks = 6%nat.
Proof.
  destruct (marks_within_jitter_step DemoPlot.half false (Demo.init Demo.table_cont)
              0%nat "x" DemoPlot.res_df Demo.table_cont (FloatCol Demo.xs_cont)
              [Some (-1); Some 0; Some 1]%Q [] 1%Q 4%Q)
    as (marks & low & Hrun & Hlen & _).
  - reflexivity.
  - vm_compute; reflexivity.
  - repeat constructor; unfold Qlt; simpl; lia.
  - simpl; lia.
  - reflexivity.
  - reflexivity.
  - reflexivity.
  - reflexivity.
  - reflexivity.
  - intros i. split; unfold Qle; simpl; lia.
  - exists marks, low. split; [exact Hrun | exact Hlen].
Defined.

(** ** The figure and the axes of a plot *)

(** X19. A plot function called with a figure but without axes ends with
    an [AttributeError] at its first drawing call. Called with axes but
    without a figure, the continuous plot ends with the [ValueError] of
    the offset that it gives its marks, whereas the discrete plot draws
    on the axes it was given. *)
Theorem plots_with_figure_or_axes random legacy_cut s X feature_name res_df dfX col e
  band (drawn : list artist) :
  heap s !! X = Some dfX → dfX !! feature_name = Some col →
  StronglySorted Qlt (index res_df) → (2 ≤ length (index res_df))%nat →
  get_column "eff" (columns res_df) = Some e →
  has_column "size" (columns res_df) = true →
  confidence_band res_df = inr band →
  fst (plot_1D_continuous_eff random legacy_cut feature_name res_df X true None s)
    = inl "AttributeError" ∧
  fst (plot_1D_continuous_eff random legacy_cut feature_name res_df X false
         (Some drawn) s) = inl "ValueError" ∧
  (∀ (res_df' : frame Z) e',
     get_column "eff" (columns res_df') = Some e' →
     fst (plot_1D_discrete_eff feature_name res_df' X true None s)
       = inl "AttributeError" ∧
     fst (plot_1D_discrete_eff feature_name res_df' X false (Some drawn) s)
       = inr (drawn ++ [Bars (index res_df') e'; XLabel feature_name;
                        YLabel "Effect on prediction (centered)";
                        Title "1D ALE Plot - Discrete/Categorical"])).
Proof.
  intros HX Hcol Hs Hlen Heff Hsize Hband. split; [|split].
  - destruct (continuous_plot_runs random legacy_cut s X feature_name res_df dfX col e
                band HX Hcol Hs Hlen Heff Hsize Hband true None) as (steps & -> & _).
    reflexivity.
  - destruct (continuous_plot_runs random legacy_cut s X feature_name res_df dfX col e
                band HX Hcol Hs Hlen Heff Hsize Hband false (Some drawn))
      as (steps & -> & _).
    reflexivity.
  - intros res_df' e' He'. unfold plot_1D_discrete_eff. cbn [subplots].
    split; [reflexivity|].
    erewrite bind_ok by reflexivity.
    erewrite bind_ok by (unfold frame_column; rewrite He'; reflexivity).
    reflexivity.
Qed.

Lemma plots_with_figure_or_axes_witness :
  fst (plot_1D_continuous_eff DemoPlot.half false "x" DemoPlot.res_df 0%nat true None
         (Demo.init Demo.table_cont)) = inl "AttributeError" ∧
  fst (plot_1D_continuous_eff DemoPlot.half false "x" DemoPlot.res_df 0%nat false
         (Some []) (Demo.init Demo.table_cont)) = inl "ValueError".
Proof.
  destruct (plots_with_figure_or_axes DemoPlot.half false (Demo.init Demo.table_cont)
              0%nat "x" DemoPlot.res_df Demo.table_cont (FloatCol Demo.xs_cont)
              [Some (-1); Some 0; Some 1]%Q [] [])
    as (H1 & H2 & _).
  - reflexivity.
  - vm_compute; reflexivity.
  - repeat constructor; unfold Qlt; simpl; lia.
  - simpl; lia.
  - reflexivity.
  - reflexivity.
  - reflexivity.
  - split; [exact H1 | exact H2].
Defined.

(** ** Plotting the table of an estimator *)

Lemma continuous_columns_list CI_estimate (d : list (Q * Q)) (b0 : Q)
  (include_CI : bool) (C : spec_float) (pct : Z) (f : frame Q) :
  pct_of C = inr pct →
  continuous_table CI_estimate d b0 include_CI C = inr f →
  ∃ sz ef lo up,
    columns f =
    ("size", sz) :: ("eff", ef) ::
    (if include_CI then [(lowerCI_name pct, lo); (upperCI_name pct, up)] else []).
Proof.
  intros Hpct. unfold continuous_table. cbv zeta. rewrite Hpct.
  assert (Hsl : String.eqb "size" (lowerCI_name pct) = false)
    by (apply String.eqb_neq; first_char_differs).
  assert (Hsu : String.eqb "size" (upperCI_name pct) = false)
    by (apply String.eqb_neq; first_char_differs).
  assert (Hel : String.eqb "eff" (lowerCI_name pct) = false)
    by (apply String.eqb_neq; first_char_differs).
  assert (Heu : String.eqb "eff" (upperCI_name pct) = false)
    by (apply String.eqb_neq; first_char_differs).
  assert (Hlu : String.eqb (lowerCI_name pct) (upperCI_name pct) = false)
    by (apply String.eqb_neq; first_char_differs).
  destruct include_CI.
  - cbn [set_column]. rewrite Hsl, Hel. cbn [set_column]. rewrite Hsu, Heu, Hlu.
    intros Hf. eexists _, _, _, _.
    match type of Hf with inr (Frame ?i ?c) = _ =>
      assert (f = Frame i c) as -> by congruence end.
    reflexivity.
  - intros Hf. eexists _, _, [], [].
    match type of Hf with inr (Frame ?i ?c) = _ =>
      assert (f = Frame i c) as -> by congruence end.
    reflexivity.
Qed.

Lemma band_of_columns (f : frame Q) (include_CI : bool) (pct : Z)
  (sz ef lo up : list cell) :
  columns f =
    ("size", sz) :: ("eff", ef) ::
    (if include_CI then [(lowerCI_name pct, lo); (upperCI_name pct, up)] else []) →
  get_column "eff" (columns f) = Some ef ∧
  has_column "size" (columns f) = true ∧
  confidence_band f =
    inr (if include_CI
         then [Band (index f) lo up ((pretty pct +:+ "%") +:+ " confidence interval");
               Legend]
         else []).
Proof.
  intros Hcols. unfold confidence_band. rewrite Hcols.
  split; [reflexivity|]. split; [reflexivity|].
  destruct include_CI; [|reflexivity].
  destruct (lower_name_kind pct) as [Hll Hlu].
  destruct (upper_name_kind pct) as [Huu Hul].
  assert (Hsl : String.eqb "size" (lowerCI_name pct) = false)
    by (apply String.eqb_neq; first_char_differs).
  assert (Hsu : String.eqb "size" (upperCI_name pct) = false)
    by (apply String.eqb_neq; first_char_differs).
  assert (Hel : String.eqb "eff" (lowerCI_name pct) = false)
    by (apply String.eqb_neq; first_char_differs).
  assert (Heu : String.eqb "eff" (upperCI_name pct) = false)
    by (apply String.eqb_neq; first_char_differs).
  assert (Hlu' : String.eqb (lowerCI_name pct) (upperCI_name pct) = false)
    by (apply String.eqb_neq; first_char_differs).
  cbv zeta. cbn [List.map fst List.filter].
  change (str_contains "lowerCI" "size") with false.
  change (str_contains "lowerCI" "eff") with false.
  change (str_contains "upperCI" "size") with false.
  change (str_contains "upperCI" "eff") with false.
  rewrite Hll, Hlu, Huu, Hul, lower_name_split.
  cbn [get_column]. rewrite Hsl, Hel, Hsu, Heu, Hlu', !String.eqb_refl.
  reflexivity.
Qed.

Section PlotOfTable.
Variable random : nat → Q.
Variable predict : DataFrame → list Q.
Variable quantile_ied : list Q → list Q → list Q.
Variable CI_estimate : list Q → spec_float → cell.
Variable legacy_cut : bool.
Variables (s : state) (X : nat) (feature : string) (grid_size : Z).
Variables (dfX : DataFrame) (xs bins : list Q).
Variables (include_CI : bool) (C : spec_float) (pct : Z).
Hypothesis input : continuous_input quantile_ied s X feature grid_size dfX xs bins.
Hypothesis contract : model_contract predict feature.
Hypothesis level : pct_of C = inr pct.
Hypothesis edges : (2 ≤ length bins)%nat.

(** The table of the continuous estimator, as the plot needs it. *)
Lemma continuous_table_for_plot :
  ∃ f s' sz ef lo up,
    aleplot_1D_continuous predict quantile_ied CI_estimate legacy_cut X feature
      grid_size include_CI C s = (inr f, s') ∧
    heap s' !! X = Some dfX ∧
    StronglySorted Qlt (index f) ∧ (2 ≤ length (index f))%nat ∧
    columns f =
      ("size", sz) :: ("eff", ef) ::
      (if include_CI then [(lowerCI_name pct, lo); (upperCI_name pct, up)] else []).
Proof.
  set (d := delta_table predict dfX feature bins xs).
  destruct (continuous_returns predict quantile_ied CI_estimate legacy_cut s X feature
              grid_size dfX xs bins include_CI C pct input contract level
              (or_intror edges))
    as (b0 & f & Hb0 & Hrun & Hf & Hge).
  fold d in Hf, Hge.
  destruct (continuous_table_columns CI_estimate d b0 include_CI C pct level)
    as (f' & Hf' & Hidx & _).
  rewrite Hf in Hf'. injection Hf' as <-.
  pose proof (key_above_anchor predict quantile_ied s X feature grid_size dfX xs bins
                input contract b0 Hb0 edges) as Hkv.
  fold d in Hkv.
  destruct (total_size_pos d b0 Hge (row_above_anchor d b0 Hkv))
    as (c & a & t & _ & HS & _ & _ & _ & Hsorted & Hpos & _).
  destruct (continuous_columns_list CI_estimate d b0 include_CI C pct f level Hf)
    as (sz & ef & lo & up & Hcols).
  eexists f, _, sz, ef, lo, up. split; [exact Hrun|].
  destruct input as (col & qs & mn & HX & _).
  split; [cbn [heap]; rewrite lookup_app_l by (by eapply lookup_lt_Some); exact HX|].
  rewrite Hidx, HS. split; [|split; [|exact Hcols]].
  - eapply StronglySorted_weaken; [|exact Hsorted]. intros x y. apply klt_Q.
  - destruct t as [|r t]; [|simpl; lia]. exfalso. simpl in Hpos. lra.
Qed.
End PlotOfTable.





